(** * The query plan executor of the gateway (gateway-js/src/executeQueryPlan.ts)

    A shallow embedding of [executeQueryPlan] and of the functions it is
    built from, followed by the properties of the executor established on
    this embedding.

    Conventions of the embedding.

    - A JavaScript value is a [value]: the JSON variants plus [VUndefined].
      An object is an association list in insertion order, with at most one
      entry per key; a key may be present and hold [VUndefined], which is
      what [obj[k] = undefined] leaves behind.
    - The response tree is one [value].  A reference to an object of the
      tree is the position ([loc]) of that object in the tree; reading
      through a reference is [deref], and mutation in place is [writeAt].
      Two references are the same object exactly when they are the same
      position: sharing of one object between two positions is not
      represented.  The code does share objects: a fetch without
      [requires] merges one reply object into every entity of its cursor,
      and a merge stores the nested objects of the reply themselves, not
      copies.  The embedding is exact up to the first write through such a
      shared object; where a reply is merged into one entity only (every
      entity fetch, and every fetch at the root) nothing is shared between
      two positions of the tree.  The properties below that run several
      fetches one after the other and depend on the tree they leave are
      stated of such plans.
    - A function that may throw returns a [completion].
    - [async] functions are run to completion where they are awaited.
      The code starts the children of a [Parallel] node together: each
      moves its cursor, collects its entities and sends its request on the
      tree as it is at the start, and the replies are merged in the order
      of their arrival.  [runParallel] runs the children one after the
      other in the order of the plan, each on the tree its predecessors
      left.  This is the execution of the code only for a plan without a
      [Parallel] node; the properties below that are stated of every plan
      are those that do not depend on the order in which the children of a
      [Parallel] node run (how many requests are sent, which exceptions
      can leave the plan, the shape of the envelope), every other property
      is stated of plans and nodes in which no [Parallel] node is run.
    - Spans, trace nodes, metrics and logging are left out: they do not feed
      back into the response tree, the error list or the envelope. *)

From Stdlib Require Import ZArith String Ascii List Bool Lia.
From stdpp Require Import base list strings pretty.
Import ListNotations.

(** ** Values *)

#[local] Set Warnings "-register-all".

Inductive value : Type :=
| VUndefined
| VNull
| VBool (b : bool)
| VNum (n : Z)
| VStr (s : string)
| VArr (elems : list value)
| VObj (fields : list (string * value)).

Definition ResultMap := list (string * value).

(** [obj[k]] on an object: [undefined] when the key is absent. *)
Fixpoint getKey (o : ResultMap) (k : string) : value :=
  match o with
  | [] => VUndefined
  | (k', v) :: rest => if String.eqb k' k then v else getKey rest k
  end.

(** [k in obj] *)
Fixpoint hasKey (o : ResultMap) (k : string) : bool :=
  match o with
  | [] => false
  | (k', _) :: rest => if String.eqb k' k then true else hasKey rest k
  end.

(** [obj[k] = v]: overwrite in place, or append a new property. *)
Fixpoint setKey (o : ResultMap) (k : string) (v : value) : ResultMap :=
  match o with
  | [] => [(k, v)]
  | (k', v') :: rest =>
      if String.eqb k' k then (k', v) :: rest else (k', v') :: setKey rest k v
  end.

(** JavaScript truthiness, as used by [if (x)], [!x] and [a && b]. *)
Definition truthy (v : value) : bool :=
  match v with
  | VUndefined | VNull => false
  | VBool b => b
  | VNum n => negb (Z.eqb n 0)
  | VStr s => negb (String.eqb s "")
  | VArr _ | VObj _ => true
  end.

(** Modelled from the spec: [isNotNullOrUndefined] of utilities/array,
    which is not among the sources; the entities of an array view are the
    elements that are neither null nor undefined. *)
Definition isNotNullOrUndefined (v : value) : bool :=
  match v with
  | VUndefined | VNull => false
  | _ => true
  end.

(** Modelled from the spec: [isDefined] of federation-internals, which is
    not among the sources; a result that is undefined is dropped, any other
    value, [null] included, is kept. *)
Definition isDefined (v : value) : bool :=
  match v with
  | VUndefined => false
  | _ => true
  end.

Definition isArray (v : value) : bool :=
  match v with
  | VArr _ => true
  | _ => false
  end.

(** ** Exceptions and completions *)

(** An element of a response path or of an error path: a string or a
    number.  The placeholder of plan paths is the string ["@"]. *)
Inductive PathElem : Type :=
| PStr (s : string)
| PNum (n : Z).

Definition ResponsePath := list PathElem.

(** [GraphQLError], reduced to the fields the executor reads or writes:
    the message, the path and [extensions.serviceName]. *)
Record GraphQLError : Type := mkGraphQLError {
  message : string;
  path : option ResponsePath;
  serviceName : option string
}.

(** What a [throw] can carry. *)
Inductive exn : Type :=
| ExGraphQLError (e : GraphQLError)   (* instanceof GraphQLError *)
| ExError (msg : string)              (* new Error(msg), a failed assert *)
| ExTypeError (msg : string)          (* raised by the runtime; instanceof Error *)
| ExOther (v : value).                (* any thrown value that is not an Error *)

Inductive completion (A : Type) : Type :=
| Ok (a : A)
| Throw (e : exn).
Arguments Ok {A} a.
Arguments Throw {A} e.

Definition bind {A B : Type} (c : completion A) (k : A -> completion B)
  : completion B :=
  match c with
  | Ok a => k a
  | Throw e => Throw e
  end.

Notation "'let*' x ':=' c 'in' k" := (bind c (fun x => k))
  (at level 10, x name, c at level 100, k at level 200).

(** [xs.map(f)] where [f] may throw: the first exception aborts the map. *)
Fixpoint mapM {A B : Type} (f : A -> completion B) (xs : list A)
  : completion (list B) :=
  match xs with
  | [] => Ok []
  | x :: rest =>
      let* y := f x in
      let* ys := mapM f rest in
      Ok (y :: ys)
  end.

(** The double quote, for the messages that contain one. *)
Definition dq : string := String (ascii_of_nat 34) EmptyString.

(** The messages of the errors the executor throws itself.  Modelled from
    the spec: [assert] of federation-internals, which is not among the
    sources; a failed assertion is fatal and throws an [Error] that carries
    the message of the assertion. *)
Definition missingServiceMessage (name : string) : string :=
  "Couldn't find service with name " +:+ dq +:+ name +:+ dq.

Definition forbiddenVariableMessage : string :=
  "Variables cannot contain key " +:+ dq +:+ "representations" +:+ dq.

Definition expectedEntitiesMessage : string :=
  "Expected " +:+ dq +:+ "data._entities" +:+ dq +:+ " in response to be an array".

Definition entityCountMessage (n : nat) : string :=
  "Expected " +:+ dq +:+ "data._entities" +:+ dq +:+ " to contain " +:+ pretty n
  +:+ " elements".

Definition deferMessage : string := "@defer support is not available in the gateway".

Definition conditionMessage : string := "Condition nodes are not available in the gateway".

(** [x[k]] for an arbitrary [x]: a TypeError on [null] and [undefined];
    on arrays and primitives the properties of the prototypes (such as
    [length]) are not represented and the access yields [undefined]. *)
Definition getProp (x : value) (k : string) : completion value :=
  match x with
  | VUndefined => Throw (ExTypeError ("Cannot read properties of undefined (reading '" +:+ k +:+ "')"))
  | VNull => Throw (ExTypeError ("Cannot read properties of null (reading '" +:+ k +:+ "')"))
  | VObj o => Ok (getKey o k)
  | _ => Ok VUndefined
  end.

(** ** Positions in a tree *)

Inductive step : Type :=
| SKey (k : string)
| SIdx (i : nat).

Definition loc := list step.

Fixpoint deref (t : value) (l : loc) : value :=
  match l with
  | [] => t
  | SKey k :: rest =>
      match t with
      | VObj o => deref (getKey o k) rest
      | _ => VUndefined
      end
  | SIdx i :: rest =>
      match t with
      | VArr es => match es !! i with Some e => deref e rest | None => VUndefined end
      | _ => VUndefined
      end
  end.

(** Replace the value stored at a position; nothing changes when the
    position does not exist. *)
Fixpoint writeAt (t : value) (l : loc) (v : value) : value :=
  match l with
  | [] => v
  | SKey k :: rest =>
      match t with
      | VObj o => if hasKey o k then VObj (setKey o k (writeAt (getKey o k) rest v)) else t
      | _ => t
      end
  | SIdx i :: rest =>
      match t with
      | VArr es =>
          match es !! i with
          | Some e => VArr (<[i := writeAt e rest v]> es)
          | None => t
          end
      | _ => t
      end
  end.

(** The positions of the elements of an array stored at [l]. *)
Definition elemLocs (l : loc) (es : list value) : list loc :=
  map (fun i => l ++ [SIdx i]) (seq 0 (length es)).

(** ** Deep merge *)

(** Modelled from the spec: [deepMerge] of utilities/deepMerge, which is
    not among the sources.  The rules of the specification: (1) for
    mappings, combine keys recursively; (2) for arrays of equal length,
    combine element-wise by index; (3) for scalars the later value wins;
    (4) null replaces undefined but does not overwrite non-null.  An
    undefined source leaves the target as it is.  The function returns the
    new content of the target, which the caller stores where the target
    lives. *)
Fixpoint deepMerge (target source : value) {struct source} : value :=
  match source with
  | VUndefined => target
  | VNull =>
      match target with
      | VUndefined => VNull
      | _ => target
      end
  | VObj sfields =>
      match target with
      | VObj tfields =>
          VObj ((fix mergeFields (sf : list (string * value)) (tf : ResultMap) : ResultMap :=
                   match sf with
                   | [] => tf
                   | (k, sv) :: rest =>
                       match sv with
                       | VUndefined => mergeFields rest tf
                       | _ => mergeFields rest (setKey tf k (deepMerge (getKey tf k) sv))
                       end
                   end) sfields tfields)
      | _ => source
      end
  | VArr selems =>
      match target with
      | VArr telems =>
          if Nat.eqb (length selems) (length telems) then
            VArr ((fix mergeElems (se te : list value) : list value :=
                     match se, te with
                     | s :: se', t :: te' => deepMerge t s :: mergeElems se' te'
                     | _, _ => []
                     end) selems telems)
          else source
      | _ => source
      end
  | _ => source
  end.

(** ** Output rewrites *)

Record FetchDataOutputRewrite : Type := mkOutputRewrite {
  out_path : list string;
  renameKeyTo : string
}.

(** What the variable [obj] of [withFetchRewrites] holds when it is
    defined: a reference into the fetch result, or a fresh array of
    references.  Fresh arrays are kept flat, since [applyOrMapRecursive]
    reaches the same leaves in the same order whatever their nesting. *)
Inductive view : Type :=
| One (l : loc)
| Many (ls : list loc).

(** [f(i, e)] for every entry of an array, from the index [i] on, with
    the results concatenated. *)
Fixpoint concatIndexed {A : Type} (f : nat -> value -> list A) (es : list value) (i : nat)
  : list A :=
  match es with
  | [] => []
  | e :: rest => f i e ++ concatIndexed f rest (S i)
  end.

(** The leaves [applyOrMapRecursive] applies its function to when it is
    given the value [v] stored at [l]: [v] itself, or the leaves of its
    elements when [v] is an array. *)
Fixpoint leavesOf (v : value) (l : loc) : list loc :=
  match v with
  | VArr es => concatIndexed (fun i e => leavesOf e (l ++ [SIdx i])) es 0
  | _ => [l]
  end.

Definition leavesOfView (t : value) (obj : view) : list loc :=
  match obj with
  | One l => leavesOf (deref t l) l
  | Many ls => concat (map (fun l => leavesOf (deref t l) l) ls)
  end.

(** [if (obj)] on a defined [obj]. *)
Definition viewTruthy (t : value) (obj : view) : bool :=
  match obj with
  | One l => truthy (deref t l)
  | Many _ => true
  end.

Definition definedAt (t : value) (r : option loc) : option loc :=
  match r with
  | Some l => if isDefined (deref t l) then Some l else None
  | None => None
  end.

(** [applyOrMapRecursive(value, fct)] for a [fct] that returns a reference
    or undefined: on an array, map over the elements, drop the undefined
    results and return undefined when nothing is left. *)
Definition applyOrMapRecursive (t : value) (obj : view)
    (fct : loc -> completion (option loc)) : completion (option view) :=
  let onArray (leaves : list loc) : completion (option view) :=
    let* rs := mapM fct leaves in
    match omap (definedAt t) rs with
    | [] => Ok None
    | res => Ok (Some (Many res))
    end in
  match obj with
  | One l =>
      match deref t l with
      | VArr _ => onArray (leavesOfView t obj)
      | _ => let* r := fct l in Ok (option_map One r)
      end
  | Many _ => onArray (leavesOfView t obj)
  end.

Definition fragmentPrefix : string := "... on ".

(** One round of the [while] loop of [withFetchRewrites], for the path
    element [p]. *)
Definition walkStep (t : value) (p : string) (elt : loc) : completion (option loc) :=
  if String.prefix fragmentPrefix p then
    let typename := String.substring (String.length fragmentPrefix)
                      (String.length p - String.length fragmentPrefix) p in
    let* tn := getProp (deref t elt) "__typename" in
    match tn with
    | VStr s => if String.eqb s typename then Ok (Some elt) else Ok None
    | _ => Ok None
    end
  else
    let* _ := getProp (deref t elt) p in
    Ok (Some (elt ++ [SKey p])).

(** The [while (obj && i < rewrite.path.length - 1)] loop, over the path
    elements before the last one. *)
Fixpoint walkPath (t : value) (obj : option view) (steps : list string)
  : completion (option view) :=
  match steps with
  | [] => Ok obj
  | p :: rest =>
      match obj with
      | Some v =>
          if viewTruthy t v then
            let* obj' := applyOrMapRecursive t v (walkStep t p) in
            walkPath t obj' rest
          else Ok obj
      | None => Ok None
      end
  end.

(** [elt[renameKeyTo] = elt[removedKey]; elt[removedKey] = undefined] *)
Definition moveKey (o : ResultMap) (removedKey renameTo : string) : ResultMap :=
  setKey (setKey o renameTo (getKey o removedKey)) removedKey VUndefined.

(** The callback of the last [applyOrMapRecursive] of [withFetchRewrites],
    on the leaf [elt]: [typeof elt === 'object'] holds of objects and of
    [null], and reading a property of [null] throws. *)
Definition renameAt (removedKey renameTo : string) (t : value) (elt : loc)
  : completion value :=
  match deref t elt with
  | VObj o => Ok (writeAt t elt (VObj (moveKey o removedKey renameTo)))
  | VNull => let* _ := getProp VNull removedKey in Ok t
  | _ => Ok t
  end.

Fixpoint foldM {A B : Type} (f : A -> B -> completion A) (a : A) (xs : list B)
  : completion A :=
  match xs with
  | [] => Ok a
  | x :: rest => let* a' := f a x in foldM f a' rest
  end.

(** The body of the [for (const rewrite of rewrites)] loop.  When the
    [while] loop has consumed the whole prefix, [rewrite.path[i]] is the
    last element of the path; for an empty path it is the property key
    ["undefined"]. *)
Definition applyOutputRewrite (t : value) (rewrite : FetchDataOutputRewrite)
  : completion value :=
  let* obj := walkPath t (Some (One [])) (removelast (out_path rewrite)) in
  match obj with
  | Some v =>
      if viewTruthy t v then
        foldM (renameAt (List.last (out_path rewrite) "undefined") (renameKeyTo rewrite))
              t (leavesOfView t v)
      else Ok t
  | None => Ok t
  end.

Definition withFetchRewrites (fetchResult : value)
    (rewrites : option (list FetchDataOutputRewrite)) : completion value :=
  match rewrites with
  | None => Ok fetchResult
  | Some rs =>
      if truthy fetchResult then foldM applyOutputRewrite fetchResult rs
      else Ok fetchResult
  end.

(** String conversion, as performed by a template literal or by the use of
    a value as a property key. *)
Fixpoint jsToString (v : value) : string :=
  match v with
  | VUndefined => "undefined"
  | VNull => "null"
  | VBool true => "true"
  | VBool false => "false"
  | VNum n => pretty n
  | VStr s => s
  | VArr es =>
      (fix join (es : list value) : string :=
         match es with
         | [] => ""
         | e :: rest =>
             (match e with
              | VUndefined | VNull => ""
              | _ => jsToString e
              end) +:+
             (match rest with
              | [] => ""
              | _ => "," +:+ join rest
              end)
         end) es
  | VObj _ => "[object Object]"
  end.

Definition typenameField : string := "__typename".

(** [filterEntityRewrites(entity, rewrites)]: the rewrites that start with
    the fragment of the entity's type, with that fragment removed. *)
Definition filterEntityRewrites (entity : value)
    (rewrites : option (list FetchDataOutputRewrite))
  : completion (option (list FetchDataOutputRewrite)) :=
  match rewrites with
  | None => Ok None
  | Some rs =>
      let* typename := getProp entity typenameField in
      let typenameAsFragment := fragmentPrefix +:+ jsToString typename in
      Ok (Some (omap (fun r =>
                  match out_path r with
                  | p0 :: rest =>
                      if String.eqb p0 typenameAsFragment
                      then Some (mkOutputRewrite rest (renameKeyTo r))
                      else None
                  | [] => None
                  end) rs))
  end.

(** ** Input rewrites and the selection-set walker *)

Record FetchDataInputRewrite : Type := mkInputRewrite {
  in_path : list string;
  setValueTo : value
}.

Record UpdatedRewrites : Type := mkUpdatedRewrites {
  updated : list FetchDataInputRewrite;
  completeRewrite : value
}.

(** The [completeRewrite] variable after the [map] of [updateRewrites]:
    the value of the last rewrite whose path is exactly [[pathElement]]. *)
Fixpoint completeRewriteOf (rs : list FetchDataInputRewrite) (pathElement : string)
    (acc : value) : value :=
  match rs with
  | [] => acc
  | r :: rest =>
      match in_path r with
      | [p0] => completeRewriteOf rest pathElement
                  (if String.eqb p0 pathElement then setValueTo r else acc)
      | _ => completeRewriteOf rest pathElement acc
      end
  end.

Definition updateRewrites (rewrites : option (list FetchDataInputRewrite))
    (pathElement : string) : option UpdatedRewrites :=
  match rewrites with
  | None => None
  | Some rs =>
      let complete := completeRewriteOf rs pathElement VUndefined in
      let upd := omap (fun r =>
                   match in_path r with
                   | p0 :: ((_ :: _) as updatedPath) =>
                       if String.eqb p0 pathElement
                       then Some (mkInputRewrite updatedPath (setValueTo r))
                       else None
                   | _ => None
                   end) rs in
      match upd, complete with
      | [], VUndefined => None
      | _, _ => Some (mkUpdatedRewrites upd complete)
      end
  end.

(** The part of the supergraph schema [doesTypeConditionMatch] consults. *)
Inductive TypeKind : Type :=
| ObjectTypeKind
| InterfaceTypeKind
| UnionTypeKind
| OtherTypeKind.

Record GraphQLSchema : Type := mkSchema {
  getType : string -> option TypeKind;
  isSubType : string -> string -> bool   (* abstract type, then maybe-subtype *)
}.

Definition isAbstractType (k : TypeKind) : bool :=
  match k with
  | InterfaceTypeKind | UnionTypeKind => true
  | _ => false
  end.

Definition doesTypeConditionMatch (schema : GraphQLSchema)
    (typeCondition : string) (typename : value) : bool :=
  if (match typename with VStr s => String.eqb typeCondition s | _ => false end)
  then true
  else
    match getType schema (jsToString typename) with
    | None => false
    | Some type =>
        match getType schema typeCondition with
        | None => false
        | Some conditionalType =>
            if isAbstractType conditionalType then
              (match type with
               | ObjectTypeKind | InterfaceTypeKind => true
               | _ => false
               end) && isSubType schema typeCondition (jsToString typename)
            else false
        end
    end.

(** Modelled from the spec: the selection nodes of the query planner,
    whose declarations are not among the sources: a field (response name,
    optional sub-selections) or an inline fragment (optional type
    condition, sub-selections).  [getResponseName] is the first component
    of a field. *)
Inductive QueryPlanSelectionNode : Type :=
| Field (responseName : string) (selections : option (list QueryPlanSelectionNode))
| InlineFragment (typeCondition : option string) (selections : list QueryPlanSelectionNode).

(** How one round of the [for (const selection of selections)] loop ends:
    it goes on with the [result] built so far, or the function returns. *)
Inductive LoopExit : Type :=
| GoOn (result : ResultMap)
| Return (v : value).

(** The frame of [executeSelectionSet]: the test on [source], the fresh
    [result] and the loop, over a given loop body. *)
Definition selectionLoop {S : Type}
    (body : S -> value -> option (list FetchDataInputRewrite) -> ResultMap -> completion LoopExit)
    (source : value) (selections : list S)
    (activeRewrites : option (list FetchDataInputRewrite)) : completion value :=
  match source with
  | VNull => Ok VNull
  | _ =>
      (fix loop (sels : list S) (result : ResultMap) : completion value :=
         match sels with
         | [] => Ok (VObj result)
         | selection :: rest =>
             let* exit := body selection source activeRewrites result in
             match exit with
             | GoOn result' => loop rest result'
             | Return v => Ok v
             end
         end) selections []
  end.

Definition updatedOf (u : option UpdatedRewrites) : option (list FetchDataInputRewrite) :=
  option_map updated u.

Definition completeRewriteIn (u : option UpdatedRewrites) : value :=
  match u with
  | Some r => completeRewrite r
  | None => VUndefined
  end.

(** The body of the loop of [executeSelectionSet], for one selection. *)
Fixpoint executeSelection (schema : GraphQLSchema) (selection : QueryPlanSelectionNode)
    (source : value) (activeRewrites : option (list FetchDataInputRewrite))
    (result : ResultMap) {struct selection} : completion LoopExit :=
  match selection with
  | Field responseName selections =>
      let* sourceValue := getProp source responseName in
      if negb (isDefined sourceValue) then Ok (Return VNull)
      else
        let updatedRewrites := updateRewrites activeRewrites responseName in
        if isDefined (completeRewriteIn updatedRewrites) then
          Ok (GoOn (setKey result responseName (completeRewriteIn updatedRewrites)))
        else
          match sourceValue with
          | VArr elems =>
              let* mapped :=
                mapM (fun v =>
                        match selections with
                        | Some sels =>
                            selectionLoop (executeSelection schema) v sels
                              (updatedOf updatedRewrites)
                        | None => Ok v
                        end) elems in
              Ok (GoOn (setKey result responseName (VArr mapped)))
          | _ =>
              match selections with
              | Some sels =>
                  let* sub := selectionLoop (executeSelection schema) sourceValue sels
                                (updatedOf updatedRewrites) in
                  Ok (GoOn (setKey result responseName sub))
              | None => Ok (GoOn (setKey result responseName sourceValue))
              end
          end
  | InlineFragment typeCondition selections =>
      match typeCondition with
      | None => Ok (GoOn result)
      | Some cond =>
          let* typename :=
            (if truthy source then getProp source typenameField else Ok source) in
          if negb (truthy typename) then Ok (GoOn result)
          else if doesTypeConditionMatch schema cond typename then
            let updatedRewrites :=
              match activeRewrites with
              | Some _ => updateRewrites activeRewrites (fragmentPrefix +:+ cond)
              | None => None
              end in
            let* sub := selectionLoop (executeSelection schema) source selections
                          (updatedOf updatedRewrites) in
            match deepMerge (VObj result) sub with
            | VObj merged => Ok (GoOn merged)
            | _ => Ok (GoOn result)
            end
          else Ok (GoOn result)
      end
  end.

Definition executeSelectionSet (schema : GraphQLSchema) (source : value)
    (selections : list QueryPlanSelectionNode)
    (activeRewrites : option (list FetchDataInputRewrite)) : completion value :=
  selectionLoop (executeSelection schema) source selections activeRewrites.

(** ** Cursors *)

(** A cursor into the full result.  [cdata] is what the cursor points at,
    as references into the response tree; the full result itself is the
    tree of the execution state, which every cursor of a request shares. *)
Record ResultCursor : Type := mkCursor {
  cpath : ResponsePath;
  cdata : view
}.

Definition atSign : string := "@".

(** The elements of an array value, as references. *)
Definition elementsOf (t : value) (v : view) : option (list loc) :=
  match v with
  | Many ls => Some ls
  | One l =>
      match deref t l with
      | VArr es => Some (elemLocs l es)
      | _ => None
      end
  end.

Fixpoint flattenResultsAtPath (t : value) (v : view) (path : ResponsePath)
  : completion view :=
  match path with
  | [] => Ok v
  | current :: rest =>
      if (match v with One l => negb (isNotNullOrUndefined (deref t l)) | Many _ => false end)
      then Ok v
      else
        match current with
        | PStr s =>
            if String.eqb s atSign then
              match elementsOf t v with
              | Some elements =>
                  let* parts :=
                    mapM (fun element =>
                            let* r := flattenResultsAtPath t (One element) rest in
                            Ok (match elementsOf t r with
                                | Some ls => ls
                                | None => match r with One l => [l] | Many ls => ls end
                                end)) elements in
                  Ok (Many (concat parts))
              | None => Throw (ExTypeError "value.flatMap is not a function")
              end
            else
              match v with
              | One l =>
                  if isArray (deref t l)
                  then Throw (ExError ("Unexpected array in result for path element " +:+ s))
                  else flattenResultsAtPath t (One (l ++ [SKey s])) rest
              | Many _ =>
                  Throw (ExError ("Unexpected array in result for path element " +:+ s))
              end
        | PNum _ => Throw (ExError "Unexpected number found in path")
        end
  end.

Definition moveIntoCursor (t : value) (cursor : ResultCursor) (pathInCursor : ResponsePath)
  : completion (option ResultCursor) :=
  let* data := flattenResultsAtPath t (cdata cursor) pathInCursor in
  if viewTruthy t data
  then Ok (Some (mkCursor (cpath cursor ++ pathInCursor) data))
  else Ok None.

(** ** Error paths *)

(** [generateHydratedPaths(parent, path, data, result)]: the paths pushed
    onto [result], in order. *)
Fixpoint generateHydratedPaths (parent path : ResponsePath) (data : value)
    {struct path} : completion (list ResponsePath) :=
  if negb (isNotNullOrUndefined data) then Ok []
  else
    match path with
    | [] => Ok [parent]
    | PStr head :: rest =>
        if String.eqb head atSign then
          match data with
          | VArr es =>
              (fix entries (es : list value) (i : nat) : completion (list ResponsePath) :=
                 match es with
                 | [] => Ok []
                 | value :: es' =>
                     let* here := generateHydratedPaths (parent ++ [PNum (Z.of_nat i)]) rest value in
                     let* others := entries es' (S i) in
                     Ok (here ++ others)
                 end) es 0
          | _ => Throw (ExError "expected array when encountering `@`")
          end
        else
          (fix onData (parent : ResponsePath) (data : value) {struct data}
             : completion (list ResponsePath) :=
             match data with
             | VUndefined | VNull => Ok []
             | VArr es =>
                 (fix entries (es : list value) (i : nat) : completion (list ResponsePath) :=
                    match es with
                    | [] => Ok []
                    | value :: es' =>
                        let* here := onData (parent ++ [PNum (Z.of_nat i)]) value in
                        let* others := entries es' (S i) in
                        Ok (here ++ others)
                    end) es 0
             | VObj o =>
                 if hasKey o head
                 then generateHydratedPaths (parent ++ [PStr head]) rest (getKey o head)
                 else Ok []
             | _ =>
                 Throw (ExTypeError ("Cannot use 'in' operator to search for '" +:+ head
                                     +:+ "' in " +:+ jsToString data))
             end) parent data
    | PNum n :: _ => Throw (ExError ("unknown path part " +:+ dq +:+ pretty n +:+ dq))
    end.

(** ** Plans, data sources and the execution context *)

(** Modelled from the spec: the plan nodes of the query planner and the
    data-source interface, whose declarations are not among the sources,
    with the fields the executor reads. *)

Record FetchNode : Type := mkFetchNode {
  fetchServiceName : string;
  variableUsages : option (list string);
  requires : option (list QueryPlanSelectionNode);
  operation : string;
  operationName : option string;
  inputRewrites : option (list FetchDataInputRewrite);
  outputRewrites : option (list FetchDataOutputRewrite)
}.

Inductive PlanNode : Type :=
| Sequence (nodes : list PlanNode)
| Parallel (nodes : list PlanNode)
| Flatten (path : ResponsePath) (node : PlanNode)
| Fetch (fetch : FetchNode)
| Defer
| Condition.

Record QueryPlan : Type := mkQueryPlan {
  planNode : option PlanNode
}.

Record GraphQLRequest : Type := mkRequest {
  query : string;
  variables : ResultMap;
  requestOperationName : option string
}.

(** An error as a subgraph reports it; an absent message is the empty
    string. *)
Record GraphQLFormattedError : Type := mkFormattedError {
  formattedMessage : string;
  formattedPath : option ResponsePath
}.

Record GraphQLResponse : Type := mkResponse {
  responseData : value;
  responseErrors : option (list GraphQLFormattedError)
}.

(** [GraphQLDataSource.process]: the reply to a request, or an exception.
    The first argument is the number of calls the executor has made before
    this one, so that a source may answer differently from call to call. *)
Definition GraphQLDataSource := nat -> GraphQLRequest -> completion GraphQLResponse.

Definition ServiceMap := string -> option GraphQLDataSource.

Record ExecutionContext : Type := mkContext {
  serviceMap : ServiceMap;
  requestVariables : option ResultMap;
  supergraphSchema : GraphQLSchema
}.

(** What the executor mutates during a request: the unfiltered response
    tree, [context.errors], and the number of calls made to data sources. *)
Record ExecutionState : Type := mkState {
  fullResult : value;
  errors : list exn;
  calls : nat
}.

Definition makeLazyErrorPathGenerator (fetch : FetchNode) (cursor : ResultCursor)
    (t : value) (errorPath : option ResponsePath) : completion (option ResponsePath) :=
  match requires fetch, errorPath with
  | Some _, Some (_ :: PNum i :: rest) =>
      let* hydratedPaths := generateHydratedPaths [] (cpath cursor) t in
      let hydratedPath :=
        match (if Z.ltb i 0 then None else hydratedPaths !! Z.to_nat i) with
        | Some p => p
        | None => []
        end in
      Ok (Some (hydratedPath ++ rest))
  | _, Some errorPath => Ok (Some (cpath cursor ++ errorPath))
  | _, None => Ok None
  end.

(** [downstreamServiceError], without the choice of the error code. *)
Definition downstreamServiceError (originalError : GraphQLFormattedError)
    (service : string) (generateErrorPath : option ResponsePath -> completion (option ResponsePath))
  : completion exn :=
  let msg :=
    if String.eqb (formattedMessage originalError) ""
    then "Error while fetching subquery from service " +:+ dq +:+ service +:+ dq
    else formattedMessage originalError in
  let* p := generateErrorPath (formattedPath originalError) in
  Ok (ExGraphQLError (mkGraphQLError msg p (Some service))).

(** [sendOperation(variables)] of [executeFetch]. *)
Definition sendOperation (service : GraphQLDataSource) (fetch : FetchNode)
    (cursor : ResultCursor) (vars : ResultMap) (st : ExecutionState)
  : ExecutionState * completion value :=
  let st1 := mkState (fullResult st) (errors st) (S (calls st)) in
  match service (calls st) (mkRequest (operation fetch) vars (operationName fetch)) with
  | Throw e => (st1, Throw e)
  | Ok response =>
      match responseErrors response with
      | Some errs =>
          let errorPathHelper := makeLazyErrorPathGenerator fetch cursor (fullResult st) in
          match mapM (fun error => downstreamServiceError error (fetchServiceName fetch)
                                     errorPathHelper) errs with
          | Throw e => (st1, Throw e)
          | Ok es => (mkState (fullResult st) (errors st ++ es) (S (calls st)),
                      Ok (responseData response))
          end
      | None => (st1, Ok (responseData response))
      end
  end.

(** The entities of a cursor: the non-null elements when the data is an
    array, the data itself otherwise. *)
Definition collectEntities (t : value) (cursor : ResultCursor) : list loc :=
  match elementsOf t (cdata cursor) with
  | Some ls => List.filter (fun l => isNotNullOrUndefined (deref t l)) ls
  | None => match cdata cursor with One l => [l] | Many ls => ls end
  end.

(** The outgoing variables: the declared usages the request provides. *)
Definition collectVariables (fetch : FetchNode) (provided : option ResultMap) : ResultMap :=
  match variableUsages fetch with
  | None => []
  | Some usages =>
      fold_left (fun vars variableName =>
                   match provided with
                   | Some providedVariables =>
                       if isDefined (getKey providedVariables variableName)
                       then setKey vars variableName (getKey providedVariables variableName)
                       else vars
                   | None => vars
                   end) usages []
  end.

(** The [entities.forEach] of the entity branch: the representations and,
    for each, the index of the entity it was extracted from. *)
Fixpoint buildRepresentations (schema : GraphQLSchema) (fetch : FetchNode)
    (sels : list QueryPlanSelectionNode) (entities : list value) (index : nat)
  : completion (list value * list nat) :=
  match entities with
  | [] => Ok ([], [])
  | entity :: rest =>
      let* representation := executeSelectionSet schema entity sels (inputRewrites fetch) in
      let* keep :=
        (if truthy representation
         then let* tn := getProp representation typenameField in Ok (truthy tn)
         else Ok false) in
      let* others := buildRepresentations schema fetch sels rest (S index) in
      if (keep : bool)
      then Ok (representation :: fst others, index :: snd others)
      else Ok others
  end.

(** [xs[i]] for an array [xs]: [undefined] out of range. *)
Definition at_ (xs : list value) (i : nat) : value :=
  match xs !! i with
  | Some v => v
  | None => VUndefined
  end.

(** The second argument of the [deepMerge] of the merge loop:
    [withFetchRewrites(receivedEntities[i],
       filterEntityRewrites(representations[i], outputRewrites))]. *)
Definition rewrittenEntity (rewrites : option (list FetchDataOutputRewrite))
    (representations receivedEntities : list value) (i : nat) : completion value :=
  let* filtered := filterEntityRewrites (at_ representations i) rewrites in
  withFetchRewrites (at_ receivedEntities i) filtered.

(** One round of the merge loop of the entity branch, on the array
    [entities]: [deepMerge(entities[representationToEntity[i]], ...)].
    When [representationToEntity[i]] is undefined there is no target and
    the merge changes nothing. *)
Definition mergeEntity (rewrites : option (list FetchDataOutputRewrite))
    (representations : list value) (representationToEntity : list nat)
    (receivedEntities : list value) (entities : list value) (i : nat)
  : completion (list value) :=
  let* source := rewrittenEntity rewrites representations receivedEntities i in
  match representationToEntity !! i with
  | Some index =>
      match entities !! index with
      | Some target => Ok (<[index := deepMerge target source]> entities)
      | None => Ok entities
      end
  | None => Ok entities
  end.

(** A loop over an array that is mutated in place: the array as the loop
    leaves it, and how the loop ended. *)
Fixpoint loopOver {A B : Type} (body : A -> B -> completion A) (a : A) (xs : list B)
  : A * completion unit :=
  match xs with
  | [] => (a, Ok tt)
  | x :: rest =>
      match body a x with
      | Ok a' => loopOver body a' rest
      | Throw e => (a, Throw e)
      end
  end.

(** [for (let i = 0; i < entities.length; i++) { deepMerge(...) }] *)
Definition mergeEntities (rewrites : option (list FetchDataOutputRewrite))
    (representations : list value) (representationToEntity : list nat)
    (receivedEntities : list value) (entities : list value)
  : list value * completion unit :=
  loopOver (mergeEntity rewrites representations representationToEntity receivedEntities)
           entities (seq 0 (length entities)).

(** [for (const entity of entities) deepMerge(entity, withFetchRewrites(data, rewrites))]
    of the branch without [requires]: the same [data] object is rewritten
    again on every round.  In the code the entities then share the nested
    objects of [data]; here every entity holds its own copy, so what is
    computed is the tree right after the loop, and a later write through
    one entity is not seen through the others. *)
Definition mergeIntoAll (rewrites : option (list FetchDataOutputRewrite))
    (dataReceived : value) (entities : list value)
  : list value * completion unit :=
  let '(final, outcome) :=
    loopOver (fun (acc : list value * value) (i : nat) =>
                let* data := withFetchRewrites (snd acc) rewrites in
                Ok (<[i := deepMerge (at_ (fst acc) i) data]> (fst acc), data))
             (entities, dataReceived) (seq 0 (length entities)) in
  (fst final, outcome).

(** Store the entities back where they live in the response tree. *)
Definition storeEntities (t : value) (locs : list loc) (entities : list value) : value :=
  fold_left (fun t' (le : loc * value) => writeAt t' (fst le) (snd le))
            (zip locs entities) t.

Definition withTree (st : ExecutionState) (t : value) : ExecutionState :=
  mkState t (errors st) (calls st).

Definition executeFetch (context : ExecutionContext) (fetch : FetchNode)
    (currentCursor : ResultCursor) (st : ExecutionState)
  : ExecutionState * completion unit :=
  match serviceMap context (fetchServiceName fetch) with
  | None =>
      (st, Throw (ExError (missingServiceMessage (fetchServiceName fetch))))
  | Some service =>
      let locs := collectEntities (fullResult st) currentCursor in
      let entities := map (deref (fullResult st)) locs in
      if Nat.ltb (length entities) 1 then (st, Ok tt)
      else
        let vars := collectVariables fetch (requestVariables context) in
        match requires fetch with
        | None =>
            let '(st1, sent) := sendOperation service fetch currentCursor vars st in
            match sent with
            | Throw e => (st1, Throw e)
            | Ok dataReceivedFromService =>
                let '(entities', outcome) :=
                  mergeIntoAll (outputRewrites fetch) dataReceivedFromService entities in
                (withTree st1 (storeEntities (fullResult st1) locs entities'), outcome)
            end
        | Some sels =>
            match buildRepresentations (supergraphSchema context) fetch sels entities 0 with
            | Throw e => (st, Throw e)
            | Ok (representations, representationToEntity) =>
                if Nat.ltb (length representations) 1 then (st, Ok tt)
                else if hasKey vars "representations" then
                  (st, Throw (ExError forbiddenVariableMessage))
                else
                  let '(st1, sent) :=
                    sendOperation service fetch currentCursor
                      (setKey vars "representations" (VArr representations)) st in
                  match sent with
                  | Throw e => (st1, Throw e)
                  | Ok dataReceivedFromService =>
                      if negb (truthy dataReceivedFromService) then (st1, Ok tt)
                      else
                        match getProp dataReceivedFromService "_entities" with
                        | Ok (VArr receivedEntities) =>
                            if negb (Nat.eqb (length receivedEntities) (length representations))
                            then
                              (st1, Throw (ExError (entityCountMessage (length representations))))
                            else
                              let '(entities', outcome) :=
                                mergeEntities (outputRewrites fetch) representations
                                  representationToEntity receivedEntities entities in
                              (withTree st1 (storeEntities (fullResult st1) locs entities'),
                               outcome)
                        | _ =>
                            (st1, Throw (ExError expectedEntitiesMessage))
                        end
                  end
            end
        end
  end.

(** ** The plan interpreter *)

Definition pushError (st : ExecutionState) (e : exn) : ExecutionState :=
  mkState (fullResult st) (errors st ++ [e]) (calls st).

(** The children of a [Sequence]: one after the other; an exception ends
    the loop. *)
Definition runSequence {N : Type}
    (exec : N -> ExecutionState -> ExecutionState * completion unit)
  : list N -> ExecutionState -> ExecutionState * completion unit :=
  fix run (nodes : list N) (st : ExecutionState) :=
    match nodes with
    | [] => (st, Ok tt)
    | childNode :: rest =>
        match exec childNode st with
        | (st', Ok _) => run rest st'
        | (st', Throw e) => (st', Throw e)
        end
    end.

(** The children of a [Parallel]: every child is run, also after one of
    them has thrown, and the exception of the node is that of the first
    child that throws.  The children are run in the order of the plan, each
    on the state its predecessors left, where the code starts them
    together on the state at the start and [Promise.all] rejects with the
    rejection that comes first in time: see the conventions above. *)
Definition runParallel {N : Type}
    (exec : N -> ExecutionState -> ExecutionState * completion unit)
  : list N -> ExecutionState -> ExecutionState * completion unit :=
  fix run (nodes : list N) (st : ExecutionState) :=
    match nodes with
    | [] => (st, Ok tt)
    | childNode :: rest =>
        match exec childNode st with
        | (st', Ok _) => run rest st'
        | (st', Throw e) => (fst (run rest st'), Throw e)
        end
    end.

Fixpoint executeNode (context : ExecutionContext) (node : PlanNode)
    (currentCursor : option ResultCursor) (st : ExecutionState)
    {struct node} : ExecutionState * completion unit :=
  match currentCursor with
  | None => (st, Ok tt)
  | Some cursor =>
      match node with
      | Sequence nodes =>
          runSequence (fun childNode => executeNode context childNode (Some cursor)) nodes st
      | Parallel nodes =>
          runParallel (fun childNode => executeNode context childNode (Some cursor)) nodes st
      | Flatten path child =>
          match moveIntoCursor (fullResult st) cursor path with
          | Ok moved => executeNode context child moved st
          | Throw e => (st, Throw e)
          end
      | Fetch fetch =>
          match executeFetch context fetch cursor st with
          | (st', Ok _) => (st', Ok tt)
          | (st', Throw error) => (pushError st' error, Ok tt)
          end
      | Defer => (st, Throw (ExError deferMessage))
      | Condition => (st, Throw (ExError conditionMessage))
      end
  end.

(** ** The entry point *)

(** What the [try] block of the post-processing step does with the
    unfiltered data, up to the [if] on the two error lists:
    [operationFromDocument] and [computeResponse] either yield the shaped
    data with the post-processing errors, or something is thrown.  Neither
    function is among the sources: the step is a parameter of
    [executeQueryPlan]. *)
Inductive PostProcessing : Type :=
| Shaped (data : value) (postProcessingErrors : list GraphQLError)
| Thrown (error : exn).

Definition PostProcessor := value -> PostProcessing.

(** [GatewayExecutionResult]; an absent [data] is [VUndefined]. *)
Record GatewayExecutionResult : Type := mkResult {
  resultData : value;
  resultErrors : option (list exn)
}.

Definition initialState : ExecutionState := mkState (VObj []) [] 0.

Definition rootCursor : ResultCursor := mkCursor [] (One []).

(** The first half of [executeQueryPlan]: the interpretation of the plan
    from the root cursor into a fresh response tree. *)
Definition runPlan (queryPlan : QueryPlan) (context : ExecutionContext)
  : ExecutionState * completion unit :=
  match planNode queryPlan with
  | Some node => executeNode context node (Some rootCursor) initialState
  | None => (initialState, Ok tt)
  end.

Definition genericMessage : string := "Unexpected error during query plan execution".

(** The second half: the post-processing span. *)
Definition postProcess (computeResponse : PostProcessor) (st : ExecutionState)
  : GatewayExecutionResult :=
  match computeResponse (fullResult st) with
  | Shaped data postProcessingErrors =>
      if Nat.eqb (length (errors st)) 0 && Nat.ltb 0 (length postProcessingErrors)
      then mkResult data (Some (map ExGraphQLError postProcessingErrors))
      else if Nat.eqb (length (errors st)) 0
           then mkResult data None
           else mkResult data (Some (errors st))
  | Thrown (ExGraphQLError e) => mkResult VUndefined (Some [ExGraphQLError e])
  | Thrown (ExError msg) | Thrown (ExTypeError msg) =>
      mkResult VUndefined (Some [ExGraphQLError (mkGraphQLError msg None None)])
  | Thrown (ExOther _) =>
      mkResult VUndefined (Some [ExGraphQLError (mkGraphQLError genericMessage None None)])
  end.

(** [executeQueryPlan]: an exception of the interpretation is rethrown by
    the outer [catch]; otherwise the envelope of the post-processing step
    is returned. *)
Definition executeQueryPlan (queryPlan : QueryPlan) (context : ExecutionContext)
    (computeResponse : PostProcessor) : completion GatewayExecutionResult :=
  match runPlan queryPlan context with
  | (_, Throw err) => Throw err
  | (st, Ok _) => Ok (postProcess computeResponse st)
  end.

(** ** Well-formed values *)

(** Arrays hold no [undefined], at any depth: true of every value read
    from JSON. *)
Fixpoint noUndefinedElements (v : value) : bool :=
  match v with
  | VArr es => forallb (fun e => isDefined e && noUndefinedElements e) es
  | VObj fields => forallb (fun kv => let '(_, w) := kv in noUndefinedElements w) fields
  | _ => true
  end.

Definition subSelections (selections : option (list QueryPlanSelectionNode))
  : list QueryPlanSelectionNode :=
  match selections with
  | Some sels => sels
  | None => []
  end.


(** ** Independent positions *)

(** Two positions neither of which lies on the way to the other. *)
Definition independent (l1 l2 : loc) : Prop :=
  ~ l1 `prefix_of` l2 /\ ~ l2 `prefix_of` l1.

Fixpoint pairwiseIndependent (ls : list loc) : Prop :=
  match ls with
  | [] => True
  | l :: rest => Forall (independent l) rest /\ pairwiseIndependent rest
  end.

(** A fresh array of references holds pairwise independent positions. *)
Definition viewIndependent (v : view) : Prop :=
  match v with
  | One _ => True
  | Many ls => pairwiseIndependent ls
  end.

(** The references a view holds. *)
Definition locsOf (v : view) : list loc :=
  match v with
  | One l => [l]
  | Many ls => ls
  end.

(** ** Induction on selections and on values *)

(** The induction principles that give the hypothesis for the nested
    lists as well. *)

Section selection_induction.
Variable P : QueryPlanSelectionNode -> Prop.
Hypothesis HField :
  forall responseName selections,
    Forall P (subSelections selections) -> P (Field responseName selections).
Hypothesis HFragment :
  forall typeCondition selections,
    Forall P selections -> P (InlineFragment typeCondition selections).

Fixpoint selection_induction (s : QueryPlanSelectionNode) : P s :=
  let all :=
    fix all (sels : list QueryPlanSelectionNode) : Forall P sels :=
      match sels with
      | [] => List.Forall_nil P
      | s' :: rest => List.Forall_cons P s' rest (selection_induction s') (all rest)
      end in
  match s with
  | Field responseName selections =>
      HField responseName selections
        (match selections return Forall P (subSelections selections) with
         | Some sels => all sels
         | None => List.Forall_nil P
         end)
  | InlineFragment typeCondition selections =>
      HFragment typeCondition selections (all selections)
  end.
End selection_induction.

Section value_induction.
Variable P : value -> Prop.
Hypothesis HUndefined : P VUndefined.
Hypothesis HNull : P VNull.
Hypothesis HBool : forall b, P (VBool b).
Hypothesis HNum : forall n, P (VNum n).
Hypothesis HStr : forall s, P (VStr s).
Hypothesis HArr : forall es, Forall P es -> P (VArr es).
Hypothesis HObj : forall fields, Forall (fun kv => P (snd kv)) fields -> P (VObj fields).

Fixpoint value_induction (v : value) : P v :=
  match v with
  | VUndefined => HUndefined
  | VNull => HNull
  | VBool b => HBool b
  | VNum n => HNum n
  | VStr s => HStr s
  | VArr es =>
      HArr es ((fix all (es : list value) : Forall P es :=
                  match es with
                  | [] => List.Forall_nil P
                  | e :: rest => List.Forall_cons P e rest (value_induction e) (all rest)
                  end) es)
  | VObj fields =>
      HObj fields
        ((fix all (fs : list (string * value)) : Forall (fun kv => P (snd kv)) fs :=
            match fs with
            | [] => List.Forall_nil _
            | (k, w) :: rest =>
                List.Forall_cons (fun kv => P (snd kv)) (k, w) rest (value_induction w) (all rest)
            end) fields)
  end.
End value_induction.

(** ** Reaching an unsupported node *)




(** ** Shapes of selections and plans *)

Definition isField (selection : QueryPlanSelectionNode) : bool :=
  match selection with
  | Field _ _ => true
  | InlineFragment _ _ => false
  end.

(** The selection of a field without sub-selections. *)
Definition leafField (responseName : string) : QueryPlanSelectionNode :=
  Field responseName None.

(** The loop of [executeSelectionSet] from a [result] built so far. *)
Fixpoint selectionLoopFrom
    (body : QueryPlanSelectionNode -> value -> option (list FetchDataInputRewrite) ->
            ResultMap -> completion LoopExit)
    (source : value) (activeRewrites : option (list FetchDataInputRewrite))
    (sels : list QueryPlanSelectionNode) (result : ResultMap) : completion value :=
  match sels with
  | [] => Ok (VObj result)
  | selection :: rest =>
      let* exit := body selection source activeRewrites result in
      match exit with
      | GoOn result' => selectionLoopFrom body source activeRewrites rest result'
      | Return v => Ok v
      end
  end.


(** The number of [Fetch] nodes of a plan. *)
Fixpoint countFetches (node : PlanNode) : nat :=
  match node with
  | Sequence nodes | Parallel nodes => list_sum (map countFetches nodes)
  | Flatten _ child => countFetches child
  | Fetch _ => 1
  | Defer | Condition => 0
  end.

Section plan_induction.
Variable P : PlanNode -> Prop.
Hypothesis HSequence : forall nodes, Forall P nodes -> P (Sequence nodes).
Hypothesis HParallel : forall nodes, Forall P nodes -> P (Parallel nodes).
Hypothesis HFlatten : forall path child, P child -> P (Flatten path child).
Hypothesis HFetch : forall fetch, P (Fetch fetch).
Hypothesis HDefer : P Defer.
Hypothesis HCondition : P Condition.

Fixpoint plan_induction (node : PlanNode) : P node :=
  let all :=
    fix all (nodes : list PlanNode) : Forall P nodes :=
      match nodes with
      | [] => List.Forall_nil P
      | n :: rest => List.Forall_cons P n rest (plan_induction n) (all rest)
      end in
  match node with
  | Sequence nodes => HSequence nodes (all nodes)
  | Parallel nodes => HParallel nodes (all nodes)
  | Flatten path child => HFlatten path child (plan_induction child)
  | Fetch fetch => HFetch fetch
  | Defer => HDefer
  | Condition => HCondition
  end.
End plan_induction.


(** The state [st'] comes from [st] by at most [n] requests, and by
    recording errors after those of [st]. *)
Definition grownBy (n : nat) (st st' : ExecutionState) : Prop :=
  calls st <= calls st' <= calls st + n /\ errors st `prefix_of` errors st'.

(** A representation a subgraph can resolve: an object with a truthy
    [__typename]. *)
Definition viableRepresentation (representation : value) : bool :=
  match representation with
  | VObj o => truthy (getKey o typenameField)
  | _ => false
  end.

(** A request as a fetch may send it: the operation of the fetch and, for
    an entity fetch, a variable [representations] that holds at least one
    representation, all of them viable. *)
Definition viableRequest (fetch : FetchNode) (request : GraphQLRequest) : bool :=
  String.eqb (query request) (operation fetch)
  && match requires fetch with
     | None => true
     | Some _ =>
         match getKey (variables request) "representations" with
         | VArr (r :: rs) => forallb viableRepresentation (r :: rs)
         | _ => false
         end
     end.

(** The field names of a path: its strings other than the placeholder. *)
Definition fieldNames (p : ResponsePath) : list string :=
  omap (fun elem => match elem with
                    | PStr s => if String.eqb s atSign then None else Some s
                    | PNum _ => None
                    end) p.

(** A position of the tree, as a response path. *)
Definition pathOfStep (s : step) : PathElem :=
  match s with
  | SKey k => PStr k
  | SIdx i => PNum (Z.of_nat i)
  end.

Definition pathOfLoc (l : loc) : ResponsePath := map pathOfStep l.

(** Data shaped as a plan path expects: an array exactly where the path
    has the placeholder, an object where it names a field, no array where
    it ends; null and undefined are accepted anywhere. *)
Fixpoint conforms (path : ResponsePath) (data : value) {struct path} : bool :=
  match data with
  | VUndefined | VNull => true
  | _ =>
      match path with
      | [] => negb (isArray data)
      | PStr s :: rest =>
          if String.eqb s atSign then
            match data with
            | VArr es => forallb (conforms rest) es
            | _ => false
            end
          else
            match data with
            | VObj o => conforms rest (getKey o s)
            | _ => false
            end
      | PNum _ :: _ => false
      end
  end.

(** What the callback of [flatMap] in [flattenResultsAtPath] contributes
    for a view: its elements when it is an array, itself otherwise. *)
Definition flatOf (t : value) (r : view) : list loc :=
  match elementsOf t r with
  | Some ls => ls
  | None => match r with One l => [l] | Many ls => ls end
  end.

(** What the comment of [generateHydratedPaths] asks of a hydrated path,
    stated on the path itself: [p] follows the plan path [path] through
    [data] down to a value that is neither null nor undefined, with the
    index of an element of the array wherever the plan path has the
    placeholder or the data has an array, and with the field name of the
    plan path, held by the object, everywhere else. *)
Fixpoint hydrates (p path : ResponsePath) (data : value) {struct p} : bool :=
  match p with
  | [] =>
      match path with
      | [] => isNotNullOrUndefined data
      | _ :: _ => false
      end
  | PNum i :: p' =>
      match data, path with
      | VArr es, PStr s :: rest =>
          (0 <=? i)%Z
          && match es !! Z.to_nat i with
             | Some v =>
                 if String.eqb s atSign then hydrates p' rest v else hydrates p' path v
             | None => false
             end
      | _, _ => false
      end
  | PStr k :: p' =>
      match data, path with
      | VObj o, PStr s :: rest =>
          String.eqb s k && negb (String.eqb s atSign) && hasKey o k
          && hydrates p' rest (getKey o k)
      | _, _ => false
      end
  end.

(** ** Trace timestamps *)

(** [google.protobuf.Timestamp], with its two fields. *)
Record Timestamp : Type := mkTimestamp {
  seconds : Z;
  nanos : Z
}.

(** The largest millisecond count a [Date] holds, and the largest integer
    a number holds exactly.  Within them the arithmetic below is exact and
    is integer arithmetic. *)
Definition maxDateMillis : Z := 8640000000000000.

Definition maxSafeInteger : Z := 9007199254740991.

(** [dateToProtoTimestamp(date)], on the millisecond count [+date].  The
    remainder [%] has the sign of the dividend; the division is exact. *)
Definition dateToProtoTimestamp (totalMillis : Z) : Timestamp :=
  let millis := Z.rem totalMillis 1000 in
  mkTimestamp (Z.quot (totalMillis - millis) 1000) (millis * 1000000).

(** [durationHrTimeToNanos(hrtime)], on a pair [[seconds, nanoseconds]]. *)
Definition durationHrTimeToNanos (hrtime : Z * Z) : Z :=
  fst hrtime * 1000000000 + snd hrtime.

(** ** Scenarios *)

(** The data of the end-to-end scenarios of the specification, and of the
    variations on them used below. *)

Definition emptySchema : GraphQLSchema := mkSchema (fun _ => None) (fun _ _ => false).

(** A post-processing step that ships the unfiltered data as it is. *)
Definition identityResponse : PostProcessor := fun unfiltered => Shaped unfiltered [].

Definition typedUser (id : string) : value :=
  VObj [("__typename", VStr "User"); ("id", VStr id)].

(** A user without its key field. *)
Definition keylessUser : value := VObj [("__typename", VStr "User")].

Definition usersFetch : FetchNode :=
  mkFetchNode "A" None None "{ users { __typename id } }" None None None.

Definition userKey : list QueryPlanSelectionNode :=
  [Field "__typename" None; Field "id" None].

Definition emailFetch : FetchNode :=
  mkFetchNode "B" None (Some userKey) "query($representations:[_Any!]!){_entities(representations:$representations){...on User{email}}}"
    None None None.

Definition usersPath : ResponsePath := [PStr "users"; PStr "@"].

Definition usersPlan : QueryPlan :=
  mkQueryPlan (Some (Sequence [Fetch usersFetch; Flatten usersPath (Fetch emailFetch)])).

(** A data source that always gives the same reply. *)
Definition replying (data : value) (errs : option (list GraphQLFormattedError))
  : GraphQLDataSource :=
  fun _ _ => Ok (mkResponse data errs).

Definition twoServices (a b : GraphQLDataSource) : ServiceMap :=
  fun name =>
    if String.eqb name "A" then Some a
    else if String.eqb name "B" then Some b
    else None.

Definition contextOf (services : ServiceMap) : ExecutionContext :=
  mkContext services None emptySchema.

Definition entitiesReply (es : list value) : value := VObj [("_entities", VArr es)].

Definition emailOf (address : string) : value := VObj [("email", VStr address)].

Definition boom : GraphQLFormattedError :=
  mkFormattedError "boom" (Some [PStr "_entities"; PNum 1; PStr "email"]).

(** Scenario S3: both users are resolved by A, and B reports an error on
    the second entity. *)
Definition contextS3 : ExecutionContext :=
  contextOf (twoServices
    (replying (VObj [("users", VArr [typedUser "1"; typedUser "2"])]) None)
    (replying (entitiesReply [emailOf "a@x"; VNull]) (Some [boom]))).

(** Scenario S4: the second user comes back from A without its key. *)
Definition contextS4 : ExecutionContext :=
  contextOf (twoServices
    (replying (VObj [("users", VArr [typedUser "1"; keylessUser])]) None)
    (replying (entitiesReply [emailOf "a@x"]) None)).




(** The entity fetch of the scenarios, declaring a use of the variable
    [representations]. *)
Definition emailFetchWithVariable : FetchNode :=
  mkFetchNode "B" (Some ["representations"]) (Some userKey) (operation emailFetch)
    None None None.

Definition planWithVariable : QueryPlan :=
  mkQueryPlan (Some (Sequence [Fetch usersFetch;
                               Flatten usersPath (Fetch emailFetchWithVariable)])).

(** A request that supplies a variable named [representations]. *)
Definition supplyingRepresentations (services : ServiceMap) : ExecutionContext :=
  mkContext services (Some [("representations", VArr [])]) emptySchema.

(** The entity fetch of the scenarios, with an output rewrite. *)
Definition emailFetchWithRewrite : FetchNode :=
  mkFetchNode "B" None (Some userKey) (operation emailFetch) None None
    (Some [mkOutputRewrite ["... on User"; "username"] "login"]).

Definition planWithRewrite : QueryPlan :=
  mkQueryPlan (Some (Sequence [Fetch usersFetch;
                               Flatten usersPath (Fetch emailFetchWithRewrite)])).

(** A comes back with a first user without its key and a second user with
    it; B reports an error on the only entity it was asked for. *)
Definition contextFirstDropped : ExecutionContext :=
  contextOf (twoServices
    (replying (VObj [("users", VArr [keylessUser; typedUser "2"])]) None)
    (replying (entitiesReply [VNull])
       (Some [mkFormattedError "boom" (Some [PStr "_entities"; PNum 0; PStr "email"])]))).

(** Scenario S5: the reply of the subgraph, and a rewrite whose path leads
    to the user object. *)
Definition meReply : value :=
  VObj [("me", VObj [("__typename", VStr "User"); ("username", VStr "ada")])].

Definition loginRewrite : FetchDataOutputRewrite :=
  mkOutputRewrite ["me"; "... on User"; "username"] "login".

Definition meFetch (rewrites : list FetchDataOutputRewrite) : FetchNode :=
  mkFetchNode "S" None None "{ me { __typename username } }" None None (Some rewrites).

Definition contextS5 : ExecutionContext :=
  contextOf (fun _ => Some (replying meReply None)).

(** A reply with a list of accounts of two types. *)
Definition accountsReply : value :=
  VObj [("accounts",
         VArr [VObj [("__typename", VStr "User"); ("username", VStr "ada")];
               VObj [("__typename", VStr "Bot"); ("username", VStr "hal")];
               VObj [("__typename", VStr "User"); ("username", VStr "bob")]])].

Definition accountsRewrite : FetchDataOutputRewrite :=
  mkOutputRewrite ["accounts"; "... on User"; "username"] "login".

(** The usual shape of a [requires]: the key under the type condition. *)
Definition userKeyInFragment : list QueryPlanSelectionNode :=
  [InlineFragment (Some "User") [Field "__typename" None; Field "id" None]].

(** The type name outside the fragment, the key inside. *)
Definition userKeySplit : list QueryPlanSelectionNode :=
  [Field "__typename" None; InlineFragment (Some "User") [Field "id" None]].

(** The data of the example in the comment of [generateHydratedPaths]. *)
Definition fooBars : value :=
  VObj [("foo", VArr [VObj [("bar", VArr [VObj []; VObj []])];
                      VObj [("bar", VArr [VObj []; VObj []])]])].

(** B answers with one entity where two representations were sent. *)
Definition contextOneEntity : ExecutionContext :=
  contextOf (twoServices
    (replying (VObj [("users", VArr [typedUser "1"; typedUser "2"])]) None)
    (replying (entitiesReply [emailOf "a@x"]) None)).

(** A schema with an interface [Node] implemented by the object type
    [User], and an object type [Bot]. *)
Definition nodeSchema : GraphQLSchema :=
  mkSchema
    (fun name =>
       if String.eqb name "Node" then Some InterfaceTypeKind
       else if String.eqb name "User" then Some ObjectTypeKind
       else if String.eqb name "Bot" then Some ObjectTypeKind
       else None)
    (fun abstract sub => String.eqb abstract "Node" && String.eqb sub "User").

(** A reply with a list of users whose first element is [null]. *)
Definition usersWithNull : value :=
  VObj [("users", VArr [VNull; VObj [("username", VStr "ada")]])].

Definition usernameRewrite : FetchDataOutputRewrite :=
  mkOutputRewrite ["users"; "username"] "login".

Definition usersFetchWithRewrite : FetchNode :=
  mkFetchNode "A" None None "{ users { username } }" None None (Some [usernameRewrite]).

(** An entity fetch with an output rewrite below a list of friends. *)
Definition emailFetchWithFriends : FetchNode :=
  mkFetchNode "B" None (Some userKey) (operation emailFetch) None None
    (Some [mkOutputRewrite ["... on User"; "friends"; "name"] "fullName"]).

Definition planWithFriends : QueryPlan :=
  mkQueryPlan (Some (Sequence [Fetch usersFetch;
                               Flatten usersPath (Fetch emailFetchWithFriends)])).

(** A comes back with three users; B returns an entity for each, the
    second with a list of friends whose only element is [null]. *)
Definition contextNullFriend : ExecutionContext :=
  contextOf (twoServices
    (replying (VObj [("users", VArr [typedUser "1"; typedUser "2"; typedUser "3"])]) None)
    (replying (entitiesReply [emailOf "a@x"; VObj [("friends", VArr [VNull])];
                              emailOf "c@x"]) None)).


(** ** Properties *)

(** *** The envelope *)

Lemma executeQueryPlan_completed queryPlan context computeResponse st :
  runPlan queryPlan context = (st, Ok tt) ->
  executeQueryPlan queryPlan context computeResponse = Ok (postProcess computeResponse st).
Proof.
  intros Hrun. unfold executeQueryPlan. now rewrite Hrun.
Qed.

Lemma length_zero_nil {A : Type} (l : list A) : Nat.eqb (length l) 0 = true <-> l = [].
Proof.
  destruct l; simpl; split; congruence.
Qed.







(** *** Unsupported plan nodes *)






(** *** The selection-set walker *)

Lemma getKey_noUndefinedElements o k :
  noUndefinedElements (VObj o) = true -> noUndefinedElements (getKey o k) = true.
Proof.
  induction o as [|[k' w] o IH]; simpl; intros H; [reflexivity|].
  apply andb_true_iff in H as [Hw Ho].
  destruct (String.eqb k' k); [exact Hw | now apply IH].
Qed.

Lemma mapM_ok {A B : Type} (f : A -> completion B) (xs : list A) :
  Forall (fun x => exists y, f x = Ok y) xs -> exists ys, mapM f xs = Ok ys.
Proof.
  induction 1 as [|x xs [y Hy] _ [ys Hys]]; simpl.
  - now exists [].
  - rewrite Hy, Hys. simpl. now eexists.
Qed.

Lemma getProp_ok source k :
  isNotNullOrUndefined source = true -> exists w, getProp source k = Ok w.
Proof.
  destruct source; simpl; intros H; try discriminate; now eexists.
Qed.

Lemma getProp_noUndefinedElements source k w :
  noUndefinedElements source = true -> getProp source k = Ok w ->
  noUndefinedElements w = true.
Proof.
  destruct source; simpl; intros H E; try (inversion E; subst; reflexivity); try discriminate.
  inversion E; subst. now apply getKey_noUndefinedElements.
Qed.

(** The loop of [executeSelectionSet] on an object or a primitive: it
    completes when its body does on every selection. *)
Lemma selectionLoop_ok (body : QueryPlanSelectionNode -> value ->
                               option (list FetchDataInputRewrite) -> ResultMap ->
                               completion LoopExit) source selections rewrites :
  Forall (fun s => forall result, exists exit, body s source rewrites result = Ok exit)
         selections ->
  exists v, selectionLoop body source selections rewrites = Ok v.
Proof.
  intros Hall. unfold selectionLoop.
  assert (Hloop : forall result, exists v,
             (fix loop (sels : list QueryPlanSelectionNode) (result : ResultMap)
                : completion value :=
                match sels with
                | [] => Ok (VObj result)
                | selection :: rest =>
                    let* exit := body selection source rewrites result in
                    match exit with
                    | GoOn result' => loop rest result'
                    | Return v => Ok v
                    end
                end) selections result = Ok v).
  { induction Hall as [|s sels Hs _ IH]; intros result.
    - now eexists.
    - destruct (Hs result) as [exit Hexit]. rewrite Hexit. simpl.
      destruct exit as [result'|v]; [apply IH | now eexists]. }
  destruct source; try apply Hloop. now eexists.
Qed.

(** On a value without undefined array elements that is not itself null
    or undefined, the body of the loop never throws. *)
Lemma executeSelection_ok schema selection :
  forall source rewrites result,
    noUndefinedElements source = true ->
    isNotNullOrUndefined source = true ->
    exists exit, executeSelection schema selection source rewrites result = Ok exit.
Proof.
  induction selection as [responseName selections IH | typeCondition selections IH]
    using selection_induction; intros source rewrites result Hwf Hsrc.
  - assert (Hsub : forall v rw, noUndefinedElements v = true -> isDefined v = true ->
               exists r, selectionLoop (executeSelection schema) v
                           (subSelections selections) rw = Ok r).
    { intros v rw Hv Hdef. destruct v; try discriminate;
        try (apply selectionLoop_ok; eapply Forall_impl; [exact IH|];
             intros sel Hsel res; apply Hsel; [exact Hv | reflexivity]).
      now eexists. }
    simpl. destruct (getProp_ok source responseName Hsrc) as [sv Hsv]. rewrite Hsv. simpl.
    pose proof (getProp_noUndefinedElements _ _ _ Hwf Hsv) as Hsvwf.
    destruct (isDefined sv) eqn:Hdef; simpl; [|now eexists].
    destruct (isDefined (completeRewriteIn _)); [now eexists|].
    destruct selections as [sels|]; simpl in Hsub.
    + destruct sv; try (destruct (Hsub _ (updatedOf (updateRewrites rewrites responseName))
                                      Hsvwf Hdef) as [r Hr];
                        rewrite Hr; now eexists).
      destruct (mapM_ok (fun v => selectionLoop (executeSelection schema) v sels
                           (updatedOf (updateRewrites rewrites responseName))) elems)
        as [ys Hys].
      { simpl in Hsvwf. apply Forall_forall. intros v Hv.
        rewrite forallb_forall in Hsvwf. apply list_elem_of_In, Hsvwf in Hv.
        apply andb_true_iff in Hv as [Hd Hw]. now apply Hsub. }
      rewrite Hys. now eexists.
    + destruct sv; try now eexists.
      destruct (mapM_ok (fun v : value => Ok v) elems) as [ys Hys].
      { apply Forall_forall. intros; now eexists. }
      rewrite Hys. now eexists.
  - simpl. destruct typeCondition as [cond|]; [|now eexists].
    destruct (truthy source) eqn:Htruthy.
    + destruct (getProp_ok source typenameField Hsrc) as [tn Htn]. rewrite Htn. simpl.
      destruct (truthy tn); simpl; [|now eexists].
      destruct (doesTypeConditionMatch schema cond tn); [|now eexists].
      destruct (selectionLoop_ok (executeSelection schema) source selections
                  (updatedOf match rewrites with
                             | Some _ => updateRewrites rewrites (fragmentPrefix +:+ cond)
                             | None => None
                             end)) as [sub Hsub].
      { eapply Forall_impl; [exact IH|]. intros s Hs res. apply Hs; assumption. }
      rewrite Hsub. simpl. destruct (deepMerge (VObj result) sub); now eexists.
    + simpl. rewrite Htruthy. simpl. now eexists.
Qed.

(** The only value the loop body ever returns early is [null]. *)
Lemma executeSelection_return schema selection source rewrites result v :
  executeSelection schema selection source rewrites result = Ok (Return v) -> v = VNull.
Proof.
  destruct selection as [responseName selections | typeCondition selections]; simpl;
    unfold bind; intros H;
    repeat match type of H with
           | context [match ?x with _ => _ end] => destruct x; try discriminate
           end;
    now inversion H.
Qed.

Lemma selectionLoop_from body source selections rewrites :
  source <> VNull ->
  selectionLoop body source selections rewrites
  = selectionLoopFrom body source rewrites selections [].
Proof.
  intros Hsource. unfold selectionLoop.
  assert (Hloop : forall result,
             (fix loop (sels : list QueryPlanSelectionNode) (result : ResultMap)
                : completion value :=
                match sels with
                | [] => Ok (VObj result)
                | selection :: rest =>
                    let* exit := body selection source rewrites result in
                    match exit with
                    | GoOn result' => loop rest result'
                    | Return v => Ok v
                    end
                end) selections result
             = selectionLoopFrom body source rewrites selections result).
  { induction selections as [|s sels IH]; intros result; simpl; [reflexivity|].
    unfold bind. destruct (body s source rewrites result) as [[result'|w]|];
      [apply IH | reflexivity | reflexivity]. }
  destruct source; try apply Hloop. congruence.
Qed.

Lemma selectionLoopFrom_skip body source rewrites skipped before after :
  (forall result, body skipped source rewrites result = Ok (GoOn result)) ->
  forall result,
    selectionLoopFrom body source rewrites (before ++ skipped :: after) result
    = selectionLoopFrom body source rewrites (before ++ after) result.
Proof.
  intros Hskip. induction before as [|s before IH]; intros result; simpl.
  - now rewrite Hskip.
  - unfold bind. destruct (body s source rewrites result) as [[result'|w]|];
      [apply IH | reflexivity | reflexivity].
Qed.

(** A field that is selected directly and that the source lacks makes the
    call return [null], whatever the rewrites. *)
Lemma missing_field_gives_null schema o selections responseName subs activeRewrites :
  noUndefinedElements (VObj o) = true ->
  In (Field responseName subs) selections ->
  getKey o responseName = VUndefined ->
  executeSelectionSet schema (VObj o) selections activeRewrites = Ok VNull.
Proof.
  intros Hwf Hin Hmissing. unfold executeSelectionSet, selectionLoop.
  generalize (@nil (string * value)) as result.
  induction selections as [|selection rest IH]; intros result; [destruct Hin|].
  destruct Hin as [-> | Hin].
  - simpl. rewrite Hmissing. reflexivity.
  - destruct (executeSelection_ok schema selection (VObj o) activeRewrites result Hwf eq_refl)
      as [exit Hexit].
    rewrite Hexit. simpl. destruct exit as [result'|v].
    + now apply IH.
    + now rewrite (executeSelection_return _ _ _ _ _ _ Hexit).
Qed.

(** C10, as the code has it: a field that the selection list of a call
    of [executeSelectionSet] selects directly and whose response name is
    undefined in the source object makes that call return [null],
    whatever the active input rewrites are, a rewrite with the path
    [[responseName]] and a replacement value included; when the call is
    the one made on an entity, the entity yields no representation.  The
    [null] of a nested call does not end the enclosing call.  When the
    selection list is that of an inline fragment, the fragment adds
    nothing and the enclosing selection set gives what it gives without
    the fragment; when it is the sub-selection of a parent field, the
    parent holds [null] in the result. *)
Theorem missing_field_returns_null schema fetch o selections responseName subs :
  noUndefinedElements (VObj o) = true ->
  In (Field responseName subs) selections ->
  getKey o responseName = VUndefined ->
  (forall activeRewrites,
     executeSelectionSet schema (VObj o) selections activeRewrites = Ok VNull)
  /\ (forall index,
        buildRepresentations schema fetch selections [VObj o] index = Ok ([], []))
  /\ (forall typeCondition before after activeRewrites,
        executeSelectionSet schema (VObj o)
          (before ++ InlineFragment typeCondition selections :: after) activeRewrites
        = executeSelectionSet schema (VObj o) (before ++ after) activeRewrites)
  /\ (forall holder parent after activeRewrites,
        getKey holder parent = VObj o ->
        isDefined (completeRewriteIn (updateRewrites activeRewrites parent)) = false ->
        executeSelectionSet schema (VObj holder)
          (Field parent (Some selections) :: after) activeRewrites
        = selectionLoopFrom (executeSelection schema) (VObj holder) activeRewrites after
            [(parent, VNull)]).
Proof.
  intros Hwf Hin Hmissing.
  assert (Hnull : forall activeRewrites,
             executeSelectionSet schema (VObj o) selections activeRewrites = Ok VNull).
  { intros activeRewrites. now apply (missing_field_gives_null _ _ _ responseName subs). }
  split; [exact Hnull|]. split; [|split].
  - intros index. cbn [buildRepresentations]. rewrite Hnull. reflexivity.
  - intros typeCondition before after activeRewrites. unfold executeSelectionSet.
    rewrite !selectionLoop_from by discriminate.
    apply selectionLoopFrom_skip. intros result. cbn [executeSelection].
    destruct typeCondition as [cond|]; [|reflexivity].
    cbn [truthy getProp bind].
    destruct (negb (truthy (getKey o typenameField))); [reflexivity|].
    destruct (doesTypeConditionMatch schema cond (getKey o typenameField)); [|reflexivity].
    fold (executeSelectionSet schema (VObj o) selections
            (updatedOf match activeRewrites with
                       | Some _ => updateRewrites activeRewrites (fragmentPrefix +:+ cond)
                       | None => None
                       end)).
    rewrite Hnull. reflexivity.
  - intros holder parent after activeRewrites Hparent Hrewrite. unfold executeSelectionSet.
    rewrite selectionLoop_from by discriminate.
    cbn [selectionLoopFrom executeSelection getProp bind]. rewrite Hparent.
    cbn [isDefined negb]. rewrite Hrewrite.
    fold (executeSelectionSet schema (VObj o) selections
            (updatedOf (updateRewrites activeRewrites parent))).
    rewrite Hnull. reflexivity.
Qed.

Lemma missing_field_returns_null_witness :
  let rewrites := Some [mkInputRewrite ["id"] (VStr "42")] in
  noUndefinedElements keylessUser = true
  /\ In (Field "id" None) userKey
  /\ getKey [("__typename", VStr "User")] "id" = VUndefined
  /\ executeSelectionSet emptySchema keylessUser userKey rewrites = Ok VNull
  /\ executeSelectionSet emptySchema keylessUser
       [Field "__typename" None; InlineFragment (Some "User") userKey] rewrites
     = executeSelectionSet emptySchema keylessUser [Field "__typename" None] rewrites.
Proof.
  intros rewrites.
  split; [reflexivity|]. split; [right; left; reflexivity|]. split; [reflexivity|].
  destruct (missing_field_returns_null emptySchema emailFetch
              [("__typename", VStr "User")] userKey "id" None
              eq_refl (or_intror (or_introl eq_refl)) eq_refl)
    as (Hnull & _ & Hfragment & _).
  split; [exact (Hnull rewrites)|].
  exact (Hfragment (Some "User") [Field "__typename" None] [] rewrites).
Defined.

(** C10 fails as stated: the key [id] is selected, under a fragment, and
    the source lacks it; the function returns the object with the type
    name, and the entity is sent to the subgraph without its key. *)
Lemma missing_key_under_fragment_is_sent :
  executeSelectionSet emptySchema keylessUser userKeySplit None = Ok keylessUser
  /\ buildRepresentations emptySchema emailFetch userKeySplit [keylessUser] 0
     = Ok ([keylessUser], [0]).
Proof. split; reflexivity. Qed.

(** The same rewrite does replace the field when the source has it. *)
Example complete_rewrite_on_present_field :
  executeSelectionSet emptySchema (typedUser "1") userKey
    (Some [mkInputRewrite ["id"] (VStr "42")])
  = Ok (VObj [("__typename", VStr "User"); ("id", VStr "42")]).
Proof. reflexivity. Qed.

(** A field that is missing under an inline fragment makes the call on
    the selections of the fragment return [null]; the enclosing call goes
    on.  With the type name under the same fragment the entity has no
    [__typename] left and is dropped; with the type name selected outside
    the fragment the entity is sent without its key. *)
Example missing_field_under_fragment :
  buildRepresentations emptySchema emailFetch userKeyInFragment [keylessUser] 0 = Ok ([], [])
  /\ buildRepresentations emptySchema emailFetch userKeySplit [keylessUser] 0
     = Ok ([keylessUser], [0]).
Proof. split; reflexivity. Qed.

(** *** The merge loop of an entity fetch *)

Lemma loopOver_app {A B : Type} (body : A -> B -> completion A) a xs ys :
  loopOver body a (xs ++ ys)
  = match loopOver body a xs with
    | (a', Ok _) => loopOver body a' ys
    | (a', Throw e) => (a', Throw e)
    end.
Proof.
  revert a. induction xs as [|x xs IH]; intros a; simpl; [reflexivity|].
  destruct (body a x); [apply IH | reflexivity].
Qed.

(** The indices recorded by [buildRepresentations] are indices of
    entities, in increasing order, one per representation. *)
Lemma buildRepresentations_indices schema fetch sels entities index representations rte :
  buildRepresentations schema fetch sels entities index = Ok (representations, rte) ->
  length representations = length rte
  /\ rte `sublist_of` seq index (length entities).
Proof.
  revert index representations rte.
  induction entities as [|entity rest IH]; intros index representations rte; simpl.
  - intros H. inversion H; subst. split; [reflexivity | constructor].
  - unfold bind.
    destruct (executeSelectionSet schema entity sels (inputRewrites fetch)) as [rep|];
      [|discriminate].
    destruct (if truthy rep then _ else _) as [keep|]; [|discriminate].
    destruct (buildRepresentations schema fetch sels rest (S index)) as [[reps' rte']|] eqn:E;
      [|discriminate].
    destruct (IH _ _ _ E) as [Hlen Hsub].
    destruct keep; intros H; inversion H; subst; simpl.
    + split; [now rewrite Hlen | now constructor].
    + split; [exact Hlen | now constructor].
Qed.

Lemma buildRepresentations_NoDup schema fetch sels entities representations rte :
  buildRepresentations schema fetch sels entities 0 = Ok (representations, rte) ->
  NoDup rte /\ (forall i index, rte !! i = Some index -> index < length entities).
Proof.
  intros H. destruct (buildRepresentations_indices _ _ _ _ _ _ _ H) as [_ Hsub]. split.
  - eapply sublist_NoDup; [apply NoDup_seq | exact Hsub].
  - intros i index Hi.
    assert (Hin : index ∈ seq 0 (length entities)).
    { eapply elem_of_sublist; [|exact Hsub]. eapply list_elem_of_lookup_2, Hi. }
    apply elem_of_seq in Hin. lia.
Qed.

Section merge_loop.
Variable rewrites : option (list FetchDataOutputRewrite).
Variables representations receivedEntities entities : list value.
Variable representationToEntity : list nat.
Hypothesis Hnodup : NoDup representationToEntity.
Hypothesis Hbound :
  forall i index, representationToEntity !! i = Some index -> index < length entities.
Hypothesis Hlength : length receivedEntities = length representationToEntity.
Hypothesis Hfewer : length representationToEntity <= length entities.
Hypothesis Hrewritten :
  forall i, i < length receivedEntities ->
    exists source, rewrittenEntity rewrites representations receivedEntities i = Ok source.

Local Abbreviation body :=
  (mergeEntity rewrites representations representationToEntity receivedEntities).

(** The array after the rounds [0 .. k-1], for [k] within the received
    entities: every round completed, each merged its entity, and nothing
    else changed. *)
Lemma merge_rounds k :
  k <= length receivedEntities ->
  exists es,
    loopOver body entities (seq 0 k) = (es, Ok tt)
    /\ length es = length entities
    /\ (forall i index source target,
          i < k -> representationToEntity !! i = Some index ->
          rewrittenEntity rewrites representations receivedEntities i = Ok source ->
          entities !! index = Some target ->
          es !! index = Some (deepMerge target source))
    /\ (forall index,
          (forall i, i < k -> representationToEntity !! i <> Some index) ->
          es !! index = entities !! index).
Proof.
  induction k as [|k IH]; intros Hk.
  - exists entities. split; [reflexivity|]. split; [reflexivity|].
    split; [intros; lia | reflexivity].
  - destruct IH as (es & Hloop & Hlen & Hmerged & Hkept); [lia|].
    destruct (Hrewritten k) as [source Hsource]; [lia|].
    destruct (lookup_lt_is_Some_2 representationToEntity k) as [index Hindex]; [lia|].
    destruct (lookup_lt_is_Some_2 entities index) as [target Htarget];
      [now apply (Hbound k)|].
    assert (Hfresh : forall i, i < k -> representationToEntity !! i <> Some index).
    { intros i Hi Heq. pose proof (NoDup_lookup _ _ _ _ Hnodup Heq Hindex). lia. }
    exists (<[index := deepMerge target source]> es).
    split; [|split; [|split]].
    + rewrite seq_S, loopOver_app, Hloop. simpl.
      unfold body, mergeEntity. rewrite Hsource. simpl. rewrite Hindex.
      rewrite (Hkept index Hfresh), Htarget. reflexivity.
    + now rewrite length_insert.
    + intros i index' source' target' Hi Hindex' Hsource' Htarget'.
      destruct (decide (i = k)) as [->|Hne].
      * rewrite Hindex in Hindex'. rewrite Hsource in Hsource'.
        inversion Hindex'; inversion Hsource'; subst.
        rewrite Htarget in Htarget'. inversion Htarget'; subst.
        apply list_lookup_insert_eq. rewrite Hlen. now apply (Hbound k).
      * assert (index <> index').
        { intros <-. apply (Hfresh i); [lia | exact Hindex']. }
        rewrite list_lookup_insert_ne by assumption.
        apply (Hmerged i index' source' target'); [lia | assumption..].
    + intros index' Hnot.
      assert (index <> index').
      { intros <-. apply (Hnot k); [lia | exact Hindex]. }
      rewrite list_lookup_insert_ne by assumption.
      apply Hkept. intros i Hi. apply Hnot. lia.
Qed.

(** The rounds past the received entities have no target: they leave the
    array as it is, whether they complete or throw. *)
Lemma merge_rounds_beyond es (indices : list nat) :
  Forall (fun i => length receivedEntities <= i) indices ->
  (loopOver body es indices).1 = es.
Proof.
  induction 1 as [|i indices Hi _ IH]; simpl; [reflexivity|].
  unfold body at 1, mergeEntity.
  destruct (rewrittenEntity rewrites representations receivedEntities i); simpl;
    [|reflexivity].
  rewrite (lookup_ge_None_2 representationToEntity i) by lia.
  exact IH.
Qed.

Lemma merge_all :
  exists es,
    (mergeEntities rewrites representations representationToEntity receivedEntities
       entities).1 = es
    /\ length es = length entities
    /\ (forall i index source target,
          i < length receivedEntities -> representationToEntity !! i = Some index ->
          rewrittenEntity rewrites representations receivedEntities i = Ok source ->
          entities !! index = Some target ->
          es !! index = Some (deepMerge target source))
    /\ (forall index, index ∉ representationToEntity -> es !! index = entities !! index).
Proof.
  destruct (merge_rounds (length receivedEntities)) as (es & Hloop & Hlen & Hmerged & Hkept);
    [lia|].
  exists es. split; [|split; [exact Hlen | split; [exact Hmerged|]]].
  - unfold mergeEntities.
    replace (length entities)
      with (length receivedEntities + (length entities - length receivedEntities)) by lia.
    rewrite seq_app, loopOver_app. fold body. rewrite Hloop.
    apply merge_rounds_beyond. apply Forall_forall. intros i Hi.
    apply elem_of_seq in Hi. lia.
  - intros index Hnot. apply Hkept. intros i _ Hi.
    apply Hnot. eapply list_elem_of_lookup_2, Hi.
Qed.
End merge_loop.

(** The merge loop on the array of entities, when the rewriting of every
    received entity completes: for every index [i] of the received
    entities, the entity [representationToEntity[i]] ends deep-merged with
    the [i]-th received entity as rewritten for the type of the [i]-th
    representation, and every entity no representation was built for is
    as it was. *)
Theorem received_entities_merge_into_their_sources schema fetch sels entities
    representations representationToEntity receivedEntities :
  buildRepresentations schema fetch sels entities 0
  = Ok (representations, representationToEntity) ->
  length receivedEntities = length representations ->
  (forall i, i < length receivedEntities ->
     exists source,
       rewrittenEntity (outputRewrites fetch) representations receivedEntities i
       = Ok source) ->
  let entities' :=
    (mergeEntities (outputRewrites fetch) representations representationToEntity
       receivedEntities entities).1 in
  length entities' = length entities
  /\ (forall i source,
        i < length receivedEntities ->
        rewrittenEntity (outputRewrites fetch) representations receivedEntities i
        = Ok source ->
        exists index target,
          representationToEntity !! i = Some index
          /\ entities !! index = Some target
          /\ entities' !! index = Some (deepMerge target source))
  /\ (forall index,
        index ∉ representationToEntity -> entities' !! index = entities !! index).
Proof.
  intros Hbuilt Hlength Hrewritten entities'.
  destruct (buildRepresentations_indices _ _ _ _ _ _ _ Hbuilt) as [Hsame Hsub].
  destruct (buildRepresentations_NoDup _ _ _ _ _ _ Hbuilt) as [Hnodup Hbound].
  assert (Hfewer : length representationToEntity <= length entities).
  { apply sublist_length in Hsub. now rewrite length_seq in Hsub. }
  destruct (merge_all (outputRewrites fetch) representations receivedEntities entities
              representationToEntity Hnodup Hbound ltac:(lia) Hfewer Hrewritten)
    as (es & Hes & Hlen & Hmerged & Hkept).
  subst entities'. rewrite Hes.
  split; [exact Hlen|]. split; [|exact Hkept].
  intros i source Hi Hsource.
  destruct (lookup_lt_is_Some_2 representationToEntity i) as [index Hindex]; [lia|].
  destruct (lookup_lt_is_Some_2 entities index) as [target Htarget];
    [now apply (Hbound i)|].
  exists index, target. split; [exact Hindex|]. split; [exact Htarget|].
  now apply (Hmerged i index source target).
Qed.

Lemma received_entities_merge_into_their_sources_witness :
  let entities := [typedUser "1"; keylessUser] in
  let received := [emailOf "a@x"] in
  let entities' := (mergeEntities None [typedUser "1"] [0] received entities).1 in
  buildRepresentations emptySchema emailFetch userKey entities 0 = Ok ([typedUser "1"], [0])
  /\ entities' !! 0
     = Some (VObj [("__typename", VStr "User"); ("id", VStr "1"); ("email", VStr "a@x")])
  /\ entities' !! 1 = Some keylessUser.
Proof.
  intros entities received entities'.
  assert (Hbuilt : buildRepresentations emptySchema emailFetch userKey entities 0
                   = Ok ([typedUser "1"], [0])) by reflexivity.
  assert (Hrewritten : forall i, i < length received ->
            exists source, rewrittenEntity (outputRewrites emailFetch) [typedUser "1"]
                             received i = Ok source).
  { intros i Hi. destruct i; [now eexists | simpl in Hi; lia]. }
  destruct (received_entities_merge_into_their_sources emptySchema emailFetch userKey
              entities [typedUser "1"] [0] received Hbuilt eq_refl Hrewritten)
    as (_ & Hmerged & Hkept).
  split; [exact Hbuilt|]. split.
  - destruct (Hmerged 0 (emailOf "a@x") ltac:(simpl; lia) eq_refl)
      as (index & target & Hindex & Htarget & Hresult).
    inversion Hindex; subst index. inversion Htarget; subst target. exact Hresult.
  - apply (Hkept 1). intros Hin. apply list_elem_of_singleton in Hin. discriminate.
Defined.

(** Scenario S4 through the whole executor: B is sent one representation,
    its entity is merged into the first user, the second is as A left it. *)
Example missing_input_drops_entity :
  executeQueryPlan usersPlan contextS4 identityResponse
  = Ok (mkResult
          (VObj [("users",
                  VArr [VObj [("__typename", VStr "User"); ("id", VStr "1");
                              ("email", VStr "a@x")];
                        keylessUser])])
          None).
Proof. vm_compute. reflexivity. Qed.

(** C1, on the code: B is sent the three users and returns three
    entities, the second with a list of friends whose only element is
    [null].  The first entity is merged into the first user.  The rewriting
    of the second reads a property of [null] and throws; the loop ends
    there, the exception is recorded, and the third entity, which was
    returned for the third user, is not merged. *)
Theorem null_element_stops_the_merge_loop :
  buildRepresentations emptySchema emailFetchWithFriends userKey
    [typedUser "1"; typedUser "2"; typedUser "3"] 0
  = Ok ([typedUser "1"; typedUser "2"; typedUser "3"], [0; 1; 2])
  /\ rewrittenEntity (outputRewrites emailFetchWithFriends)
       [typedUser "1"; typedUser "2"; typedUser "3"]
       [emailOf "a@x"; VObj [("friends", VArr [VNull])]; emailOf "c@x"] 2
     = Ok (emailOf "c@x")
  /\ executeQueryPlan planWithFriends contextNullFriend identityResponse
     = Ok (mkResult
             (VObj [("users",
                     VArr [VObj [("__typename", VStr "User"); ("id", VStr "1");
                                 ("email", VStr "a@x")];
                           typedUser "2";
                           typedUser "3"])])
             (Some [ExTypeError "Cannot read properties of null (reading 'name')"])).
Proof. repeat split; vm_compute; reflexivity. Qed.

(** *** The checks of an entity fetch *)

Lemma sendOperation_fullResult service fetch cursor vars st :
  fullResult (sendOperation service fetch cursor vars st).1 = fullResult st.
Proof.
  unfold sendOperation.
  destruct (service _ _) as [response|]; [|reflexivity].
  destruct (responseErrors response); [|reflexivity].
  destruct (mapM _ _); reflexivity.
Qed.


Lemma length_lt_1 {A : Type} (l : list A) : l <> [] -> Nat.ltb (length l) 1 = false.
Proof.
  destruct l; [congruence | reflexivity].
Qed.

Lemma buildRepresentations_nil schema fetch sels index :
  buildRepresentations schema fetch sels [] index = Ok ([], []).
Proof. reflexivity. Qed.

Section entity_fetch.
Variable context : ExecutionContext.
Variable fetch : FetchNode.
Variable cursor : ResultCursor.
Variable st : ExecutionState.
Variable service : GraphQLDataSource.
Variable sels : list QueryPlanSelectionNode.
Variables representations : list value.
Variable representationToEntity : list nat.

Local Abbreviation entities :=
  (map (deref (fullResult st)) (collectEntities (fullResult st) cursor)).
Local Abbreviation vars := (collectVariables fetch (requestVariables context)).

Hypothesis Hservice : serviceMap context (fetchServiceName fetch) = Some service.
Hypothesis Hrequires : requires fetch = Some sels.
Hypothesis Hbuilt :
  buildRepresentations (supergraphSchema context) fetch sels entities 0
  = Ok (representations, representationToEntity).
Hypothesis Hsome : representations <> [].

Lemma entities_not_empty : Nat.ltb (length entities) 1 = false.
Proof.
  apply length_lt_1. intros Hnil. rewrite Hnil in Hbuilt.
  rewrite buildRepresentations_nil in Hbuilt. inversion Hbuilt. congruence.
Qed.

(** The fetch up to the test on the variables. *)
Lemma executeFetch_with_representations :
  executeFetch context fetch cursor st
  = if hasKey vars "representations" then (st, Throw (ExError forbiddenVariableMessage))
    else
      let '(st1, sent) :=
        sendOperation service fetch cursor
          (setKey vars "representations" (VArr representations)) st in
      match sent with
      | Throw e => (st1, Throw e)
      | Ok dataReceivedFromService =>
          if negb (truthy dataReceivedFromService) then (st1, Ok tt)
          else
            match getProp dataReceivedFromService "_entities" with
            | Ok (VArr receivedEntities) =>
                if negb (Nat.eqb (length receivedEntities) (length representations))
                then (st1, Throw (ExError (entityCountMessage (length representations))))
                else
                  let '(entities', outcome) :=
                    mergeEntities (outputRewrites fetch) representations
                      representationToEntity receivedEntities entities in
                  (withTree st1
                     (storeEntities (fullResult st1) (collectEntities (fullResult st) cursor)
                        entities'),
                   outcome)
            | _ => (st1, Throw (ExError expectedEntitiesMessage))
            end
      end.
Proof.
  unfold executeFetch. rewrite Hservice.
  fold entities. rewrite entities_not_empty. rewrite Hrequires.
  rewrite Hbuilt. rewrite (length_lt_1 _ Hsome). reflexivity.
Qed.
End entity_fetch.



(** A reply [{ data: null, errors: [...] }] to an entity fetch: the fetch
    adds no error of its own, and the error of the reply is recorded. *)
Example null_data_with_errors :
  executeQueryPlan usersPlan
    (contextOf (twoServices
       (replying (VObj [("users", VArr [typedUser "1"; typedUser "2"])]) None)
       (replying VNull (Some [mkFormattedError "down" None]))))
    identityResponse
  = Ok (mkResult (VObj [("users", VArr [typedUser "1"; typedUser "2"])])
          (Some [ExGraphQLError (mkGraphQLError "down" None (Some "B"))])).
Proof. vm_compute. reflexivity. Qed.


(** Two representations sent, one entity received: the count error is
    recorded and nothing is merged. *)
Example entity_count_mismatch :
  executeQueryPlan usersPlan contextOneEntity identityResponse
  = Ok (mkResult (VObj [("users", VArr [typedUser "1"; typedUser "2"])])
          (Some [ExError (entityCountMessage 2)])).
Proof. vm_compute. reflexivity. Qed.

(** *** The variable [representations] *)

Lemma hasKey_setKey_same o k v : hasKey (setKey o k v) k = true.
Proof.
  induction o as [|[k' w] o IH]; simpl.
  - now rewrite String.eqb_refl.
  - destruct (String.eqb k' k) eqn:E; simpl; rewrite E; [reflexivity | exact IH].
Qed.

Lemma hasKey_setKey_kept o k k' v : hasKey o k = true -> hasKey (setKey o k' v) k = true.
Proof.
  induction o as [|[k0 w] o IH]; simpl; [discriminate|].
  destruct (String.eqb k0 k') eqn:E'; simpl; destruct (String.eqb k0 k); auto.
Qed.

(** A declared usage that the request provides is among the outgoing
    variables. *)
Lemma collectVariables_provided fetch usages provided name :
  variableUsages fetch = Some usages ->
  In name usages ->
  isDefined (getKey provided name) = true ->
  hasKey (collectVariables fetch (Some provided)) name = true.
Proof.
  intros Husages Hin Hdefined. unfold collectVariables. rewrite Husages.
  generalize (@nil (string * value)) as acc.
  assert (Hkept : forall us acc,
             hasKey acc name = true ->
             hasKey (fold_left (fun vars variableName =>
                                  if isDefined (getKey provided variableName)
                                  then setKey vars variableName (getKey provided variableName)
                                  else vars) us acc) name = true).
  { induction us as [|u us IH]; intros acc Hacc; simpl; [exact Hacc|].
    apply IH. destruct (isDefined (getKey provided u)); [|exact Hacc].
    now apply hasKey_setKey_kept. }
  clear Husages.
  induction usages as [|u usages IH]; intros acc; [destruct Hin|].
  simpl. destruct Hin as [-> | Hin].
  - apply Hkept. rewrite Hdefined. apply hasKey_setKey_same.
  - apply (IH Hin).
Qed.

(** C7, as the code has it: for an entity fetch whose service is known,
    with [representations] among its declared variable usages and provided
    by the request, what happens depends on the representations built.
    With at least one, the fetch fails with the forbidden-variable error;
    the error is recorded and no operation is sent to the subgraph.  With
    none, because the cursor holds no entity or because no entity yields a
    representation, the fetch returns before the check: nothing is
    recorded and nothing is sent. *)
Theorem representations_variable_is_forbidden context fetch cursor st service sels
    representations representationToEntity usages provided :
  serviceMap context (fetchServiceName fetch) = Some service ->
  requires fetch = Some sels ->
  buildRepresentations (supergraphSchema context) fetch sels
    (map (deref (fullResult st)) (collectEntities (fullResult st) cursor)) 0
  = Ok (representations, representationToEntity) ->
  variableUsages fetch = Some usages ->
  In "representations" usages ->
  requestVariables context = Some provided ->
  isDefined (getKey provided "representations") = true ->
  (representations <> [] ->
   executeFetch context fetch cursor st = (st, Throw (ExError forbiddenVariableMessage))
   /\ executeNode context (Fetch fetch) (Some cursor) st
      = (pushError st (ExError forbiddenVariableMessage), Ok tt)
   /\ calls (executeNode context (Fetch fetch) (Some cursor) st).1 = calls st)
  /\ (representations = [] ->
      executeNode context (Fetch fetch) (Some cursor) st = (st, Ok tt)).
Proof.
  intros Hservice Hrequires Hbuilt Husages Hin Hprovided Hdefined. split.
  - intros Hsome.
    assert (Hfetch : executeFetch context fetch cursor st
                     = (st, Throw (ExError forbiddenVariableMessage))).
    { rewrite (executeFetch_with_representations context fetch cursor st service sels
                 representations representationToEntity Hservice Hrequires Hbuilt Hsome).
      rewrite Hprovided.
      now rewrite (collectVariables_provided fetch usages provided "representations"). }
    split; [exact Hfetch|]. simpl. rewrite Hfetch. split; reflexivity.
  - intros ->. cbn [executeNode]. unfold executeFetch. rewrite Hservice.
    destruct (Nat.ltb _ 1); [reflexivity|].
    now rewrite Hrequires, Hbuilt.
Qed.

Lemma representations_variable_is_forbidden_witness :
  let context :=
    supplyingRepresentations (twoServices
      (replying (VObj [("users", VArr [typedUser "1"; typedUser "2"])]) None)
      (replying (entitiesReply [emailOf "a@x"; emailOf "b@x"]) None)) in
  let st := (executeNode context (Fetch usersFetch) (Some rootCursor) initialState).1 in
  let cursor := mkCursor usersPath (Many [[SKey "users"; SIdx 0]; [SKey "users"; SIdx 1]]) in
  moveIntoCursor (fullResult st) rootCursor usersPath = Ok (Some cursor)
  /\ executeNode context (Fetch emailFetchWithVariable) (Some cursor) st
     = (pushError st (ExError forbiddenVariableMessage), Ok tt)
  /\ calls st = 1.
Proof.
  intros context st cursor.
  split; [vm_compute; reflexivity|].
  destruct (proj1 (representations_variable_is_forbidden context emailFetchWithVariable
                     cursor st
                     (replying (entitiesReply [emailOf "a@x"; emailOf "b@x"]) None) userKey
                     [typedUser "1"; typedUser "2"] [0; 1] ["representations"]
                     [("representations", VArr [])]
                     eq_refl eq_refl eq_refl eq_refl (or_introl eq_refl) eq_refl eq_refl)
                  ltac:(discriminate))
    as (_ & Hnode & _).
  split; [exact Hnode | reflexivity].
Defined.

(** C7 fails as stated: the request provides [representations] and the
    fetch declares it, but the only user lacks its key, so that no
    representation is built: the fetch ends without any error. *)
Lemma unused_representations_variable_is_accepted :
  executeQueryPlan planWithVariable
    (supplyingRepresentations (twoServices
       (replying (VObj [("users", VArr [keylessUser])]) None)
       (replying (entitiesReply []) None)))
    identityResponse
  = Ok (mkResult (VObj [("users", VArr [keylessUser])]) None).
Proof. vm_compute. reflexivity. Qed.

(** *** Representations *)

(** Every representation that is built is truthy and has a truthy
    [__typename]. *)
Lemma representations_are_viable schema fetch sels entities index representations rte :
  buildRepresentations schema fetch sels entities index = Ok (representations, rte) ->
  Forall (fun representation =>
            truthy representation = true
            /\ exists tn, getProp representation typenameField = Ok tn /\ truthy tn = true)
         representations.
Proof.
  revert index representations rte.
  induction entities as [|entity rest IH]; intros index representations rte; simpl.
  - intros H. inversion H. constructor.
  - unfold bind.
    destruct (executeSelectionSet schema entity sels (inputRewrites fetch)) as [rep|];
      [|discriminate].
    destruct (truthy rep) eqn:Hrep.
    + destruct (getProp rep typenameField) as [tn|] eqn:Htn; [|discriminate].
      destruct (buildRepresentations schema fetch sels rest (S index)) as [[reps' rte']|] eqn:E;
        [|discriminate].
      destruct (truthy tn) eqn:Htruthy; intros H; inversion H; subst.
      * constructor; [|now apply (IH _ _ _ E)]. split; [exact Hrep|]. now exists tn.
      * now apply (IH _ _ _ E).
    + destruct (buildRepresentations schema fetch sels rest (S index)) as [[reps' rte']|] eqn:E;
        [|discriminate].
      intros H; inversion H; subst. now apply (IH _ _ _ E).
Qed.

(** C6, on the code: in scenario S4 with an output rewrite on the entity
    fetch, the user whose extraction returned null is not sent, and yet the
    fetch records an error: the merge loop runs once per entity, and its
    second round reads [__typename] of a representation that does not
    exist. *)
Theorem dropped_entity_leaves_an_error :
  buildRepresentations emptySchema emailFetchWithRewrite userKey
    [typedUser "1"; keylessUser] 0
  = Ok ([typedUser "1"], [0])
  /\ executeQueryPlan planWithRewrite contextS4 identityResponse
     = Ok (mkResult
             (VObj [("users",
                     VArr [VObj [("__typename", VStr "User"); ("id", VStr "1");
                                 ("email", VStr "a@x")];
                           keylessUser])])
             (Some [ExTypeError
                      "Cannot read properties of undefined (reading '__typename')"])).
Proof. split; vm_compute; reflexivity. Qed.

(** *** Error paths *)

(** The path given to an error of an entity fetch whose path starts with
    [_entities] and an index within the hydrated paths. *)
Lemma entity_error_path fetch cursor t sels hydratedPaths (i : nat) hydrated rest :
  requires fetch = Some sels ->
  generateHydratedPaths [] (cpath cursor) t = Ok hydratedPaths ->
  hydratedPaths !! i = Some hydrated ->
  makeLazyErrorPathGenerator fetch cursor t
    (Some (PStr "_entities" :: PNum (Z.of_nat i) :: rest))
  = Ok (Some (hydrated ++ rest)).
Proof.
  intros Hrequires Hpaths Hi. unfold makeLazyErrorPathGenerator.
  rewrite Hrequires, Hpaths. simpl.
  destruct (Z.ltb_spec (Z.of_nat i) 0) as [Hneg|_]; [lia|].
  now rewrite Nat2Z.id, Hi.
Qed.

(** The example in the comment of [generateHydratedPaths]. *)
Example hydrated_paths_of_nested_lists :
  generateHydratedPaths [] [PStr "foo"; PStr "@"; PStr "bar"; PStr "@"] fooBars
  = Ok [[PStr "foo"; PNum 0; PStr "bar"; PNum 0]; [PStr "foo"; PNum 0; PStr "bar"; PNum 1];
        [PStr "foo"; PNum 1; PStr "bar"; PNum 0]; [PStr "foo"; PNum 1; PStr "bar"; PNum 1]].
Proof. reflexivity. Qed.

(** C3, on the code: the first user lacks its key, so that the only
    representation sent to B comes from the second user, at [users, 1];
    the error B reports on that representation, at [_entities, 0, email],
    is given the path [users, 0, email]. *)
Theorem error_path_ignores_dropped_entities :
  buildRepresentations emptySchema emailFetch userKey [keylessUser; typedUser "2"] 0
  = Ok ([typedUser "2"], [1])
  /\ generateHydratedPaths [] usersPath (VObj [("users", VArr [keylessUser; typedUser "2"])])
     = Ok [[PStr "users"; PNum 0]; [PStr "users"; PNum 1]]
  /\ executeQueryPlan usersPlan contextFirstDropped identityResponse
     = Ok (mkResult
             (VObj [("users", VArr [keylessUser; typedUser "2"])])
             (Some [ExGraphQLError
                      (mkGraphQLError "boom" (Some [PStr "users"; PNum 0; PStr "email"])
                         (Some "B"))])).
Proof. repeat split; vm_compute; reflexivity. Qed.

(** Scenario S3: with both users sent, the error on the second entity is
    given the path of the second user. *)
Example entity_error_with_hydrated_path :
  executeQueryPlan usersPlan contextS3 identityResponse
  = Ok (mkResult
          (VObj [("users",
                  VArr [VObj [("__typename", VStr "User"); ("id", VStr "1");
                              ("email", VStr "a@x")];
                        typedUser "2"])])
          (Some [ExGraphQLError
                   (mkGraphQLError "boom" (Some [PStr "users"; PNum 1; PStr "email"])
                      (Some "B"))])).
Proof. vm_compute. reflexivity. Qed.

(** *** Reading and writing at positions *)

Lemma getKey_setKey_same o k v : getKey (setKey o k v) k = v.
Proof.
  induction o as [|[k' w] o IH]; simpl.
  - now rewrite String.eqb_refl.
  - destruct (String.eqb k' k) eqn:E; simpl; rewrite E; [reflexivity | exact IH].
Qed.

Lemma getKey_setKey_other o k k' v : k <> k' -> getKey (setKey o k v) k' = getKey o k'.
Proof.
  intros Hne. induction o as [|[k0 w] o IH]; simpl.
  - destruct (String.eqb_spec k k'); [contradiction | reflexivity].
  - destruct (String.eqb_spec k0 k) as [->|]; simpl.
    + destruct (String.eqb_spec k k'); [contradiction | reflexivity].
    + destruct (String.eqb k0 k'); [reflexivity | exact IH].
Qed.

Lemma getKey_defined_hasKey o k : getKey o k <> VUndefined -> hasKey o k = true.
Proof.
  induction o as [|[k' w] o IH]; simpl; [congruence|].
  destruct (String.eqb k' k); [reflexivity | exact IH].
Qed.

Lemma deref_undefined l : deref VUndefined l = VUndefined.
Proof. destruct l as [|[]]; reflexivity. Qed.

(** Writing at a position that holds something, then reading there. *)
Lemma deref_writeAt_same l : forall t v,
  deref t l <> VUndefined -> deref (writeAt t l v) l = v.
Proof.
  induction l as [|[k|i] l IH]; intros t v Hdef; simpl in *; [reflexivity| |].
  - destruct t; try congruence.
    assert (Hkey : getKey fields k <> VUndefined).
    { intros E. rewrite E, deref_undefined in Hdef. congruence. }
    rewrite (getKey_defined_hasKey _ _ Hkey). simpl.
    rewrite getKey_setKey_same. now apply IH.
  - destruct t; try congruence.
    destruct (elems !! i) as [e|] eqn:E; [|congruence]. simpl.
    rewrite list_lookup_insert_eq by (eapply lookup_lt_Some, E).
    now apply IH.
Qed.

Lemma independent_cons s l1 l2 : independent (s :: l1) (s :: l2) -> independent l1 l2.
Proof.
  intros [H1 H2]. split; intros Hp; [apply H1 | apply H2]; now apply prefix_cons.
Qed.

(** Writing at a position leaves every independent position as it was. *)
Lemma deref_writeAt_independent l : forall l' t v,
  independent l l' -> deref (writeAt t l v) l' = deref t l'.
Proof.
  induction l as [|s l IH]; intros l' t v Hind.
  - destruct Hind as [H _]. destruct H. apply prefix_nil.
  - destruct l' as [|s' l'].
    { destruct Hind as [_ H]. destruct H. apply prefix_nil. }
    destruct s as [k|i]; simpl.
    + destruct t; try reflexivity.
      destruct (hasKey fields k); [|reflexivity].
      destruct s' as [k'|i']; [|reflexivity]. simpl.
      destruct (String.eqb_spec k k') as [<-|Hne].
      * rewrite getKey_setKey_same. apply IH. now apply (independent_cons (SKey k)).
      * now rewrite getKey_setKey_other.
    + destruct t; try reflexivity.
      destruct (elems !! i) as [e|] eqn:E; [|reflexivity].
      destruct s' as [k'|i']; [reflexivity|]. simpl.
      destruct (decide (i = i')) as [<-|Hne].
      * rewrite list_lookup_insert_eq by (eapply lookup_lt_Some, E). rewrite E.
        apply IH. now apply (independent_cons (SIdx i)).
      * now rewrite list_lookup_insert_ne.
Qed.

(** *** Independent positions *)

Lemma independent_sym l1 l2 : independent l1 l2 -> independent l2 l1.
Proof. intros [H1 H2]. now split. Qed.

Lemma independent_extend a b a' b' :
  independent a b -> a `prefix_of` a' -> b `prefix_of` b' -> independent a' b'.
Proof.
  intros [Hab Hba] Ha Hb. split; intros Hp.
  - destruct (prefix_weak_total a b b'); [now transitivity a' | assumption | | ]; auto.
  - destruct (prefix_weak_total a b a'); [assumption | now transitivity b' | | ]; auto.
Qed.

Lemma independent_siblings (l : loc) i j :
  i <> j -> independent (l ++ [SIdx i]) (l ++ [SIdx j]).
Proof.
  intros Hne. split; intros Hp; apply prefix_app_inv, prefix_cons_inv_1 in Hp; congruence.
Qed.

Lemma pairwiseIndependent_app ls1 ls2 :
  pairwiseIndependent ls1 -> pairwiseIndependent ls2 ->
  (forall a b, a ∈ ls1 -> b ∈ ls2 -> independent a b) ->
  pairwiseIndependent (ls1 ++ ls2).
Proof.
  induction ls1 as [|l ls1 IH]; simpl; intros H1 H2 Hcross; [exact H2|].
  destruct H1 as [Hl H1]. split.
  - apply Forall_app. split; [exact Hl|].
    apply Forall_forall. intros b Hb. apply Hcross; [left | exact Hb].
  - apply IH; [exact H1 | exact H2 |]. intros a b Ha Hb. apply Hcross; [now right | exact Hb].
Qed.

Lemma elem_of_concatIndexed {A : Type} (f : nat -> value -> list A) es i0 x :
  x ∈ concatIndexed f es i0 <-> exists j e, es !! j = Some e /\ x ∈ f (i0 + j) e.
Proof.
  revert i0. induction es as [|e es IH]; intros i0; simpl.
  - split; [intros H; inversion H | intros (j & e & H & _); discriminate].
  - rewrite elem_of_app, IH. split.
    + intros [H | (j & e' & Hj & Hx)].
      * exists 0, e. rewrite Nat.add_0_r. now split.
      * exists (S j), e'. rewrite Nat.add_succ_r. now split.
    + intros ([|j] & e' & Hj & Hx); simpl in Hj.
      * inversion Hj; subst. rewrite Nat.add_0_r in Hx. now left.
      * right. exists j, e'. rewrite Nat.add_succ_r in Hx. now split.
Qed.

Lemma pairwiseIndependent_concatIndexed (f : nat -> value -> list loc) es i0 :
  (forall j e, es !! j = Some e -> pairwiseIndependent (f (i0 + j) e)) ->
  (forall j j' e e' a b,
     j <> j' -> es !! j = Some e -> es !! j' = Some e' ->
     a ∈ f (i0 + j) e -> b ∈ f (i0 + j') e' -> independent a b) ->
  pairwiseIndependent (concatIndexed f es i0).
Proof.
  revert i0. induction es as [|e es IH]; intros i0 Hself Hcross; simpl; [exact I|].
  apply pairwiseIndependent_app.
  - specialize (Hself 0 e eq_refl). now rewrite Nat.add_0_r in Hself.
  - apply IH.
    + intros j e' Hj. specialize (Hself (S j) e' Hj). now rewrite Nat.add_succ_r in Hself.
    + intros j j' e1 e2 a b Hne Hj Hj' Ha Hb.
      apply (Hcross (S j) (S j') e1 e2); [lia | exact Hj | exact Hj' | |];
        now rewrite Nat.add_succ_r.
  - intros a b Ha Hb. apply elem_of_concatIndexed in Hb as (j & e' & Hj & Hb).
    apply (Hcross 0 (S j) e e'); [lia | reflexivity | exact Hj | |].
    + now rewrite Nat.add_0_r.
    + now rewrite Nat.add_succ_r.
Qed.

Lemma leavesOf_prefix v : forall l l', l' ∈ leavesOf v l -> l `prefix_of` l'.
Proof.
  induction v as [ | | | | | es IH | fields _] using value_induction; intros l l' Hin;
    simpl in Hin; try (apply list_elem_of_singleton in Hin; now subst).
  apply elem_of_concatIndexed in Hin as (j & e & Hj & Hin).
  rewrite Forall_lookup in IH. apply (IH j e Hj) in Hin.
  eapply prefix_app_l, Hin.
Qed.

Lemma leavesOf_independent v : forall l, pairwiseIndependent (leavesOf v l).
Proof.
  induction v as [ | | | | | es IH | fields _] using value_induction; intros l;
    simpl; try (split; [constructor | exact I]).
  rewrite Forall_lookup in IH.
  apply pairwiseIndependent_concatIndexed.
  - intros j e Hj. now apply (IH j e).
  - intros j j' e e' a b Hne Hj Hj' Ha Hb. simpl in Ha, Hb.
    apply (independent_extend (l ++ [SIdx j]) (l ++ [SIdx j'])).
    + now apply independent_siblings.
    + now apply (leavesOf_prefix e).
    + now apply (leavesOf_prefix e').
Qed.

Lemma elem_of_concat_map {A B : Type} (f : A -> list B) (xs : list A) (y : B) :
  y ∈ concat (map f xs) -> exists x, x ∈ xs /\ y ∈ f x.
Proof.
  induction xs as [|x xs IH]; simpl; intros Hin; [inversion Hin|].
  apply elem_of_app in Hin as [Hin|Hin].
  - exists x. split; [left | exact Hin].
  - destruct (IH Hin) as (x' & Hx' & Hy). exists x'. split; [now right | exact Hy].
Qed.

Lemma leavesOfView_prefix t v l' :
  l' ∈ leavesOfView t v ->
  match v with
  | One l => l `prefix_of` l'
  | Many ls => exists l, l ∈ ls /\ l `prefix_of` l'
  end.
Proof.
  destruct v as [l|ls]; simpl.
  - apply leavesOf_prefix.
  - intros Hin. apply elem_of_concat_map in Hin as (l & Hl & Hin).
    exists l. split; [exact Hl | now apply (leavesOf_prefix (deref t l))].
Qed.

Lemma leavesOfView_independent t v :
  viewIndependent v -> pairwiseIndependent (leavesOfView t v).
Proof.
  destruct v as [l|ls]; simpl; intros Hv; [apply leavesOf_independent|].
  induction ls as [|l ls IH]; simpl; [exact I|].
  destruct Hv as [Hl Hls].
  apply pairwiseIndependent_app; [apply leavesOf_independent | now apply IH |].
  intros a b Ha Hb.
  destruct (leavesOfView_prefix t (Many ls) b Hb) as (l2 & Hl2 & Hpre).
  rewrite Forall_forall in Hl.
  apply (independent_extend l l2); [now apply Hl | now apply (leavesOf_prefix (deref t l)) | exact Hpre].
Qed.

Lemma mapM_Forall2 {A B : Type} (f : A -> completion B) xs ys :
  mapM f xs = Ok ys -> Forall2 (fun x y => f x = Ok y) xs ys.
Proof.
  revert ys. induction xs as [|x xs IH]; intros ys; simpl.
  - intros H. inversion H. constructor.
  - unfold bind. destruct (f x) as [y|] eqn:Hy; [|discriminate].
    destruct (mapM f xs) as [ys'|]; [|discriminate].
    intros H. inversion H; subst. constructor; [exact Hy | now apply IH].
Qed.

Lemma definedAt_Some t r l : definedAt t r = Some l -> r = Some l.
Proof.
  destruct r as [l'|]; simpl; [|discriminate].
  destruct (isDefined (deref t l')); [congruence | discriminate].
Qed.

(** The defined results of a map that sends every leaf to an extension of
    itself, or to nothing. *)
Lemma extensions_independent t (leaves : list loc) (rs : list (option loc)) :
  Forall2 (fun l r => forall l', r = Some l' -> l `prefix_of` l') leaves rs ->
  pairwiseIndependent leaves ->
  pairwiseIndependent (omap (definedAt t) rs)
  /\ (forall e, e ∈ omap (definedAt t) rs -> exists l, l ∈ leaves /\ l `prefix_of` e).
Proof.
  induction 1 as [|l r leaves rs Hr _ IH]; simpl; intros Hleaves.
  - split; [exact I | intros e He; inversion He].
  - destruct Hleaves as [Hl Hrest]. destruct (IH Hrest) as [IHind IHpre].
    assert (Hpre : forall e, e ∈ omap (definedAt t) rs ->
                     exists l0, l0 ∈ l :: leaves /\ l0 `prefix_of` e).
    { intros e He. destruct (IHpre e He) as (l0 & Hl0 & Hp). exists l0. split; [now right | exact Hp]. }
    destruct (definedAt t r) as [l'|] eqn:Hdef; [|now split].
    apply definedAt_Some in Hdef. specialize (Hr l' Hdef).
    split; [split; [|exact IHind]|].
    + apply Forall_forall. intros e He. destruct (IHpre e He) as (l0 & Hl0 & Hp).
      rewrite Forall_forall in Hl. apply (independent_extend l l0); auto.
    + intros e He. apply elem_of_cons in He as [->|He]; [|now apply Hpre].
      exists l. split; [now left | exact Hr].
Qed.

Lemma walkStep_prefix t p l l' : walkStep t p l = Ok (Some l') -> l `prefix_of` l'.
Proof.
  unfold walkStep, bind. destruct (String.prefix fragmentPrefix p).
  - destruct (getProp (deref t l) "__typename") as [[]|]; try discriminate.
    destruct (String.eqb _ _); intros H; inversion H; subst. reflexivity.
  - destruct (getProp (deref t l) p); intros H; inversion H; subst.
    now apply prefix_app_r.
Qed.

Lemma applyOrMapRecursive_independent t v p v' :
  viewIndependent v ->
  applyOrMapRecursive t v (walkStep t p) = Ok (Some v') ->
  viewIndependent v'.
Proof.
  intros Hv.
  assert (Harray : forall v0,
             viewIndependent v0 ->
             (let* rs := mapM (walkStep t p) (leavesOfView t v0) in
              match omap (definedAt t) rs with
              | [] => Ok None
              | res => Ok (Some (Many res))
              end) = Ok (Some v') ->
             viewIndependent v').
  { intros v0 Hv0. unfold bind.
    destruct (mapM (walkStep t p) (leavesOfView t v0)) as [rs|] eqn:Hrs; [|discriminate].
    apply mapM_Forall2 in Hrs.
    destruct (extensions_independent t (leavesOfView t v0) rs) as [Hind _].
    { eapply Forall2_impl; [exact Hrs|]. intros l r Hstep l' ->. now apply (walkStep_prefix t p). }
    { now apply leavesOfView_independent. }
    destruct (omap (definedAt t) rs); intros H; inversion H; subst. exact Hind. }
  unfold applyOrMapRecursive. destruct v as [l|ls].
  - destruct (deref t l) eqn:Hl; try (unfold bind; destruct (walkStep t p l) as [[]|];
      intros H; inversion H; subst; exact I).
    apply (Harray (One l) I).
  - apply (Harray (Many ls) Hv).
Qed.

Lemma walkPath_independent t steps : forall v0 v,
  viewIndependent v0 ->
  walkPath t (Some v0) steps = Ok (Some v) ->
  viewIndependent v.
Proof.
  induction steps as [|p steps IH]; intros v0 v Hv0; simpl.
  - intros H. now inversion H; subst.
  - destruct (viewTruthy t v0); [|intros H; now inversion H; subst].
    unfold bind.
    destruct (applyOrMapRecursive t v0 (walkStep t p)) as [[v1|]|] eqn:Hstep; try discriminate.
    + apply IH. now apply (applyOrMapRecursive_independent t v0 p).
    + destruct steps; discriminate.
Qed.

(** *** Output rewrites *)

Lemma moveKey_renamed o removedKey renameTo :
  renameTo <> removedKey ->
  getKey (moveKey o removedKey renameTo) renameTo = getKey o removedKey.
Proof.
  intros Hne. unfold moveKey.
  rewrite getKey_setKey_other by congruence. apply getKey_setKey_same.
Qed.

Lemma moveKey_removed o removedKey renameTo :
  getKey (moveKey o removedKey renameTo) removedKey = VUndefined.
Proof. unfold moveKey. apply getKey_setKey_same. Qed.

(** The last [applyOrMapRecursive] of [withFetchRewrites]: when no leaf is
    [null] it completes, every leaf that is an object has its key moved,
    and every position independent of the leaves is as it was. *)
Lemma rename_leaves removedKey renameTo leaves : forall t,
  pairwiseIndependent leaves ->
  (forall l, l ∈ leaves -> deref t l <> VNull) ->
  exists t',
    foldM (renameAt removedKey renameTo) t leaves = Ok t'
    /\ (forall l o, l ∈ leaves -> deref t l = VObj o ->
          deref t' l = VObj (moveKey o removedKey renameTo))
    /\ (forall l', Forall (fun l => independent l l') leaves -> deref t' l' = deref t l').
Proof.
  induction leaves as [|l rest IH]; intros t Hind Hnull.
  - exists t. split; [reflexivity|]. split; [intros l o Hin; inversion Hin | reflexivity].
  - destruct Hind as [Hl Hrest].
    assert (Hstep : exists t1,
               renameAt removedKey renameTo t l = Ok t1
               /\ (forall o, deref t l = VObj o ->
                     deref t1 l = VObj (moveKey o removedKey renameTo))
               /\ (forall l2, independent l l2 -> deref t1 l2 = deref t l2)).
    { unfold renameAt. pose proof (Hnull l ltac:(left)) as Hl0.
      destruct (deref t l) eqn:E; try congruence;
        try (exists t; split; [reflexivity|]; split; [discriminate | reflexivity]).
      exists (writeAt t l (VObj (moveKey fields removedKey renameTo))).
      split; [reflexivity|]. split.
      - intros o Ho. inversion Ho; subst. apply deref_writeAt_same. congruence.
      - intros l2 Hl2. now apply deref_writeAt_independent. }
    destruct Hstep as (t1 & Hrename & Hmoved & Hframe).
    rewrite Forall_forall in Hl.
    destruct (IH t1 Hrest) as (t' & Hfold & Hleaves & Hothers).
    { intros l2 Hl2. rewrite Hframe; [now apply Hnull; right | now apply Hl]. }
    exists t'. split; [simpl; now rewrite Hrename|]. split.
    + intros l0 o Hin Ho. apply elem_of_cons in Hin as [->|Hin].
      * rewrite Hothers; [now apply Hmoved|].
        apply Forall_forall. intros l2 Hl2. apply independent_sym. now apply Hl.
      * apply Hleaves; [exact Hin|]. rewrite Hframe; [exact Ho | now apply Hl].
    + intros l' Hl'. apply Forall_cons in Hl' as [Hhead Htail].
      rewrite Hothers by exact Htail. now apply Hframe.
Qed.

Lemma walkPath_truthy t steps v0 v :
  walkPath t (Some v0) steps = Ok (Some v) -> viewTruthy t v = true -> viewTruthy t v0 = true.
Proof.
  destruct steps as [|p steps]; simpl.
  - intros H. now inversion H; subst.
  - destruct (viewTruthy t v0) eqn:E; [reflexivity|].
    intros H Hv. inversion H; subst. congruence.
Qed.

Lemma removelast_snoc {A : Type} (l : list A) x : removelast (l ++ [x]) = l.
Proof. apply removelast_last. Qed.

(** Where the walk meets no [null]: for an output rewrite whose
    [renameKeyTo] differs from the last element of its path, and a fetch
    result in which the walk along the path before its last element
    reaches no null, the rewrite completes and every object the walk
    reaches then yields, under [renameKeyTo], what it used to yield under
    the last path element, and yields [undefined] under the last path
    element. *)
Theorem output_rewrite_moves_the_key fetchResult rewrite steps removedKey reached :
  out_path rewrite = steps ++ [removedKey] ->
  renameKeyTo rewrite <> removedKey ->
  walkPath fetchResult (Some (One [])) steps = Ok (Some reached) ->
  viewTruthy fetchResult reached = true ->
  (forall l, l ∈ leavesOfView fetchResult reached -> deref fetchResult l <> VNull) ->
  exists rewritten,
    withFetchRewrites fetchResult (Some [rewrite]) = Ok rewritten
    /\ forall l o,
         l ∈ leavesOfView fetchResult reached ->
         deref fetchResult l = VObj o ->
         exists o',
           deref rewritten l = VObj o'
           /\ getKey o' (renameKeyTo rewrite) = getKey o removedKey
           /\ getKey o' removedKey = VUndefined.
Proof.
  intros Hpath Hne Hwalk Htruthy Hnull.
  assert (Hind : viewIndependent reached).
  { now apply (walkPath_independent fetchResult steps (One []) reached I). }
  destruct (rename_leaves removedKey (renameKeyTo rewrite)
              (leavesOfView fetchResult reached) fetchResult
              (leavesOfView_independent _ _ Hind) Hnull)
    as (rewritten & Hfold & Hleaves & _).
  exists rewritten. split.
  - unfold withFetchRewrites.
    pose proof (walkPath_truthy _ _ _ _ Hwalk Htruthy) as Hroot. simpl in Hroot.
    rewrite Hroot. simpl. unfold applyOutputRewrite.
    rewrite Hpath, removelast_snoc, last_last, Hwalk. simpl.
    now rewrite Htruthy, Hfold.
  - intros l o Hl Ho. exists (moveKey o removedKey (renameKeyTo rewrite)).
    split; [now apply Hleaves|]. split.
    + now apply moveKey_renamed.
    + apply moveKey_removed.
Qed.

Lemma output_rewrite_moves_the_key_witness :
  let reached := Many [[SKey "accounts"; SIdx 0]; [SKey "accounts"; SIdx 2]] in
  walkPath accountsReply (Some (One [])) ["accounts"; "... on User"] = Ok (Some reached)
  /\ exists rewritten,
       withFetchRewrites accountsReply (Some [accountsRewrite]) = Ok rewritten
       /\ exists o',
            deref rewritten [SKey "accounts"; SIdx 2] = VObj o'
            /\ getKey o' "login" = VStr "bob"
            /\ getKey o' "username" = VUndefined.
Proof.
  intros reached.
  assert (Hwalk : walkPath accountsReply (Some (One [])) ["accounts"; "... on User"]
                  = Ok (Some reached)) by reflexivity.
  split; [exact Hwalk|].
  destruct (output_rewrite_moves_the_key accountsReply accountsRewrite
              ["accounts"; "... on User"] "username" reached
              eq_refl ltac:(discriminate) Hwalk eq_refl) as (rewritten & Hrewritten & Hmoved).
  { intros l Hl. simpl in Hl.
    apply elem_of_cons in Hl as [->|Hl]; [discriminate|].
    apply list_elem_of_singleton in Hl as ->. discriminate. }
  exists rewritten. split; [exact Hrewritten|].
  apply (Hmoved [SKey "accounts"; SIdx 2]
           [("__typename", VStr "User"); ("username", VStr "bob")]).
  - simpl. right. left.
  - reflexivity.
Defined.

(** What a rewrite leaves behind.  The rewritten object still has the
    removed key, which now holds [undefined]; a rewrite that renames a key
    to itself loses the value; and a [null] among the elements the walk
    reaches makes the rewrite throw before any object is touched. *)
Example output_rewrite_limits :
  (withFetchRewrites meReply (Some [loginRewrite])
   = Ok (VObj [("me", VObj [("__typename", VStr "User"); ("username", VUndefined);
                            ("login", VStr "ada")])])
   /\ hasKey [("__typename", VStr "User"); ("username", VUndefined); ("login", VStr "ada")]
        "username" = true)
  /\ withFetchRewrites meReply (Some [mkOutputRewrite ["me"; "username"] "username"])
     = Ok (VObj [("me", VObj [("__typename", VStr "User"); ("username", VUndefined)])])
  /\ withFetchRewrites
       (VObj [("accounts", VArr [VNull; VObj [("username", VStr "ada")]])])
       (Some [mkOutputRewrite ["accounts"; "username"] "login"])
     = Throw (ExTypeError "Cannot read properties of null (reading 'username')").
Proof. repeat split; vm_compute; reflexivity. Qed.

(** C8, on the code: the reply holds a list of users whose first element
    is [null] and whose second is an object with a [username].  The walk
    of the path reaches both; the guard [typeof elt === 'object'] lets
    [null] through, reading its property throws, and the rewrite ends
    before the object is touched.  The fetch fails with the exception:
    nothing of the reply is merged, and the response has no [login].  On
    the same list without the [null] the key is moved. *)
Theorem null_element_stops_the_rewrite :
  withFetchRewrites usersWithNull (Some [usernameRewrite])
  = Throw (ExTypeError "Cannot read properties of null (reading 'username')")
  /\ executeQueryPlan (mkQueryPlan (Some (Fetch usersFetchWithRewrite)))
       (contextOf (fun _ => Some (replying usersWithNull None))) identityResponse
     = Ok (mkResult (VObj [])
             (Some [ExTypeError "Cannot read properties of null (reading 'username')"]))
  /\ withFetchRewrites (VObj [("users", VArr [VObj [("username", VStr "ada")]])])
       (Some [usernameRewrite])
     = Ok (VObj [("users", VArr [VObj [("username", VUndefined); ("login", VStr "ada")]])]).
Proof. repeat split; vm_compute; reflexivity. Qed.

(** Scenario S5 through the whole executor, with a rewrite whose path
    leads to the user object. *)
Example output_rewrite_on_root_fetch :
  executeQueryPlan (mkQueryPlan (Some (Fetch (meFetch [loginRewrite]))))
    contextS5 identityResponse
  = Ok (mkResult
          (VObj [("me", VObj [("__typename", VStr "User"); ("username", VUndefined);
                              ("login", VStr "ada")])])
          None).
Proof. vm_compute. reflexivity. Qed.

(** Scenario S5 with the path the specification writes for it, which
    starts at the type condition: the reply has no [__typename] of its own,
    the walk stops there and nothing is renamed. *)
Example output_rewrite_from_the_root_type :
  executeQueryPlan
    (mkQueryPlan (Some (Fetch (meFetch [mkOutputRewrite ["... on User"; "username"] "login"]))))
    contextS5 identityResponse
  = Ok (mkResult meReply None).
Proof. vm_compute. reflexivity. Qed.

(** Scenarios S1 and S2. *)
Example single_root_fetch :
  executeQueryPlan
    (mkQueryPlan (Some (Fetch (mkFetchNode "S" None None "{ me { id name } }" None None None))))
    (contextOf (fun _ => Some (replying
       (VObj [("me", VObj [("id", VStr "1"); ("name", VStr "Ada")])]) None)))
    identityResponse
  = Ok (mkResult (VObj [("me", VObj [("id", VStr "1"); ("name", VStr "Ada")])]) None).
Proof. vm_compute. reflexivity. Qed.

Example sequence_and_entities :
  executeQueryPlan usersPlan
    (contextOf (twoServices
       (replying (VObj [("users", VArr [typedUser "1"; typedUser "2"])]) None)
       (replying (entitiesReply [emailOf "a@x"; emailOf "b@x"]) None)))
    identityResponse
  = Ok (mkResult
          (VObj [("users",
                  VArr [VObj [("__typename", VStr "User"); ("id", VStr "1");
                              ("email", VStr "a@x")];
                        VObj [("__typename", VStr "User"); ("id", VStr "2");
                              ("email", VStr "b@x")]])])
          None).
Proof. vm_compute. reflexivity. Qed.

(** *** Entities as references into the response tree *)

Lemma siblings_independent (l : loc) start n :
  pairwiseIndependent (map (fun i => l ++ [SIdx i]) (seq start n)).
Proof.
  revert start. induction n as [|n IH]; intros start; simpl; [exact I|].
  split; [|apply IH].
  apply Forall_forall. intros l' Hl'.
  apply list_elem_of_In, in_map_iff in Hl' as (i & <- & Hi).
  apply in_seq in Hi. apply independent_siblings. lia.
Qed.

Lemma elemLocs_prefix (l : loc) es l' : l' ∈ elemLocs l es -> l `prefix_of` l'.
Proof.
  intros Hl'. apply list_elem_of_In, in_map_iff in Hl' as (i & <- & _).
  now apply prefix_app_r.
Qed.

Lemma pairwiseIndependent_filter (keep : loc -> bool) ls :
  pairwiseIndependent ls -> pairwiseIndependent (List.filter keep ls).
Proof.
  induction ls as [|l ls IH]; simpl; [trivial|]. intros [Hl Hls].
  destruct (keep l); simpl; [|now apply IH].
  split; [|now apply IH].
  apply Forall_forall. intros l' Hl'. rewrite Forall_forall in Hl. apply Hl.
  apply list_elem_of_In. apply list_elem_of_In, filter_In in Hl'. tauto.
Qed.

(** The elements of an array view are pairwise independent, and lie under
    the view. *)
Lemma elementsOf_independent t v ls :
  viewIndependent v -> elementsOf t v = Some ls -> pairwiseIndependent ls.
Proof.
  destruct v as [l|ls']; simpl.
  - intros _. destruct (deref t l); try discriminate.
    intros H. inversion H; subst. apply siblings_independent.
  - intros Hv H. now inversion H; subst.
Qed.

(** The entities of a cursor are distinct, pairwise independent nodes of
    the tree. *)
Lemma collectEntities_independent t cursor :
  viewIndependent (cdata cursor) -> pairwiseIndependent (collectEntities t cursor).
Proof.
  intros Hv. unfold collectEntities.
  destruct (elementsOf t (cdata cursor)) as [ls|] eqn:E.
  - apply pairwiseIndependent_filter. now apply (elementsOf_independent t (cdata cursor)).
  - destruct (cdata cursor); [split; [constructor | exact I] | exact Hv].
Qed.

(** Storing the entities back writes each at its own position and leaves
    every independent position as it was: the in-place mutation of the
    entity objects. *)
Lemma storeEntities_deref locs : forall t vs,
  pairwiseIndependent locs ->
  (forall l, l ∈ locs -> deref t l <> VUndefined) ->
  (forall i l v, locs !! i = Some l -> vs !! i = Some v ->
     deref (storeEntities t locs vs) l = v)
  /\ (forall l', Forall (fun l => independent l l') locs ->
        deref (storeEntities t locs vs) l' = deref t l').
Proof.
  unfold storeEntities.
  induction locs as [|l locs IH]; intros t vs Hind Hdef.
  - split; [intros i l v H; destruct i; discriminate | reflexivity].
  - destruct vs as [|v vs].
    { split; [intros i l0 v H Hv; destruct i; discriminate | reflexivity]. }
    destruct Hind as [Hl Hlocs]. rewrite Forall_forall in Hl.
    simpl.
    destruct (IH (writeAt t l v) vs Hlocs) as [Hstored Hframe].
    { intros l2 Hl2. rewrite deref_writeAt_independent by now apply Hl.
      apply Hdef. now right. }
    split.
    + intros [|i] l0 v0 Hl0 Hv0; simpl in Hl0, Hv0.
      * inversion Hl0; inversion Hv0; subst.
        rewrite Hframe.
        -- apply deref_writeAt_same. apply Hdef. left.
        -- apply Forall_forall. intros l2 Hl2. apply independent_sym. now apply Hl.
      * now apply (Hstored i).
    + intros l' Hl'. apply Forall_cons in Hl' as [Hhead Htail].
      rewrite Hframe by exact Htail. now apply deref_writeAt_independent.
Qed.

Lemma elementsOf_prefix t v ls l :
  elementsOf t v = Some ls -> l ∈ ls -> exists l0, l0 ∈ locsOf v /\ l0 `prefix_of` l.
Proof.
  destruct v as [l1|ls']; simpl.
  - destruct (deref t l1); try discriminate. intros H Hl. inversion H; subst.
    exists l1. split; [left | now apply (elemLocs_prefix l1 elems)].
  - intros H Hl. inversion H; subst. now exists l.
Qed.

(** Parts that are each independent and each under their own element, for
    independent elements. *)
Lemma parts_independent (elements : list loc) (parts : list (list loc)) :
  Forall2 (fun e part => pairwiseIndependent part /\ forall l, l ∈ part -> e `prefix_of` l)
          elements parts ->
  pairwiseIndependent elements ->
  pairwiseIndependent (concat parts)
  /\ (forall l, l ∈ concat parts -> exists e, e ∈ elements /\ e `prefix_of` l).
Proof.
  induction 1 as [|e part elements parts [Hpart Hunder] _ IH]; simpl; intros Hind.
  - split; [exact I | intros l Hl; inversion Hl].
  - destruct Hind as [He Helements]. destruct (IH Helements) as [IHind IHunder].
    rewrite Forall_forall in He. split.
    + apply pairwiseIndependent_app; [exact Hpart | exact IHind |].
      intros a b Ha Hb. destruct (IHunder b Hb) as (e' & He' & Hpre).
      apply (independent_extend e e'); auto.
    + intros l Hl. apply elem_of_app in Hl as [Hl|Hl].
      * exists e. split; [left | now apply Hunder].
      * destruct (IHunder l Hl) as (e' & He' & Hpre). exists e'. split; [now right | exact Hpre].
Qed.

(** Moving along a path keeps the references of a view independent, and
    under the references it started from. *)
Lemma flattenResultsAtPath_invariant path : forall t v r,
  flattenResultsAtPath t v path = Ok r ->
  (forall l, l ∈ locsOf r -> exists l0, l0 ∈ locsOf v /\ l0 `prefix_of` l)
  /\ (viewIndependent v -> viewIndependent r).
Proof.
  induction path as [|current rest IH]; intros t v r; simpl.
  - intros H. inversion H; subst. split; [|trivial].
    intros l Hl. now exists l.
  - destruct (match v with
              | One l => negb (isNotNullOrUndefined (deref t l))
              | Many _ => false
              end).
    { intros H. inversion H; subst. split; [|trivial]. intros l Hl. now exists l. }
    destruct current as [s|n]; [|discriminate].
    destruct (String.eqb s atSign).
    + destruct (elementsOf t v) as [elements|] eqn:Helements; [|discriminate].
      unfold bind at 1.
      destruct (mapM _ elements) as [parts|] eqn:Hparts; [|discriminate].
      intros H. inversion H; subst. clear H.
      apply mapM_Forall2 in Hparts.
      assert (Hall : Forall2 (fun e part =>
                                (viewIndependent v -> pairwiseIndependent part)
                                /\ forall l, l ∈ part -> e `prefix_of` l)
                             elements parts).
      { eapply Forall2_impl; [exact Hparts|]. intros e part. simpl. unfold bind.
        destruct (flattenResultsAtPath t (One e) rest) as [r|] eqn:Hr; [|discriminate].
        destruct (IH _ _ _ Hr) as [Hunder Hind]. intros H. inversion H; subst. clear H.
        destruct (elementsOf t r) as [ls|] eqn:Hls.
        - split.
          + intros _. apply (elementsOf_independent t r ls); [now apply Hind | exact Hls].
          + intros l Hl. destruct (elementsOf_prefix t r ls l Hls Hl) as (l0 & Hl0 & Hpre).
            destruct (Hunder l0 Hl0) as (e0 & He0 & Hpre0).
            apply list_elem_of_singleton in He0 as ->. now transitivity l0.
        - split.
          + intros _. destruct r; [split; [constructor | exact I] | now apply Hind].
          + intros l Hl. destruct (Hunder l) as (e0 & He0 & Hpre0).
            { now destruct r. }
            now apply list_elem_of_singleton in He0 as ->. }
      split.
      * intros l Hl. simpl in Hl.
        assert (Hex : exists e, e ∈ elements /\ e `prefix_of` l).
        { clear -Hall Hl. induction Hall as [|e part elements parts [_ Hunder] _ IHall];
            simpl in Hl; [inversion Hl|].
          apply elem_of_app in Hl as [Hl|Hl].
          - exists e. split; [left | now apply Hunder].
          - destruct (IHall Hl) as (e' & He' & Hpre). exists e'. split; [now right | exact Hpre]. }
        destruct Hex as (e & He & Hpre).
        destruct (elementsOf_prefix t v elements e Helements He) as (l0 & Hl0 & Hpre0).
        exists l0. split; [exact Hl0 | now transitivity e].
      * intros Hv. simpl.
        apply (parts_independent elements parts).
        -- eapply Forall2_impl; [exact Hall|]. intros e part [Hind Hunder]. split; auto.
        -- now apply (elementsOf_independent t v).
    + destruct v as [l|ls]; [|discriminate].
      destruct (isArray (deref t l)); [discriminate|].
      intros H. destruct (IH _ _ _ H) as [Hunder Hind]. split; [|intros _; now apply Hind].
      intros l' Hl'. destruct (Hunder l' Hl') as (l0 & Hl0 & Hpre).
      apply list_elem_of_singleton in Hl0 as ->.
      exists l. split; [left | eapply prefix_app_l, Hpre].
Qed.

(** A cursor moved from a cursor with independent references has
    independent references; the root cursor has a single one. *)
Lemma moveIntoCursor_independent t cursor pathInCursor moved :
  viewIndependent (cdata cursor) ->
  moveIntoCursor t cursor pathInCursor = Ok (Some moved) ->
  viewIndependent (cdata moved).
Proof.
  intros Hv. unfold moveIntoCursor, bind.
  destruct (flattenResultsAtPath t (cdata cursor) pathInCursor) as [data|] eqn:Hdata;
    [|discriminate].
  destruct (viewTruthy t data); [|discriminate].
  intros H. inversion H; subst. simpl.
  now apply (flattenResultsAtPath_invariant pathInCursor t (cdata cursor) data Hdata).
Qed.

Lemma collectEntities_defined t cursor l :
  viewTruthy t (cdata cursor) = true ->
  l ∈ collectEntities t cursor -> deref t l <> VUndefined.
Proof.
  unfold collectEntities. intros Htruthy Hl.
  destruct (elementsOf t (cdata cursor)) as [ls|] eqn:E.
  - apply list_elem_of_In, filter_In in Hl as [_ Hl].
    intros Heq. now rewrite Heq in Hl.
  - destruct (cdata cursor) as [l0|ls]; [|discriminate].
    apply list_elem_of_singleton in Hl as ->. simpl in Htruthy.
    intros Heq. now rewrite Heq in Htruthy.
Qed.

(** The entity branch, seen from the response tree: after a reply that
    passed the checks, each entity object of the cursor holds what the
    merge loop left in the corresponding slot of [entities]. *)
Lemma entity_fetch_merges_in_place context fetch cursor st service sels
    representations representationToEntity st1 data receivedEntities :
  serviceMap context (fetchServiceName fetch) = Some service ->
  requires fetch = Some sels ->
  buildRepresentations (supergraphSchema context) fetch sels
    (map (deref (fullResult st)) (collectEntities (fullResult st) cursor)) 0
  = Ok (representations, representationToEntity) ->
  representations <> [] ->
  hasKey (collectVariables fetch (requestVariables context)) "representations" = false ->
  sendOperation service fetch cursor
    (setKey (collectVariables fetch (requestVariables context)) "representations"
       (VArr representations)) st
  = (st1, Ok data) ->
  truthy data = true ->
  getProp data "_entities" = Ok (VArr receivedEntities) ->
  length receivedEntities = length representations ->
  viewIndependent (cdata cursor) ->
  viewTruthy (fullResult st) (cdata cursor) = true ->
  forall index l v,
    collectEntities (fullResult st) cursor !! index = Some l ->
    (mergeEntities (outputRewrites fetch) representations representationToEntity
       receivedEntities
       (map (deref (fullResult st)) (collectEntities (fullResult st) cursor))).1 !! index
    = Some v ->
    deref (fullResult (executeFetch context fetch cursor st).1) l = v.
Proof.
  intros Hservice Hrequires Hbuilt Hsome Hvars Hsent Htruthy Hentities Hlen Hind Hlive
         index l v Hl Hv.
  rewrite (executeFetch_with_representations context fetch cursor st service sels
             representations representationToEntity Hservice Hrequires Hbuilt Hsome).
  rewrite Hvars, Hsent, Htruthy, Hentities. simpl.
  apply Nat.eqb_eq in Hlen. rewrite Hlen. simpl.
  destruct (mergeEntities _ _ _ _ _) as [entities' outcome]. simpl in *.
  pose proof (sendOperation_fullResult service fetch cursor
                (setKey (collectVariables fetch (requestVariables context))
                   "representations" (VArr representations)) st) as Htree.
  rewrite Hsent in Htree. simpl in Htree. rewrite Htree.
  apply (proj1 (storeEntities_deref (collectEntities (fullResult st) cursor)
                  (fullResult st) entities'
                  (collectEntities_independent _ _ Hind)
                  (fun l0 => collectEntities_defined _ _ l0 Hlive)) index l v Hl Hv).
Qed.

(** ** Further properties *)

(** *** Timestamps *)

(** X1: the timestamp of a date holds the date exactly: its seconds and
    nanoseconds add up to the millisecond count.  For a date from 1970 on
    the nanoseconds lie in [0, 10^9); for an earlier date they are zero or
    negative, above [-10^9]. *)
Theorem timestamp_of_date totalMillis :
  (- maxDateMillis <= totalMillis <= maxDateMillis)%Z ->
  let ts := dateToProtoTimestamp totalMillis in
  (seconds ts * 1000000000 + nanos ts = totalMillis * 1000000)%Z
  /\ (0 <= totalMillis -> 0 <= nanos ts < 1000000000)%Z
  /\ (totalMillis < 0 -> -1000000000 < nanos ts <= 0)%Z.
Proof.
  intros _ ts. subst ts. unfold dateToProtoTimestamp. simpl.
  pose proof (Z.quot_rem' totalMillis 1000) as Hqr.
  assert (Hq : Z.quot (totalMillis - Z.rem totalMillis 1000) 1000 = Z.quot totalMillis 1000).
  { replace (totalMillis - Z.rem totalMillis 1000)%Z
      with (Z.quot totalMillis 1000 * 1000)%Z by lia.
    apply Z.quot_mul. lia. }
  rewrite Hq. split; [lia|]. split; intros Hsign.
  - pose proof (Z.rem_bound_pos totalMillis 1000 Hsign ltac:(lia)). lia.
  - pose proof (Z.rem_bound_pos_neg totalMillis 1000 ltac:(lia) ltac:(lia)). lia.
Qed.

Lemma timestamp_of_date_witness :
  (- maxDateMillis <= -1 <= maxDateMillis)%Z
  /\ dateToProtoTimestamp (-1) = mkTimestamp 0 (-1000000)
  /\ (seconds (dateToProtoTimestamp (-1)) * 1000000000 + nanos (dateToProtoTimestamp (-1))
      = -1 * 1000000)%Z.
Proof.
  assert (Hrange : (- maxDateMillis <= -1 <= maxDateMillis)%Z) by (unfold maxDateMillis; lia).
  split; [exact Hrange|]. split; [reflexivity|].
  exact (proj1 (timestamp_of_date (-1) Hrange)).
Defined.

(** X2: on durations whose nanosecond part is below one second, and that
    stay within the exact integers, the nanosecond count orders the
    durations as their pairs are ordered, and distinct pairs give distinct
    counts. *)
Theorem duration_nanos_order (a b : Z * Z) :
  (0 <= snd a < 1000000000)%Z -> (0 <= snd b < 1000000000)%Z ->
  (0 <= durationHrTimeToNanos a <= maxSafeInteger)%Z ->
  (0 <= durationHrTimeToNanos b <= maxSafeInteger)%Z ->
  ((durationHrTimeToNanos a < durationHrTimeToNanos b)%Z
   <-> (fst a < fst b \/ (fst a = fst b /\ snd a < snd b))%Z)
  /\ (durationHrTimeToNanos a = durationHrTimeToNanos b -> a = b).
Proof.
  destruct a as [sa na], b as [sb nb]. unfold durationHrTimeToNanos. simpl.
  intros Ha Hb _ _. split; [split|].
  - intros Hlt. destruct (Z.lt_trichotomy sa sb) as [H|[H|H]]; [now left | right; lia | lia].
  - intros [H|[-> H]]; lia.
  - intros Heq. assert (sa = sb) by lia. subst. f_equal. lia.
Qed.

Lemma duration_nanos_order_witness :
  (durationHrTimeToNanos (1, 999999999) < durationHrTimeToNanos (2, 0))%Z
  <-> (1 < 2 \/ (1 = 2 /\ 999999999 < 0))%Z.
Proof.
  assert (Ha : (0 <= durationHrTimeToNanos (1, 999999999) <= maxSafeInteger)%Z)
    by (vm_compute; split; discriminate).
  assert (Hb : (0 <= durationHrTimeToNanos (2, 0) <= maxSafeInteger)%Z)
    by (vm_compute; split; discriminate).
  exact (proj1 (duration_nanos_order (1, 999999999)%Z (2, 0)%Z
                  ltac:(simpl; lia) ltac:(simpl; lia) Ha Hb)).
Defined.

(** *** Outgoing variables *)




(** *** Threading rewrites *)

(** X4: the rewrites [updateRewrites] passes on are exactly the input
    rewrites that start with the step and go further, with the step
    removed and the value kept; none of them has an empty path.  A complete
    rewrite value that is defined is the value of an input rewrite whose
    path is the step alone. *)
Theorem updateRewrites_advances rs pathElement u :
  updateRewrites (Some rs) pathElement = Some u ->
  (forall path v,
     In (mkInputRewrite path v) (updated u)
     <-> path <> [] /\ In (mkInputRewrite (pathElement :: path) v) rs)
  /\ (completeRewrite u <> VUndefined ->
      In (mkInputRewrite [pathElement] (completeRewrite u)) rs).
Proof.
  unfold updateRewrites.
  set (upd := omap _ rs). set (complete := completeRewriteOf rs pathElement VUndefined).
  intros Hsome.
  assert (Hu : u = mkUpdatedRewrites upd complete).
  { destruct upd; destruct complete; inversion Hsome; reflexivity. }
  subst u. simpl. clear Hsome. split.
  - intros path v. subst upd. rewrite <- list_elem_of_In, list_elem_of_omap. split.
    + intros ([p value] & Hin & Hr). simpl in Hr.
      destruct p as [|p0 [|p1 p]]; try discriminate.
      destruct (String.eqb_spec p0 pathElement) as [->|]; [|discriminate].
      inversion Hr; subst. split; [discriminate | now apply list_elem_of_In].
    + intros [Hne Hin]. exists (mkInputRewrite (pathElement :: path) v).
      split; [now apply list_elem_of_In|]. simpl.
      destruct path; [congruence|]. now rewrite String.eqb_refl.
  - subst complete.
    assert (Hgen : forall acc,
               completeRewriteOf rs pathElement acc = acc
               \/ In (mkInputRewrite [pathElement] (completeRewriteOf rs pathElement acc)) rs).
    { clear upd. induction rs as [|[p value] rs IH]; intros acc; simpl; [now left|].
      destruct p as [|p0 [|p1 p]]; try (destruct (IH acc); [now left | right; now right]).
      destruct (String.eqb_spec p0 pathElement) as [->|].
      - destruct (IH value) as [Heq|Hin]; right; [left; now rewrite Heq | now right].
      - destruct (IH acc); [now left | right; now right]. }
    intros Hdefined. destruct (Hgen VUndefined); [contradiction | assumption].
Qed.

Lemma updateRewrites_advances_witness :
  let rs := [mkInputRewrite ["a"; "b"] (VNum 1); mkInputRewrite ["a"] (VStr "x");
             mkInputRewrite ["c"] VNull] in
  let u := mkUpdatedRewrites [mkInputRewrite ["b"] (VNum 1)] (VStr "x") in
  updateRewrites (Some rs) "a" = Some u
  /\ (In (mkInputRewrite ["b"] (VNum 1)) (updated u)
      <-> ["b"] <> [] /\ In (mkInputRewrite ["a"; "b"] (VNum 1)) rs).
Proof.
  intros rs u. split; [reflexivity|].
  exact (proj1 (updateRewrites_advances rs "a" u eq_refl) ["b"] (VNum 1)).
Defined.

(** X5: for an entity object, the output rewrites kept by
    [filterEntityRewrites] are exactly the rewrites whose path starts with
    the type condition of the entity's [__typename], with that condition
    removed and the new key kept; a rewrite that starts with anything else
    is dropped. *)
Theorem filterEntityRewrites_keeps_own_type o rs :
  exists kept,
    filterEntityRewrites (VObj o) (Some rs) = Ok (Some kept)
    /\ forall path key,
         In (mkOutputRewrite path key) kept
         <-> In (mkOutputRewrite
                   ((fragmentPrefix +:+ jsToString (getKey o typenameField)) :: path) key)
                rs.
Proof.
  eexists. split; [reflexivity|]. intros path key.
  rewrite <- !list_elem_of_In, list_elem_of_omap. split.
  - intros ([p k] & Hin & Hr). simpl in Hr. destruct p as [|p0 p]; [discriminate|].
    destruct (String.eqb_spec p0 (fragmentPrefix +:+ jsToString (getKey o typenameField)))
      as [->|]; [|discriminate].
    now inversion Hr; subst.
  - intros Hin. eexists. split; [exact Hin|]. simpl. now rewrite String.eqb_refl.
Qed.

(** *** Type conditions *)

(** X6: a type condition that does not name an abstract type of the
    schema, whether it names a concrete type or no type at all, matches a
    type name only when the two are the same string. *)
Theorem concrete_condition_matches_by_name schema typeCondition typename :
  (forall kind, getType schema typeCondition = Some kind -> isAbstractType kind = false) ->
  (doesTypeConditionMatch schema typeCondition typename = true
   <-> typename = VStr typeCondition).
Proof.
  intros Hconcrete. unfold doesTypeConditionMatch. split.
  - assert (Hrest : match getType schema (jsToString typename) with
                    | Some type =>
                        match getType schema typeCondition with
                        | Some conditionalType =>
                            if isAbstractType conditionalType
                            then match type with
                                 | ObjectTypeKind | InterfaceTypeKind => true
                                 | _ => false
                                 end && isSubType schema typeCondition (jsToString typename)
                            else false
                        | None => false
                        end
                    | None => false
                    end = false).
    { destruct (getType schema (jsToString typename)); [|reflexivity].
      destruct (getType schema typeCondition) as [kind|] eqn:E; [|reflexivity].
      now rewrite (Hconcrete kind eq_refl). }
    rewrite Hrest.
    destruct typename as [ | | b | n | s | es | fs]; try discriminate.
    destruct (String.eqb_spec typeCondition s) as [->|]; [reflexivity | discriminate].
  - intros ->. now rewrite String.eqb_refl.
Qed.

Lemma concrete_condition_matches_by_name_witness :
  (forall kind, getType nodeSchema "Bot" = Some kind -> isAbstractType kind = false)
  /\ (doesTypeConditionMatch nodeSchema "Bot" (VStr "User") = true
      <-> VStr "User" = VStr "Bot").
Proof.
  assert (Hconcrete : forall kind, getType nodeSchema "Bot" = Some kind ->
                                   isAbstractType kind = false).
  { intros kind H. inversion H. reflexivity. }
  split; [exact Hconcrete|].
  exact (concrete_condition_matches_by_name nodeSchema "Bot" (VStr "User") Hconcrete).
Defined.

(** An abstract condition matches the object types the schema declares as
    its subtypes, and no other. *)
Example abstract_condition_matches_subtypes :
  doesTypeConditionMatch nodeSchema "Node" (VStr "User") = true
  /\ doesTypeConditionMatch nodeSchema "Node" (VStr "Bot") = false.
Proof. split; reflexivity. Qed.

(** *** Representations, continued *)

(** The loop of [executeSelectionSet], from a given [result] on. *)
Lemma selectionLoop_result
    (body : QueryPlanSelectionNode -> value -> option (list FetchDataInputRewrite) ->
            ResultMap -> completion LoopExit) source selections rewrites v :
  (forall s res w, body s source rewrites res = Ok (Return w) -> w = VNull) ->
  selectionLoop body source selections rewrites = Ok v ->
  v = VNull \/ exists o, v = VObj o.
Proof.
  intros Hreturn. unfold selectionLoop.
  assert (Hloop : forall result,
             (fix loop (sels : list QueryPlanSelectionNode) (result : ResultMap)
                : completion value :=
                match sels with
                | [] => Ok (VObj result)
                | selection :: rest =>
                    let* exit := body selection source rewrites result in
                    match exit with
                    | GoOn result' => loop rest result'
                    | Return v => Ok v
                    end
                end) selections result = Ok v ->
             v = VNull \/ exists o, v = VObj o).
  { induction selections as [|s sels IH]; intros result H.
    - inversion H. right. now eexists.
    - unfold bind in H. destruct (body s source rewrites result) as [[result'|w]|] eqn:E;
        [now apply (IH result') | | discriminate].
      inversion H; subst. left. now apply (Hreturn s result). }
  destruct source; try apply Hloop. intros H. inversion H. now left.
Qed.

(** X7: whatever the source, the selections and the rewrites, a call of
    [executeSelectionSet] that completes yields [null] or an object. *)
Theorem executeSelectionSet_null_or_object schema source selections activeRewrites v :
  executeSelectionSet schema source selections activeRewrites = Ok v ->
  v = VNull \/ exists o, v = VObj o.
Proof.
  apply selectionLoop_result. intros s res w. apply executeSelection_return.
Qed.

Lemma executeSelectionSet_null_or_object_witness :
  executeSelectionSet nodeSchema (typedUser "1")
    [InlineFragment (Some "Node") [leafField "id"]] None
  = Ok (VObj [("id", VStr "1")])
  /\ (VObj [("id", VStr "1")] = VNull \/ exists o, VObj [("id", VStr "1")] = VObj o).
Proof.
  split; [reflexivity|].
  exact (executeSelectionSet_null_or_object nodeSchema (typedUser "1")
           [InlineFragment (Some "Node") [leafField "id"]] None _ eq_refl).
Defined.

Lemma mapM_pure {A : Type} (xs : list A) : mapM (fun x => Ok x) xs = Ok xs.
Proof.
  induction xs as [|x xs IH]; simpl; [reflexivity|]. now rewrite IH.
Qed.

(** A leaf field without active rewrites, on an object. *)
Lemma executeSelection_leaf schema o responseName result :
  executeSelection schema (leafField responseName) (VObj o) None result
  = Ok (if isDefined (getKey o responseName)
        then GoOn (setKey result responseName (getKey o responseName))
        else Return VNull).
Proof.
  simpl. destruct (getKey o responseName) eqn:E; simpl; try reflexivity.
  now rewrite mapM_pure.
Qed.

(** X8: with leaf fields only and no rewrites, the representation of an
    object that has every selected field is the restriction of the object
    to the selected names: each selected name holds the value of the
    source, and no other name is defined. *)
Theorem leaf_selection_restricts_source schema o names :
  forallb (fun name => isDefined (getKey o name)) names = true ->
  exists representation,
    executeSelectionSet schema (VObj o) (map leafField names) None
    = Ok (VObj representation)
    /\ forall key,
         getKey representation key
         = (if existsb (String.eqb key) names then getKey o key else VUndefined).
Proof.
  intros Hall. unfold executeSelectionSet.
  rewrite selectionLoop_from by discriminate.
  assert (Hloop : forall result,
             exists representation,
               selectionLoopFrom (executeSelection schema) (VObj o) None
                 (map leafField names) result = Ok (VObj representation)
               /\ forall key,
                    getKey representation key
                    = (if existsb (String.eqb key) names then getKey o key
                       else getKey result key)).
  { induction names as [|name names IH]; intros result.
    - eexists. split; reflexivity.
    - simpl in Hall. apply andb_true_iff in Hall as [Hname Hnames].
      cbn [map selectionLoopFrom].
      rewrite executeSelection_leaf, Hname. cbn [bind existsb].
      destruct (IH Hnames (setKey result name (getKey o name))) as (r & Hr & Hkeys).
      exists r. split; [exact Hr|]. intros key. rewrite Hkeys.
      destruct (String.eqb_spec key name) as [->|Hne]; simpl.
      + destruct (existsb (String.eqb name) names); [reflexivity | apply getKey_setKey_same].
      + destruct (existsb (String.eqb key) names); [reflexivity|].
        apply getKey_setKey_other. congruence. }
  destruct (Hloop []) as (r & Hr & Hkeys). exists r. split; [exact Hr|].
  intros key. rewrite Hkeys. now destruct (existsb (String.eqb key) names).
Qed.

Lemma leaf_selection_restricts_source_witness :
  let o := [("__typename", VStr "User"); ("id", VStr "1"); ("email", VStr "a@x")] in
  forallb (fun name => isDefined (getKey o name)) ["__typename"; "id"] = true
  /\ exists representation,
       executeSelectionSet emptySchema (VObj o) userKey None = Ok (VObj representation)
       /\ getKey representation "email" = VUndefined
       /\ getKey representation "id" = VStr "1".
Proof.
  intros o.
  assert (Hall : forallb (fun name => isDefined (getKey o name)) ["__typename"; "id"] = true)
    by reflexivity.
  split; [exact Hall|].
  destruct (leaf_selection_restricts_source emptySchema o ["__typename"; "id"] Hall)
    as (r & Hr & Hkeys).
  exists r. split; [exact Hr|]. split; [apply (Hkeys "email") | apply (Hkeys "id")].
Defined.

Lemma executeSelection_field_goes_on schema name subs source rewrites result result' :
  executeSelection schema (Field name subs) source rewrites result = Ok (GoOn result') ->
  exists x,
    result' = setKey result name x
    /\ (isDefined (completeRewriteIn (updateRewrites rewrites name)) = true ->
        x = completeRewriteIn (updateRewrites rewrites name)).
Proof.
  simpl. unfold bind.
  destruct (getProp source name) as [sourceValue|]; [|discriminate].
  destruct (isDefined sourceValue); simpl; [|discriminate].
  destruct (isDefined (completeRewriteIn (updateRewrites rewrites name))) eqn:Hcomplete.
  - intros H. inversion H. eexists. split; [reflexivity | reflexivity].
  - intros H.
    repeat match type of H with
           | context [match ?x with _ => _ end] => destruct x; try discriminate
           end;
      inversion H; eexists; (split; [reflexivity | discriminate]).
Qed.

(** X9: in a selection set made of fields, a field that the source has
    and for which an active rewrite ends exactly there holds the value of
    the rewrite in the representation, whatever the source holds. *)
Theorem complete_rewrite_replaces_field schema source selections activeRewrites
    representation name subs :
  forallb isField selections = true ->
  executeSelectionSet schema source selections activeRewrites = Ok (VObj representation) ->
  In (Field name subs) selections ->
  isDefined (completeRewriteIn (updateRewrites activeRewrites name)) = true ->
  getKey representation name = completeRewriteIn (updateRewrites activeRewrites name).
Proof.
  intros Hfields Hrun Hin Hcomplete. unfold executeSelectionSet in Hrun.
  assert (Hsource : source <> VNull).
  { intros ->. simpl in Hrun. discriminate. }
  rewrite selectionLoop_from in Hrun by exact Hsource.
  assert (Hloop : forall result,
             selectionLoopFrom (executeSelection schema) source activeRewrites
               selections result = Ok (VObj representation) ->
             In (Field name subs) selections
             \/ getKey result name = completeRewriteIn (updateRewrites activeRewrites name) ->
             getKey representation name
             = completeRewriteIn (updateRewrites activeRewrites name)).
  { clear Hrun Hin. induction selections as [|s sels IH]; intros result Hrun Hor.
    - inversion Hrun; subst. destruct Hor as [[]|H]. exact H.
    - simpl in Hfields. apply andb_true_iff in Hfields as [Hs Hsels].
      destruct s as [g subs'|]; [|discriminate].
      cbn [selectionLoopFrom] in Hrun. unfold bind in Hrun.
      destruct (executeSelection schema (Field g subs') source activeRewrites result)
        as [[result'|w]|] eqn:E; [| |discriminate].
      + destruct (executeSelection_field_goes_on _ _ _ _ _ _ _ E) as (x & -> & Hx).
        apply (IH Hsels _ Hrun).
        destruct Hor as [[Hhead|Hrest]|Hkept]; [right | now left | right].
        * inversion Hhead; subst. rewrite getKey_setKey_same. now apply Hx.
        * destruct (String.eqb_spec g name) as [->|Hne].
          -- rewrite getKey_setKey_same. now apply Hx.
          -- now rewrite getKey_setKey_other.
      + inversion Hrun; subst. now apply executeSelection_return in E. }
  apply (Hloop [] Hrun). now left.
Qed.

Lemma complete_rewrite_replaces_field_witness :
  let rewrites := Some [mkInputRewrite ["id"] (VStr "42")] in
  forallb isField userKey = true
  /\ executeSelectionSet emptySchema (typedUser "1") userKey rewrites
     = Ok (VObj [("__typename", VStr "User"); ("id", VStr "42")])
  /\ getKey [("__typename", VStr "User"); ("id", VStr "42")] "id" = VStr "42".
Proof.
  intros rewrites. split; [reflexivity|]. split; [reflexivity|].
  exact (complete_rewrite_replaces_field emptySchema (typedUser "1") userKey rewrites
           [("__typename", VStr "User"); ("id", VStr "42")] "id" None
           eq_refl eq_refl (or_intror (or_introl eq_refl)) eq_refl).
Defined.

(** *** Output rewrites, continued *)

(** X10: an output rewrite changes nothing outside the nodes it reaches:
    every position of the fetch result that is independent of the reached
    nodes holds the same value after the rewrite. *)
Theorem output_rewrite_frame fetchResult rewrite steps removedKey reached :
  out_path rewrite = steps ++ [removedKey] ->
  walkPath fetchResult (Some (One [])) steps = Ok (Some reached) ->
  viewTruthy fetchResult reached = true ->
  (forall l, l ∈ leavesOfView fetchResult reached -> deref fetchResult l <> VNull) ->
  exists rewritten,
    withFetchRewrites fetchResult (Some [rewrite]) = Ok rewritten
    /\ forall l',
         Forall (fun l => independent l l') (leavesOfView fetchResult reached) ->
         deref rewritten l' = deref fetchResult l'.
Proof.
  intros Hpath Hwalk Htruthy Hnull.
  assert (Hind : viewIndependent reached).
  { now apply (walkPath_independent fetchResult steps (One []) reached I). }
  destruct (rename_leaves removedKey (renameKeyTo rewrite)
              (leavesOfView fetchResult reached) fetchResult
              (leavesOfView_independent _ _ Hind) Hnull)
    as (rewritten & Hfold & _ & Hframe).
  exists rewritten. split; [|exact Hframe].
  unfold withFetchRewrites.
  pose proof (walkPath_truthy _ _ _ _ Hwalk Htruthy) as Hroot. simpl in Hroot.
  rewrite Hroot. simpl. unfold applyOutputRewrite.
  rewrite Hpath, removelast_snoc, last_last, Hwalk. simpl.
  now rewrite Htruthy, Hfold.
Qed.

Lemma output_rewrite_frame_witness :
  let reached := Many [[SKey "accounts"; SIdx 0]; [SKey "accounts"; SIdx 2]] in
  walkPath accountsReply (Some (One [])) ["accounts"; "... on User"] = Ok (Some reached)
  /\ exists rewritten,
       withFetchRewrites accountsReply (Some [accountsRewrite]) = Ok rewritten
       /\ deref rewritten [SKey "accounts"; SIdx 1]
          = VObj [("__typename", VStr "Bot"); ("username", VStr "hal")].
Proof.
  intros reached.
  assert (Hwalk : walkPath accountsReply (Some (One [])) ["accounts"; "... on User"]
                  = Ok (Some reached)) by reflexivity.
  split; [exact Hwalk|].
  destruct (output_rewrite_frame accountsReply accountsRewrite
              ["accounts"; "... on User"] "username" reached
              eq_refl Hwalk eq_refl) as (rewritten & Hrewritten & Hframe).
  { intros l Hl. simpl in Hl.
    apply elem_of_cons in Hl as [->|Hl]; [discriminate|].
    apply list_elem_of_singleton in Hl as ->. discriminate. }
  exists rewritten. split; [exact Hrewritten|].
  rewrite (Hframe [SKey "accounts"; SIdx 1]); [reflexivity|].
  simpl. repeat constructor; intros Hp; apply prefix_cons_inv_2, prefix_cons_inv_1 in Hp;
    discriminate.
Defined.

Lemma substring_whole s : String.substring 0 (String.length s) s = s.
Proof.
  induction s as [|c s IH]; simpl; [reflexivity | now rewrite IH].
Qed.

Lemma prefix_append p s : String.prefix p (p +:+ s) = true.
Proof.
  induction p as [|c p IH].
  - now destruct s.
  - change (String c p +:+ s) with (String c (p +:+ s)).
    change (String.prefix (String c p) (String c (p +:+ s)))
      with (if ascii_dec c c then String.prefix p (p +:+ s) else false).
    destruct (ascii_dec c c); [exact IH | congruence].
Qed.

Lemma walkPath_undefined t steps : walkPath t None steps = Ok None.
Proof. destruct steps; reflexivity. Qed.

(** The step of the walk for a type condition, on an object. *)
Lemma walkStep_condition t typename elt o :
  deref t elt = VObj o ->
  walkStep t (fragmentPrefix +:+ typename) elt
  = Ok (match getKey o typenameField with
        | VStr s => if String.eqb s typename then Some elt else None
        | _ => None
        end).
Proof.
  intros Helt. unfold walkStep. rewrite Helt, prefix_append.
  replace (String.substring (String.length fragmentPrefix)
             (String.length (fragmentPrefix +:+ typename) - String.length fragmentPrefix)
             (fragmentPrefix +:+ typename)) with typename.
  - simpl. unfold typenameField.
    destruct (getKey o "__typename") as [ | | | | s | | ]; try reflexivity.
    now destruct (String.eqb s typename).
  - simpl. rewrite Nat.sub_0_r. symmetry. apply substring_whole.
Qed.

(** X11: applied to the reply of a fetch as a whole, an output rewrite
    whose path starts with a type condition and goes on changes nothing
    unless the reply object itself has that [__typename]: the fields below
    the reply are not searched for the type. *)
Theorem condition_first_rewrite_is_idle o typename rest key :
  rest <> [] ->
  getKey o typenameField <> VStr typename ->
  withFetchRewrites (VObj o)
    (Some [mkOutputRewrite ((fragmentPrefix +:+ typename) :: rest) key])
  = Ok (VObj o).
Proof.
  intros Hrest Htype. unfold withFetchRewrites, applyOutputRewrite. cbn [truthy foldM out_path].
  destruct rest as [|p rest]; [congruence|].
  change (removelast ((fragmentPrefix +:+ typename) :: p :: rest))
    with ((fragmentPrefix +:+ typename) :: removelast (p :: rest)).
  cbn [walkPath viewTruthy deref truthy applyOrMapRecursive].
  rewrite (walkStep_condition (VObj o) typename [] o eq_refl).
  destruct (getKey o typenameField) as [ | | | | s | | ];
    try (cbn [bind option_map]; rewrite walkPath_undefined; reflexivity).
  destruct (String.eqb_spec s typename) as [->|]; [congruence|].
  cbn [bind option_map]. rewrite walkPath_undefined. reflexivity.
Qed.

Lemma condition_first_rewrite_is_idle_witness :
  ["username"] <> []
  /\ getKey [("me", VObj [("__typename", VStr "User"); ("username", VStr "ada")])]
       typenameField <> VStr "User"
  /\ withFetchRewrites meReply (Some [mkOutputRewrite ["... on User"; "username"] "login"])
     = Ok meReply.
Proof.
  assert (H1 : ["username"] <> []) by discriminate.
  assert (H2 : getKey [("me", VObj [("__typename", VStr "User"); ("username", VStr "ada")])]
                 typenameField <> VStr "User") by discriminate.
  split; [exact H1|]. split; [exact H2|].
  exact (condition_first_rewrite_is_idle _ "User" ["username"] "login" H1 H2).
Defined.

(** *** Cursors and sub-plans *)

Lemma deref_app t l l' : deref t (l ++ l') = deref (deref t l) l'.
Proof.
  revert t. induction l as [|[k|i] l IH]; intros t; simpl; [reflexivity| |].
  - destruct t; try (now rewrite deref_undefined); apply IH.
  - destruct t; try (now rewrite deref_undefined).
    destruct (elems !! i); [apply IH | now rewrite deref_undefined].
Qed.

Lemma executeNode_no_cursor context node st : executeNode context node None st = (st, Ok tt).
Proof. now destruct node. Qed.

(** X12: a [Flatten] whose path starts with a field that the object under
    the cursor lacks, or holds as null, runs nothing of its sub-plan,
    whatever the rest of the path and the sub-plan: no request is sent, no
    error is recorded, and the tree stays as it is. *)
Theorem null_field_skips_subplan context k rest child cursor l st :
  cdata cursor = One l ->
  isArray (deref (fullResult st) l) = false ->
  k <> atSign ->
  isNotNullOrUndefined (deref (fullResult st) (l ++ [SKey k])) = false ->
  executeNode context (Flatten (PStr k :: rest) child) (Some cursor) st = (st, Ok tt).
Proof.
  intros Hdata Harray Hk Hnull.
  assert (Hmove : moveIntoCursor (fullResult st) cursor (PStr k :: rest) = Ok None).
  { unfold moveIntoCursor. rewrite Hdata. cbn [flattenResultsAtPath].
    destruct (negb (isNotNullOrUndefined (deref (fullResult st) l))) eqn:Hl.
    - cbn [bind viewTruthy].
      destruct (deref (fullResult st) l); try discriminate; reflexivity.
    - destruct (String.eqb_spec k atSign) as [|_]; [contradiction|].
      rewrite Harray.
      assert (Hrest : flattenResultsAtPath (fullResult st) (One (l ++ [SKey k])) rest
                      = Ok (One (l ++ [SKey k]))).
      { destruct rest; [reflexivity|]. cbn [flattenResultsAtPath]. now rewrite Hnull. }
      rewrite Hrest. cbn [bind viewTruthy].
      destruct (deref (fullResult st) (l ++ [SKey k])); try discriminate; reflexivity. }
  cbn [executeNode]. rewrite Hmove. apply executeNode_no_cursor.
Qed.

Lemma null_field_skips_subplan_witness :
  let st := mkState (VObj [("me", VNull)]) [] 0 in
  isArray (deref (fullResult st) []) = false
  /\ "me" <> atSign
  /\ isNotNullOrUndefined (deref (fullResult st) ([] ++ [SKey "me"])) = false
  /\ executeNode contextS3 (Flatten [PStr "me"; PStr "friends"; PStr "@"] (Fetch emailFetch))
       (Some rootCursor) st
     = (st, Ok tt).
Proof.
  intros st.
  assert (Hk : "me" <> atSign) by discriminate.
  split; [reflexivity|]. split; [exact Hk|]. split; [reflexivity|].
  exact (null_field_skips_subplan contextS3 "me" [PStr "friends"; PStr "@"] (Fetch emailFetch)
           rootCursor [] st eq_refl eq_refl Hk eq_refl).
Defined.

(** *** What the interpretation does to the state *)

Lemma grownBy_refl n st : grownBy n st st.
Proof. unfold grownBy. split; [lia | reflexivity]. Qed.

Lemma grownBy_trans n m st1 st2 st3 :
  grownBy n st1 st2 -> grownBy m st2 st3 -> grownBy (n + m) st1 st3.
Proof.
  unfold grownBy. intros [Hc1 He1] [Hc2 He2]. split; [lia | now transitivity (errors st2)].
Qed.

Lemma sendOperation_effect service fetch cursor vars st :
  calls (sendOperation service fetch cursor vars st).1 = S (calls st)
  /\ errors st `prefix_of` errors (sendOperation service fetch cursor vars st).1.
Proof.
  unfold sendOperation.
  destruct (service _ _) as [response|e]; [|split; reflexivity].
  destruct (responseErrors response) as [errs|]; [|split; reflexivity].
  destruct (mapM _ errs) as [es|e]; simpl; split; try reflexivity.
  now apply prefix_app_r.
Qed.

Lemma executeFetch_effect context fetch cursor st :
  grownBy 1 st (executeFetch context fetch cursor st).1.
Proof.
  unfold executeFetch.
  destruct (serviceMap context (fetchServiceName fetch)) as [service|];
    [|apply grownBy_refl].
  destruct (Nat.ltb _ 1); [apply grownBy_refl|].
  assert (Hsent : forall vars,
            grownBy 1 st (sendOperation service fetch cursor vars st).1).
  { intros vars. destruct (sendOperation_effect service fetch cursor vars st) as [Hc He].
    unfold grownBy. split; [lia | exact He]. }
  destruct (requires fetch) as [sels|].
  - destruct (buildRepresentations _ _ _ _ _) as [[representations representationToEntity]|e];
      [|apply grownBy_refl].
    destruct (Nat.ltb _ 1); [apply grownBy_refl|].
    destruct (hasKey _ _); [apply grownBy_refl|].
    specialize (Hsent (setKey (collectVariables fetch (requestVariables context))
                         "representations" (VArr representations))).
    destruct (sendOperation _ _ _ _ _) as [st1 [data|e]]; [|exact Hsent].
    destruct (negb (truthy data)); [exact Hsent|].
    destruct (getProp data "_entities") as [[ | | | | |receivedEntities| ]|e]; try exact Hsent.
    destruct (negb _); [exact Hsent|].
    destruct (mergeEntities _ _ _ _ _) as [entities' outcome]. exact Hsent.
  - specialize (Hsent (collectVariables fetch (requestVariables context))).
    destruct (sendOperation _ _ _ _ _) as [st1 [data|e]]; [|exact Hsent].
    destruct (mergeIntoAll _ _ _) as [entities' outcome]. exact Hsent.
Qed.

Lemma runSequence_effect (exec : PlanNode -> ExecutionState -> ExecutionState * completion unit)
    nodes :
  Forall (fun n => forall st, grownBy (countFetches n) st (exec n st).1) nodes ->
  forall st, grownBy (list_sum (map countFetches nodes)) st (runSequence exec nodes st).1.
Proof.
  induction 1 as [|n nodes Hn _ IH]; intros st; simpl; [apply grownBy_refl|].
  specialize (Hn st). destruct (exec n st) as [st1 [[]|e]]; simpl in *.
  - apply (grownBy_trans _ _ st st1); [exact Hn | apply IH].
  - destruct Hn as [Hc He]. split; [lia | exact He].
Qed.

Lemma runParallel_effect (exec : PlanNode -> ExecutionState -> ExecutionState * completion unit)
    nodes :
  Forall (fun n => forall st, grownBy (countFetches n) st (exec n st).1) nodes ->
  forall st, grownBy (list_sum (map countFetches nodes)) st (runParallel exec nodes st).1.
Proof.
  induction 1 as [|n nodes Hn _ IH]; intros st; simpl; [apply grownBy_refl|].
  specialize (Hn st). destruct (exec n st) as [st1 [[]|e]]; simpl in *;
    apply (grownBy_trans _ _ st st1); solve [exact Hn | apply IH].
Qed.

(** X13: whatever the plan, the cursor and the replies, the interpretation
    sends at most one request per [Fetch] node of the plan, however many
    entities the cursor holds, and it only adds to the recorded errors:
    the errors recorded before are kept, in their order. *)
Theorem requests_bounded_by_fetch_nodes context node cursor st :
  calls st <= calls (executeNode context node cursor st).1
           <= calls st + countFetches node
  /\ errors st `prefix_of` errors (executeNode context node cursor st).1.
Proof.
  change (grownBy (countFetches node) st (executeNode context node cursor st).1).
  revert cursor st.
  induction node as [nodes IH|nodes IH|path child IH|fetch| |] using plan_induction;
    intros [cursor|] st; try apply grownBy_refl.
  - cbn [executeNode countFetches]. apply runSequence_effect.
    eapply Forall_impl; [exact IH|]. intros n Hn st0. apply Hn.
  - cbn [executeNode countFetches]. apply runParallel_effect.
    eapply Forall_impl; [exact IH|]. intros n Hn st0. apply Hn.
  - cbn [executeNode countFetches].
    destruct (moveIntoCursor (fullResult st) cursor path) as [moved|e];
      [apply IH | apply grownBy_refl].
  - cbn [executeNode countFetches].
    pose proof (executeFetch_effect context fetch cursor st) as Hfetch.
    destruct (executeFetch context fetch cursor st) as [st1 [[]|e]]; [exact Hfetch|].
    simpl in *. destruct Hfetch as [Hc He]. split; [exact Hc|].
    now apply prefix_app_r.
Qed.

(** *** The exceptions of the interpretation *)








Lemma executeNode_Fetch_completes context fetch cursor st :
  (executeNode context (Fetch fetch) cursor st).2 = Ok tt.
Proof.
  destruct cursor as [cursor|]; [|reflexivity]. cbn [executeNode].
  now destruct (executeFetch context fetch cursor st) as [st1 [[]|e]].
Qed.

Lemma executeNode_Fetch_grows context fetch cursor st :
  errors st `prefix_of` errors (executeNode context (Fetch fetch) cursor st).1.
Proof.
  destruct cursor as [cursor|]; [|reflexivity]. cbn [executeNode].
  destruct (executeFetch_effect context fetch cursor st) as [_ Hgrows].
  destruct (executeFetch context fetch cursor st) as [st1 [[]|e]]; [exact Hgrows|].
  simpl in *. now apply prefix_app_r.
Qed.

Lemma runSequence_fetches context cursor fetches : forall st,
  runSequence (fun n => executeNode context n (Some cursor)) (map Fetch fetches) st
  = (fold_left (fun st' fetch => (executeNode context (Fetch fetch) (Some cursor) st').1)
       fetches st,
     Ok tt).
Proof.
  induction fetches as [|fetch fetches IH]; intros st; [reflexivity|].
  cbn [map runSequence fold_left].
  pose proof (executeNode_Fetch_completes context fetch (Some cursor) st) as Hdone.
  destruct (executeNode context (Fetch fetch) (Some cursor) st) as [st1 outcome].
  simpl in Hdone. subst outcome. apply IH.
Qed.

Lemma fetches_keep_errors context cursor fetches : forall st,
  errors st `prefix_of`
  errors (fold_left (fun st' fetch => (executeNode context (Fetch fetch) (Some cursor) st').1)
            fetches st).
Proof.
  induction fetches as [|fetch fetches IH]; intros st; [reflexivity|].
  cbn [fold_left]. etransitivity; [|apply IH]. apply executeNode_Fetch_grows.
Qed.

(** X15: a plan that is a sequence of fetches always ends in an envelope,
    and no fetch stops the others: every fetch of the list is run, in
    order, on the state the fetch before it left, whether that fetch
    failed or not.  In particular each fetch whose service is not known
    leaves its error among the recorded errors, wherever it stands in the
    list. *)
Theorem fetch_failures_do_not_abort context fetches computeResponse :
  let plan := mkQueryPlan (Some (Sequence (map Fetch fetches))) in
  let st := fold_left (fun st' fetch =>
                         (executeNode context (Fetch fetch) (Some rootCursor) st').1)
              fetches initialState in
  runPlan plan context = (st, Ok tt)
  /\ executeQueryPlan plan context computeResponse = Ok (postProcess computeResponse st)
  /\ forall fetch,
       In fetch fetches ->
       serviceMap context (fetchServiceName fetch) = None ->
       ExError (missingServiceMessage (fetchServiceName fetch)) ∈ errors st.
Proof.
  intros plan st.
  assert (Hrun : runPlan plan context = (st, Ok tt)).
  { unfold runPlan, plan. cbn [planNode executeNode]. apply runSequence_fetches. }
  split; [exact Hrun|]. split; [now apply executeQueryPlan_completed|].
  intros fetch Hin Hmissing. unfold st. clear Hrun st plan.
  generalize initialState.
  induction fetches as [|first fetches IH]; intros st; [destruct Hin|].
  cbn [fold_left]. destruct Hin as [->|Hin]; [|now apply IH].
  eapply elem_of_prefix; [|apply fetches_keep_errors].
  cbn [executeNode]. unfold executeFetch. rewrite Hmissing. cbn [fst pushError errors].
  apply elem_of_app. right. left.
Qed.

Lemma fetch_failures_do_not_abort_witness :
  let context := contextOf (fun name =>
                   if String.eqb name "A"
                   then Some (replying (VObj [("users", VArr [typedUser "1"])]) None)
                   else None) in
  let plan := mkQueryPlan (Some (Sequence (map Fetch [emailFetch; usersFetch; emailFetch]))) in
  In emailFetch [emailFetch; usersFetch; emailFetch]
  /\ serviceMap context (fetchServiceName emailFetch) = None
  /\ ExError (missingServiceMessage "B") ∈ errors (runPlan plan context).1
  /\ executeQueryPlan plan context identityResponse
     = Ok (mkResult (VObj [("users", VArr [typedUser "1"])])
             (Some [ExError (missingServiceMessage "B"); ExError (missingServiceMessage "B")])).
Proof.
  intros context plan.
  destruct (fetch_failures_do_not_abort context [emailFetch; usersFetch; emailFetch]
              identityResponse) as (Hrun & Henvelope & Hmissing).
  split; [left; reflexivity|]. split; [reflexivity|]. split.
  - unfold plan. rewrite Hrun. exact (Hmissing emailFetch (or_introl eq_refl) eq_refl).
  - unfold plan. rewrite Henvelope. vm_compute. reflexivity.
Defined.

(** *** What a fetch writes *)

Lemma storeEntities_frame l' locs : forall t vs,
  Forall (fun l => independent l l') locs ->
  deref (storeEntities t locs vs) l' = deref t l'.
Proof.
  unfold storeEntities.
  induction locs as [|l locs IH]; intros t vs Hind; [reflexivity|].
  destruct vs as [|v vs]; [reflexivity|].
  apply Forall_cons in Hind as [Hl Hlocs]. simpl.
  rewrite IH by exact Hlocs. now apply deref_writeAt_independent.
Qed.

(** X16: a fetch writes into the response tree at the entities of its
    cursor and nowhere else: every position that is neither inside nor
    above one of these entities holds after the fetch what it held
    before, whatever the service replies. *)
Theorem fetch_writes_only_at_entities context fetch cursor st l' :
  Forall (fun l => independent l l') (collectEntities (fullResult st) cursor) ->
  deref (fullResult (executeFetch context fetch cursor st).1) l' = deref (fullResult st) l'.
Proof.
  intros Hind. unfold executeFetch.
  destruct (serviceMap context (fetchServiceName fetch)) as [service|]; [|reflexivity].
  destruct (Nat.ltb _ 1); [reflexivity|].
  assert (Hsent : forall vars,
            fullResult (sendOperation service fetch cursor vars st).1 = fullResult st)
    by (intros vars; apply sendOperation_fullResult).
  destruct (requires fetch) as [sels|].
  - destruct (buildRepresentations _ _ _ _ _) as [[representations representationToEntity]|e];
      [|reflexivity].
    destruct (Nat.ltb _ 1); [reflexivity|].
    destruct (hasKey _ _); [reflexivity|].
    specialize (Hsent (setKey (collectVariables fetch (requestVariables context))
                         "representations" (VArr representations))).
    destruct (sendOperation _ _ _ _ _) as [st1 [data|e]]; simpl in Hsent;
      [|cbn [fst]; now rewrite Hsent].
    destruct (negb (truthy data)); [cbn [fst]; now rewrite Hsent|].
    destruct (getProp data "_entities") as [[ | | | | |receivedEntities| ]|e];
      try (cbn [fst]; now rewrite Hsent).
    destruct (negb _); [cbn [fst]; now rewrite Hsent|].
    destruct (mergeEntities _ _ _ _ _) as [entities' outcome]. cbn [fst withTree fullResult].
    rewrite Hsent. now apply storeEntities_frame.
  - specialize (Hsent (collectVariables fetch (requestVariables context))).
    destruct (sendOperation _ _ _ _ _) as [st1 [data|e]]; simpl in Hsent;
      [|cbn [fst]; now rewrite Hsent].
    destruct (mergeIntoAll _ _ _) as [entities' outcome]. cbn [fst withTree fullResult].
    rewrite Hsent. now apply storeEntities_frame.
Qed.

Lemma fetch_writes_only_at_entities_witness :
  let st := mkState (VObj [("users", VArr [typedUser "1"; typedUser "2"])]) [] 1 in
  let cursor := mkCursor usersPath (Many [[SKey "users"; SIdx 0]]) in
  deref (fullResult (executeFetch contextS4 emailFetch cursor st).1) [SKey "users"; SIdx 0]
  = VObj [("__typename", VStr "User"); ("id", VStr "1"); ("email", VStr "a@x")]
  /\ deref (fullResult (executeFetch contextS4 emailFetch cursor st).1) [SKey "users"; SIdx 1]
     = typedUser "2".
Proof.
  intros st cursor. split; [vm_compute; reflexivity|].
  rewrite (fetch_writes_only_at_entities contextS4 emailFetch cursor st [SKey "users"; SIdx 1]);
    [reflexivity|].
  simpl. repeat constructor; intros Hp; apply prefix_cons_inv_2, prefix_cons_inv_1 in Hp;
    discriminate.
Defined.

(** *** The requests of a fetch *)

Lemma sendOperation_ext service service' fetch cursor vars st :
  service' (calls st) (mkRequest (operation fetch) vars (operationName fetch))
  = service (calls st) (mkRequest (operation fetch) vars (operationName fetch)) ->
  sendOperation service' fetch cursor vars st = sendOperation service fetch cursor vars st.
Proof. intros Hsame. unfold sendOperation. now rewrite Hsame. Qed.

Lemma viable_representations representations :
  Forall (fun representation =>
            truthy representation = true
            /\ exists tn, getProp representation typenameField = Ok tn /\ truthy tn = true)
         representations ->
  forallb viableRepresentation representations = true.
Proof.
  induction 1 as [|r rs [_ (tn & Htn & Htruthy)] _ IH]; [reflexivity|].
  simpl. rewrite IH, andb_true_r.
  destruct r; simpl in Htn; inversion Htn; subst; try discriminate. exact Htruthy.
Qed.

(** X17: the result of a fetch depends on its service only through the
    replies to viable requests: two services that agree on every request
    that carries the operation of the fetch and, for an entity fetch, a
    non-empty list of representations that are objects with a truthy
    [__typename], give the same result.  So a fetch never sends an empty
    list of representations, nor a representation without its type. *)
Theorem only_viable_requests_are_sent context context' fetch cursor st service service' :
  serviceMap context (fetchServiceName fetch) = Some service ->
  serviceMap context' (fetchServiceName fetch) = Some service' ->
  requestVariables context' = requestVariables context ->
  supergraphSchema context' = supergraphSchema context ->
  (forall n request, viableRequest fetch request = true ->
     service' n request = service n request) ->
  executeFetch context' fetch cursor st = executeFetch context fetch cursor st.
Proof.
  intros Hservice Hservice' Hvars Hschema Hagree.
  unfold executeFetch. rewrite Hservice, Hservice', Hvars, Hschema.
  destruct (Nat.ltb _ 1); [reflexivity|].
  destruct (requires fetch) as [sels|] eqn:Hrequires.
  - destruct (buildRepresentations _ _ _ _ _) as [[representations representationToEntity]|e]
      eqn:Hbuilt; [|reflexivity].
    destruct (Nat.ltb (length representations) 1) eqn:Hsome; [reflexivity|].
    destruct (hasKey _ _); [reflexivity|].
    rewrite (sendOperation_ext service service'); [reflexivity|].
    apply Hagree. unfold viableRequest. rewrite Hrequires. cbn [query variables].
    rewrite String.eqb_refl, getKey_setKey_same. cbn [andb].
    pose proof (viable_representations _ (representations_are_viable _ _ _ _ _ _ _ Hbuilt))
      as Hviable.
    destruct representations as [|r rs]; [discriminate | exact Hviable].
  - rewrite (sendOperation_ext service service'); [reflexivity|].
    apply Hagree. unfold viableRequest. rewrite Hrequires. cbn [query].
    now rewrite String.eqb_refl.
Qed.

Lemma only_viable_requests_are_sent_witness :
  let strict : GraphQLDataSource :=
    fun n request =>
      if viableRequest emailFetch request
      then replying (entitiesReply [emailOf "a@x"]) None n request
      else Throw (ExError "not viable") in
  let context' :=
    contextOf (twoServices
                 (replying (VObj [("users", VArr [typedUser "1"; keylessUser])]) None)
                 strict) in
  let st := mkState (VObj [("users", VArr [typedUser "1"; keylessUser])]) [] 1 in
  let cursor := mkCursor usersPath (Many [[SKey "users"; SIdx 0]; [SKey "users"; SIdx 1]]) in
  executeFetch context' emailFetch cursor st = executeFetch contextS4 emailFetch cursor st
  /\ errors (executeFetch context' emailFetch cursor st).1 = [].
Proof.
  intros strict context' st cursor. split; [|vm_compute; reflexivity].
  apply (only_viable_requests_are_sent contextS4 context' emailFetch cursor st
           (replying (entitiesReply [emailOf "a@x"]) None) strict);
    try reflexivity.
  intros n request Hviable. unfold strict. now rewrite Hviable.
Defined.

(** *** The errors a subgraph reports *)

Lemma downstreamServiceError_stamped error service generateErrorPath e :
  downstreamServiceError error service generateErrorPath = Ok e ->
  exists g,
    e = ExGraphQLError g
    /\ serviceName g = Some service
    /\ message g <> ""
    /\ (formattedMessage error <> "" -> message g = formattedMessage error)
    /\ generateErrorPath (formattedPath error) = Ok (path g).
Proof.
  unfold downstreamServiceError, bind.
  destruct (generateErrorPath (formattedPath error)) as [p|]; [|discriminate].
  intros H. inversion H; subst. eexists. split; [reflexivity|]. simpl.
  split; [reflexivity|].
  destruct (String.eqb_spec (formattedMessage error) "") as [Hempty|Hmessage].
  - split; [discriminate|]. split; [congruence | reflexivity].
  - split; [exact Hmessage|]. split; reflexivity.
Qed.

(** X18: when a request completes, the data of the reply is returned
    whether or not the reply reports errors, and the errors recorded are
    those the reply reports, one for one and in their order, after the
    errors recorded before.  Each is a GraphQLError that names the service
    of the fetch and has a message: the reported one unless it is empty.
    For a fetch without [requires], its path is the path of the cursor
    followed by the reported path, and absent when none is reported. *)
Theorem subgraph_errors_are_stamped service fetch cursor vars st st' data :
  sendOperation service fetch cursor vars st = (st', Ok data) ->
  exists response es,
    service (calls st) (mkRequest (operation fetch) vars (operationName fetch)) = Ok response
    /\ data = responseData response
    /\ errors st' = errors st ++ es
    /\ Forall2 (fun error e =>
                  exists g,
                    e = ExGraphQLError g
                    /\ serviceName g = Some (fetchServiceName fetch)
                    /\ message g <> ""
                    /\ (formattedMessage error <> "" -> message g = formattedMessage error)
                    /\ (requires fetch = None ->
                        path g = option_map (app (cpath cursor)) (formattedPath error)))
               (match responseErrors response with Some errs => errs | None => [] end) es.
Proof.
  unfold sendOperation.
  destruct (service _ _) as [response|e]; [|intros H; inversion H].
  destruct (responseErrors response) as [errs|] eqn:Herrs.
  - destruct (mapM _ errs) as [es|e] eqn:Hes; intros H; inversion H; subst.
    exists response, es. rewrite Herrs. repeat split; try reflexivity.
    apply mapM_Forall2 in Hes. clear H Herrs.
    induction Hes as [|error e errs es Hstamped _ IH]; constructor; [|exact IH].
    apply downstreamServiceError_stamped in Hstamped
      as (g & -> & Hservice & Hmessage & Hkept & Hpath).
    exists g. repeat split; try assumption.
    intros Hrequires. unfold makeLazyErrorPathGenerator in Hpath. rewrite Hrequires in Hpath.
    destruct (formattedPath error); inversion Hpath; reflexivity.
  - intros H. inversion H; subst. exists response, []. rewrite Herrs.
    repeat split; try constructor. simpl. now rewrite app_nil_r.
Qed.

Lemma subgraph_errors_are_stamped_witness :
  let service := replying (VObj [("users", VNull)])
                   (Some [mkFormattedError "" None;
                          mkFormattedError "no users" (Some [PStr "users"])]) in
  let st' := mkState (VObj []) 
               [ExGraphQLError
                  (mkGraphQLError
                     ("Error while fetching subquery from service " +:+ dq +:+ "A" +:+ dq)
                     None (Some "A"));
                ExGraphQLError (mkGraphQLError "no users" (Some [PStr "users"]) (Some "A"))]
               1 in
  sendOperation service usersFetch rootCursor [] initialState
  = (st', Ok (VObj [("users", VNull)]))
  /\ exists response es,
       service 0 (mkRequest (operation usersFetch) [] (operationName usersFetch)) = Ok response
       /\ VObj [("users", VNull)] = responseData response
       /\ errors st' = errors initialState ++ es
       /\ Forall2 (fun error e =>
                     exists g,
                       e = ExGraphQLError g
                       /\ serviceName g = Some (fetchServiceName usersFetch)
                       /\ message g <> ""
                       /\ (formattedMessage error <> "" -> message g = formattedMessage error)
                       /\ (requires usersFetch = None ->
                           path g = option_map (app (cpath rootCursor)) (formattedPath error)))
                  (match responseErrors response with Some errs => errs | None => [] end) es.
Proof.
  intros service st'.
  assert (Hsent : sendOperation service usersFetch rootCursor [] initialState
                  = (st', Ok (VObj [("users", VNull)]))) by reflexivity.
  split; [exact Hsent|].
  exact (subgraph_errors_are_stamped service usersFetch rootCursor [] initialState st'
           (VObj [("users", VNull)]) Hsent).
Defined.

(** *** Hydrated paths *)

Lemma entries_elem (f : nat -> value -> completion (list ResponsePath)) es : forall i ps p,
  (fix entries (es : list value) (i : nat) : completion (list ResponsePath) :=
     match es with
     | [] => Ok []
     | value :: es' =>
         let* here := f i value in
         let* others := entries es' (S i) in
         Ok (here ++ others)
     end) es i = Ok ps ->
  p ∈ ps ->
  exists j v here, es !! j = Some v /\ f (i + j) v = Ok here /\ p ∈ here.
Proof.
  induction es as [|v es IH]; intros i ps p.
  - intros H. inversion H. intros Hp. inversion Hp.
  - unfold bind at 1. destruct (f i v) as [here|] eqn:Hhere; [|discriminate].
    match goal with |- context [bind ?c _] => destruct c as [others|] eqn:Hothers end;
      [|discriminate].
    simpl. intros H. inversion H; subst. intros Hp. apply elem_of_app in Hp as [Hp|Hp].
    + exists 0, v, here. rewrite Nat.add_0_r. auto.
    + destruct (IH _ _ _ Hothers Hp) as (j & v' & here' & Hj & Hf & Hin).
      exists (S j), v', here'. rewrite Nat.add_succ_r. auto.
Qed.

(** The paths generated under [parent] extend it by the field names of
    the plan path, with indices in between and no placeholder. *)
Lemma generateHydratedPaths_suffix path : forall parent data ps p,
  generateHydratedPaths parent path data = Ok ps ->
  p ∈ ps ->
  exists suffix,
    p = parent ++ suffix
    /\ fieldNames suffix = fieldNames path
    /\ Forall (fun elem => elem <> PStr atSign) suffix.
Proof.
  induction path as [|[head|n] rest IH]; intros parent data ps p.
  - simpl. destruct (negb (isNotNullOrUndefined data)); intros H; inversion H; subst;
      intros Hp; [inversion Hp|].
    apply list_elem_of_singleton in Hp as ->. exists []. now rewrite app_nil_r.
  - cbn [generateHydratedPaths].
    destruct (negb (isNotNullOrUndefined data)) eqn:Hnull.
    { intros H; inversion H; subst. intros Hp; inversion Hp. }
    destruct (String.eqb_spec head atSign) as [->|Hhead].
    + destruct data as [ | | | | |es| ]; try discriminate.
      intros Hes Hp.
      destruct (entries_elem _ _ _ _ _ Hes Hp) as (j & v & here & _ & Hhere & Hin).
      destruct (IH _ _ _ _ Hhere Hin) as (suffix & -> & Hnames & Hclean).
      exists (PNum (Z.of_nat (0 + j)) :: suffix). rewrite <- app_assoc.
      split; [reflexivity|]. split; [exact Hnames|].
      constructor; [discriminate | exact Hclean].
    + assert (Hfield : fieldNames (PStr head :: rest) = head :: fieldNames rest).
      { unfold fieldNames. cbn [omap list_omap].
        now destruct (String.eqb_spec head atSign). }
      rewrite Hfield. clear Hnull Hfield. revert parent ps p.
      induction data as [ | |b|n|s|es IHes|fields _] using value_induction;
        intros parent ps p; try discriminate;
        try (intros H; inversion H; subst; intros Hp; now inversion Hp).
      * intros Hes Hp.
        destruct (entries_elem _ _ _ _ _ Hes Hp) as (j & v & here & Hj & Hhere & Hin).
        rewrite Forall_lookup in IHes.
        destruct (IHes _ _ Hj _ _ _ Hhere Hin) as (suffix & -> & Hnames & Hclean).
        exists (PNum (Z.of_nat (0 + j)) :: suffix). rewrite <- app_assoc.
        split; [reflexivity|]. split; [exact Hnames|].
        constructor; [discriminate | exact Hclean].
      * destruct (hasKey fields head);
          [|intros H; inversion H; subst; intros Hp; now inversion Hp].
        intros Hhere Hin.
        destruct (IH _ _ _ _ Hhere Hin) as (suffix & -> & Hnames & Hclean).
        exists (PStr head :: suffix). rewrite <- app_assoc.
        split; [reflexivity|]. split.
        -- unfold fieldNames. cbn [omap list_omap].
           destruct (String.eqb_spec head atSign); [contradiction|].
           now f_equal.
        -- constructor; [congruence | exact Hclean].
  - simpl. destruct (negb (isNotNullOrUndefined data)); intros H; inversion H; subst.
    intros Hp; inversion Hp.
Qed.


Lemma entries_incl (f : nat -> value -> completion (list ResponsePath)) es : forall i ps j v,
  (fix entries (es : list value) (i : nat) : completion (list ResponsePath) :=
     match es with
     | [] => Ok []
     | value :: es' =>
         let* here := f i value in
         let* others := entries es' (S i) in
         Ok (here ++ others)
     end) es i = Ok ps ->
  es !! j = Some v ->
  exists here, f (i + j) v = Ok here /\ forall p, p ∈ here -> p ∈ ps.
Proof.
  induction es as [|v0 es IH]; intros i ps j v; [intros _ Hj; destruct j; discriminate|].
  unfold bind at 1. destruct (f i v0) as [here|] eqn:Hhere; [|discriminate].
  match goal with |- context [bind ?c _] => destruct c as [others|] eqn:Hothers end;
    [|discriminate].
  cbn [bind]. intros H Hj. injection H as <-. destruct j as [|j].
  - injection Hj as <-. exists here. rewrite Nat.add_0_r. split; [exact Hhere|].
    intros p Hp. apply elem_of_app. now left.
  - destruct (IH _ _ _ _ Hothers Hj) as (here' & Hf & Hincl).
    exists here'. rewrite Nat.add_succ_r. split; [exact Hf|].
    intros p Hp. apply elem_of_app. right. now apply Hincl.
Qed.

(** The paths generated are hydrations of the plan path in the data. *)
Lemma generateHydratedPaths_sound path : forall parent data ps p,
  generateHydratedPaths parent path data = Ok ps ->
  p ∈ ps ->
  exists suffix, p = parent ++ suffix /\ hydrates suffix path data = true.
Proof.
  induction path as [|[head|n] rest IH]; intros parent data ps p.
  - simpl. destruct (isNotNullOrUndefined data) eqn:Hlive; intros H; inversion H; subst;
      intros Hp; [|inversion Hp].
    apply list_elem_of_singleton in Hp as ->. exists []. now rewrite app_nil_r.
  - cbn [generateHydratedPaths].
    destruct (negb (isNotNullOrUndefined data)) eqn:Hnull.
    { intros H; inversion H; subst. intros Hp; inversion Hp. }
    destruct (String.eqb head atSign) eqn:Hhead.
    + destruct data as [ | | | | |es| ]; try discriminate.
      intros Hes Hp.
      destruct (entries_elem _ _ _ _ _ Hes Hp) as (j & v & here & Hj & Hhere & Hin).
      destruct (IH _ _ _ _ Hhere Hin) as (suffix & -> & Hsuffix).
      exists (PNum (Z.of_nat (0 + j)) :: suffix). rewrite <- app_assoc.
      split; [reflexivity|]. cbn [hydrates Nat.add]. rewrite Hhead, Nat2Z.id, Hj.
      now destruct (Z.leb_spec 0 (Z.of_nat j)); [|lia].
    + clear Hnull. revert parent ps p.
      induction data as [ | |b|n|s|es IHes|fields _] using value_induction;
        intros parent ps p; try discriminate;
        try (intros H; inversion H; subst; intros Hp; now inversion Hp).
      * intros Hes Hp.
        destruct (entries_elem _ _ _ _ _ Hes Hp) as (j & v & here & Hj & Hhere & Hin).
        rewrite Forall_lookup in IHes.
        destruct (IHes _ _ Hj _ _ _ Hhere Hin) as (suffix & -> & Hsuffix).
        exists (PNum (Z.of_nat (0 + j)) :: suffix). rewrite <- app_assoc.
        split; [reflexivity|]. cbn [hydrates Nat.add]. rewrite Hhead, Nat2Z.id, Hj.
        now destruct (Z.leb_spec 0 (Z.of_nat j)); [|lia].
      * destruct (hasKey fields head) eqn:Hkey;
          [|intros H; inversion H; subst; intros Hp; now inversion Hp].
        intros Hhere Hin.
        destruct (IH _ _ _ _ Hhere Hin) as (suffix & -> & Hsuffix).
        exists (PStr head :: suffix). rewrite <- app_assoc.
        split; [reflexivity|]. cbn [hydrates].
        now rewrite String.eqb_refl, Hhead, Hkey, Hsuffix.
  - simpl. destruct (negb (isNotNullOrUndefined data)); intros H; inversion H; subst.
    intros Hp; inversion Hp.
Qed.

(** Every hydration of the plan path in the data is generated. *)
Lemma generateHydratedPaths_complete suffix : forall path parent data ps,
  generateHydratedPaths parent path data = Ok ps ->
  hydrates suffix path data = true ->
  parent ++ suffix ∈ ps.
Proof.
  induction suffix as [|[k|i] suffix IH]; intros path parent data ps.
  - destruct path as [|elem path]; [|discriminate]. cbn [hydrates generateHydratedPaths].
    intros Hps Hlive. rewrite Hlive in Hps. injection Hps as <-.
    rewrite app_nil_r. left.
  - cbn [hydrates]. destruct data as [ | | | | | |o]; try discriminate.
    destruct path as [|[s|n] rest]; try discriminate.
    intros Hps Hall.
    apply andb_true_iff in Hall as [Hall Hsuffix].
    apply andb_true_iff in Hall as [Hall Hkey].
    apply andb_true_iff in Hall as [Hsame Hfield].
    apply String.eqb_eq in Hsame as ->. apply negb_true_iff in Hfield.
    cbn [generateHydratedPaths isNotNullOrUndefined negb] in Hps.
    rewrite Hfield, Hkey in Hps.
    replace (parent ++ PStr k :: suffix) with ((parent ++ [PStr k]) ++ suffix)
      by now rewrite <- app_assoc.
    exact (IH _ _ _ _ Hps Hsuffix).
  - cbn [hydrates]. destruct data as [ | | | | |es| ]; try discriminate.
    destruct path as [|[s|n] rest]; try discriminate.
    intros Hps Hall.
    apply andb_true_iff in Hall as [Hindex Hall]. apply Z.leb_le in Hindex.
    destruct (es !! Z.to_nat i) as [v|] eqn:Hv; [|discriminate].
    replace (parent ++ PNum i :: suffix)
      with ((parent ++ [PNum (Z.of_nat (0 + Z.to_nat i))]) ++ suffix)
      by (rewrite <- app_assoc; simpl; now rewrite Z2Nat.id).
    cbn [generateHydratedPaths isNotNullOrUndefined negb] in Hps.
    destruct (String.eqb s atSign) eqn:Hs.
    + destruct (entries_incl _ _ _ _ _ _ Hps Hv) as (here & Hhere & Hincl).
      apply Hincl. exact (IH _ _ _ _ Hhere Hall).
    + destruct (entries_incl _ _ _ _ _ _ Hps Hv) as (here & Hhere & Hincl).
      apply Hincl. apply (IH (PStr s :: rest) _ v); [|exact Hall].
      rewrite <- Hhere. cbn [generateHydratedPaths]. rewrite Hs. now destruct v.
Qed.

(** X19: the hydrated paths of a plan path are exactly its hydrations in
    the data: the paths that follow the plan path down to a value that is
    neither null nor undefined, with the index of an array element in
    place of each placeholder and wherever the data has an array, and the
    field names of the plan path, in their order, everywhere else.  So a
    hydrated path has the field names of the plan path and holds no
    placeholder. *)
Theorem hydrated_paths_follow_the_plan_path path data ps p :
  generateHydratedPaths [] path data = Ok ps ->
  (p ∈ ps <-> hydrates p path data = true)
  /\ (p ∈ ps ->
      fieldNames p = fieldNames path /\ Forall (fun elem => elem <> PStr atSign) p).
Proof.
  intros Hps. split; [split|].
  - intros Hp.
    now destruct (generateHydratedPaths_sound path [] data ps p Hps Hp) as (suffix & -> & H).
  - intros Hp. exact (generateHydratedPaths_complete p path [] data ps Hps Hp).
  - intros Hp.
    destruct (generateHydratedPaths_suffix path [] data ps p Hps Hp) as (suffix & -> & H).
    exact H.
Qed.

Lemma hydrated_paths_follow_the_plan_path_witness :
  let path := [PStr "foo"; PStr "@"; PStr "bar"; PStr "@"] in
  let p := [PStr "foo"; PNum 1; PStr "bar"; PNum 0] in
  generateHydratedPaths [] path fooBars
  = Ok [[PStr "foo"; PNum 0; PStr "bar"; PNum 0]; [PStr "foo"; PNum 0; PStr "bar"; PNum 1];
        [PStr "foo"; PNum 1; PStr "bar"; PNum 0]; [PStr "foo"; PNum 1; PStr "bar"; PNum 1]]
  /\ hydrates p path fooBars = true
  /\ hydrates [PStr "foo"; PStr "bar"] path fooBars = false
  /\ fieldNames p = fieldNames path
  /\ Forall (fun elem => elem <> PStr atSign) p.
Proof.
  intros path p.
  assert (Hp : p ∈ [[PStr "foo"; PNum 0; PStr "bar"; PNum 0];
                    [PStr "foo"; PNum 0; PStr "bar"; PNum 1];
                    [PStr "foo"; PNum 1; PStr "bar"; PNum 0];
                    [PStr "foo"; PNum 1; PStr "bar"; PNum 1]])
    by (right; right; left).
  destruct (hydrated_paths_follow_the_plan_path path fooBars _ p eq_refl) as [Hiff Hnames].
  split; [reflexivity|]. split; [exact (proj1 Hiff Hp)|]. split; [reflexivity|].
  exact (Hnames Hp).
Defined.

(** *** Fragments in a selection set *)

(** X20: an inline fragment adds nothing to a representation, and stops
    nothing, when it has no type condition, when the source has no truthy
    [__typename], or when the condition does not match the type of the
    source: the selection set gives what it gives without the fragment,
    wherever the fragment stands and whatever it selects. *)
Theorem unmatched_fragment_adds_nothing schema source before typeCondition sels after
    rewrites :
  match typeCondition with
  | None => True
  | Some cond =>
      forall typename,
        getProp source typenameField = Ok typename ->
        truthy typename = true ->
        doesTypeConditionMatch schema cond typename = false
  end ->
  executeSelectionSet schema source (before ++ InlineFragment typeCondition sels :: after)
    rewrites
  = executeSelectionSet schema source (before ++ after) rewrites.
Proof.
  intros Hunmatched. unfold executeSelectionSet.
  assert (Hcases : source = VNull \/ source <> VNull)
    by (destruct source; (now left) || (right; discriminate)).
  destruct Hcases as [->|Hsource]; [reflexivity|].
  rewrite !selectionLoop_from by exact Hsource.
  apply selectionLoopFrom_skip. intros result. cbn [executeSelection].
  destruct typeCondition as [cond|]; [|reflexivity].
  destruct (truthy source) eqn:Htruthy; cbn [bind].
  - destruct (getProp source typenameField) as [typename|e] eqn:Htypename.
    + cbn [bind]. destruct (truthy typename) eqn:Htn; [|reflexivity]. cbn [negb].
      now rewrite (Hunmatched typename eq_refl Htn).
    + destruct source; discriminate.
  - now rewrite Htruthy.
Qed.

Lemma unmatched_fragment_adds_nothing_witness :
  executeSelectionSet emptySchema (typedUser "1")
    ([leafField "id"] ++ InlineFragment (Some "Product") [leafField "upc"]
       :: [leafField "__typename"]) None
  = Ok (VObj [("id", VStr "1"); ("__typename", VStr "User")]).
Proof.
  rewrite (unmatched_fragment_adds_nothing emptySchema (typedUser "1") [leafField "id"]
             (Some "Product") [leafField "upc"] [leafField "__typename"] None).
  - reflexivity.
  - intros typename Htypename _. injection Htypename as <-. reflexivity.
Defined.

(** *** Hydrated paths and the entities of a cursor *)

Lemma generateHydratedPaths_null parent path data :
  isNotNullOrUndefined data = false -> generateHydratedPaths parent path data = Ok [].
Proof. intros Hnull. destruct data; try discriminate; now destruct path as [|[]]. Qed.

Lemma flattenResultsAtPath_null t l path :
  isNotNullOrUndefined (deref t l) = false -> flattenResultsAtPath t (One l) path = Ok (One l).
Proof. intros Hnull. destruct path; simpl; [reflexivity | now rewrite Hnull]. Qed.

Lemma pathOfLoc_snoc l s : pathOfLoc (l ++ [s]) = pathOfLoc l ++ [pathOfStep s].
Proof. unfold pathOfLoc. now rewrite map_app. Qed.

Lemma flatOf_null t l :
  isNotNullOrUndefined (deref t l) = false ->
  List.filter (fun l' => isNotNullOrUndefined (deref t l')) (flatOf t (One l)) = [].
Proof.
  intros Hnull. unfold flatOf, elementsOf.
  destruct (deref t l) eqn:E; try discriminate; simpl; now rewrite E.
Qed.

Section aligned_elements.
Variable t : value.
Variable l : loc.
Variable rest : ResponsePath.
Hypothesis IH : forall e,
  conforms rest (deref t e) = true ->
  exists r,
    flattenResultsAtPath t (One e) rest = Ok r
    /\ generateHydratedPaths (pathOfLoc e) rest (deref t e)
       = Ok (map pathOfLoc
               (List.filter (fun l' => isNotNullOrUndefined (deref t l')) (flatOf t r))).

Lemma aligned_from es : forall i,
  (forall j v, es !! j = Some v -> deref t (l ++ [SIdx (i + j)]) = v) ->
  forallb (conforms rest) es = true ->
  exists parts,
    mapM (fun element =>
            let* r := flattenResultsAtPath t (One element) rest in
            Ok (match elementsOf t r with
                | Some ls => ls
                | None => match r with One l => [l] | Many ls => ls end
                end))
         (map (fun i => l ++ [SIdx i]) (seq i (length es)))
    = Ok parts
    /\ (fix entries (es : list value) (i : nat) : completion (list ResponsePath) :=
          match es with
          | [] => Ok []
          | value :: es' =>
              let* here := generateHydratedPaths (pathOfLoc l ++ [PNum (Z.of_nat i)]) rest value in
              let* others := entries es' (S i) in
              Ok (here ++ others)
          end) es i
       = Ok (map pathOfLoc
               (List.filter (fun l' => isNotNullOrUndefined (deref t l')) (concat parts))).
Proof.
  induction es as [|v es IHes]; intros i Hderef Hconforms.
  - exists []. split; reflexivity.
  - cbn [forallb] in Hconforms. apply andb_true_iff in Hconforms as [Hv Hes].
    pose proof (Hderef 0 v eq_refl) as Hhere. rewrite Nat.add_0_r in Hhere.
    destruct (IH (l ++ [SIdx i])) as (r & Hr & Hpaths); [now rewrite Hhere|].
    rewrite Hhere, pathOfLoc_snoc in Hpaths. cbn [pathOfStep] in Hpaths.
    destruct (IHes (S i)) as (parts & Hparts & Hentries); [|exact Hes|].
    { intros j v' Hj. rewrite <- (Hderef (S j) v' Hj). now rewrite Nat.add_succ_r. }
    exists (flatOf t r :: parts). split.
    + cbn [length seq map mapM]. rewrite Hr. cbn [bind]. rewrite Hparts. reflexivity.
    + rewrite Hpaths. cbn [bind]. rewrite Hentries. cbn [bind concat].
      now rewrite List.filter_app, map_app.
Qed.
End aligned_elements.

(** Moving a cursor along a path and hydrating the path visit the same
    nodes, in the same order, on data that conforms to the path. *)
Lemma aligned path : forall t l,
  conforms path (deref t l) = true ->
  exists r,
    flattenResultsAtPath t (One l) path = Ok r
    /\ generateHydratedPaths (pathOfLoc l) path (deref t l)
       = Ok (map pathOfLoc
               (List.filter (fun l' => isNotNullOrUndefined (deref t l')) (flatOf t r))).
Proof.
  induction path as [|[s|n] rest IH]; intros t l Hconforms;
    (destruct (isNotNullOrUndefined (deref t l)) eqn:Hlive;
     [|exists (One l);
       now rewrite flattenResultsAtPath_null, generateHydratedPaths_null, flatOf_null]).
  - exists (One l). split; [reflexivity|].
    unfold flatOf, elementsOf.
    destruct (deref t l) eqn:E; try discriminate; simpl; now rewrite E.
  - cbn [flattenResultsAtPath generateHydratedPaths]. rewrite Hlive. cbn [negb].
    destruct (deref t l) as [ | |b|n|s'|es|o] eqn:E; try discriminate;
      cbn [conforms] in Hconforms; destruct (String.eqb s atSign) eqn:Hs; try discriminate.
    + unfold elementsOf at 1. rewrite E.
      destruct (aligned_from t l rest (IH t) es 0) as (parts & Hparts & Hentries);
        [|exact Hconforms|].
      { intros j v Hj. rewrite deref_app, E. simpl. now rewrite Hj. }
      exists (Many (concat parts)). unfold elemLocs. rewrite Hparts. split; [reflexivity|].
      exact Hentries.
    + cbn [isArray].
      destruct (IH t (l ++ [SKey s])) as (r & Hr & Hpaths).
      { rewrite deref_app, E. exact Hconforms. }
      exists r. split; [exact Hr|].
      rewrite deref_app, E, pathOfLoc_snoc in Hpaths. cbn [deref pathOfStep] in Hpaths.
      destruct (hasKey o s) eqn:Hkey; [exact Hpaths|].
      rewrite <- Hpaths. symmetry. apply generateHydratedPaths_null.
      destruct (getKey o s) eqn:Hvalue; try reflexivity;
        rewrite (getKey_defined_hasKey o s) in Hkey; congruence.
  - destruct (deref t l); discriminate.
Qed.

Lemma collectEntities_flatOf t cursor :
  viewTruthy t (cdata cursor) = true ->
  collectEntities t cursor
  = List.filter (fun l' => isNotNullOrUndefined (deref t l')) (flatOf t (cdata cursor)).
Proof.
  intros Hlive. unfold collectEntities, flatOf.
  destruct (elementsOf t (cdata cursor)) as [ls|] eqn:E; [reflexivity|].
  destruct (cdata cursor) as [l|ls]; [|discriminate]. simpl in *.
  now destruct (deref t l).
Qed.

(** X21: for a cursor moved from the root along a path to which the
    response tree conforms, the hydrated paths of the cursor are the
    positions of its entities, in their order.  So an error that an entity
    fetch receives for the entry [i] of [_entities] is given the path of
    the entity [i] of the cursor, followed by the rest of the reported
    path. *)
Theorem entity_errors_point_at_entities t path cursor :
  conforms path t = true ->
  moveIntoCursor t rootCursor path = Ok (Some cursor) ->
  generateHydratedPaths [] (cpath cursor) t = Ok (map pathOfLoc (collectEntities t cursor))
  /\ forall fetch sels first (i : nat) l rest,
       requires fetch = Some sels ->
       collectEntities t cursor !! i = Some l ->
       makeLazyErrorPathGenerator fetch cursor t (Some (first :: PNum (Z.of_nat i) :: rest))
       = Ok (Some (pathOfLoc l ++ rest)).
Proof.
  intros Hconforms Hmove.
  destruct (aligned path t [] Hconforms) as (r & Hr & Hpaths).
  unfold moveIntoCursor in Hmove. cbn [rootCursor cdata cpath] in Hmove.
  rewrite Hr in Hmove. cbn [bind] in Hmove.
  destruct (viewTruthy t r) eqn:Hlive; [|discriminate].
  injection Hmove as <-. cbn [cpath app].
  assert (Hhydrated : generateHydratedPaths [] path t
                      = Ok (map pathOfLoc (collectEntities t (mkCursor path r)))).
  { rewrite collectEntities_flatOf by exact Hlive. exact Hpaths. }
  split; [exact Hhydrated|].
  intros fetch sels first i l rest Hrequires Hi.
  unfold makeLazyErrorPathGenerator. rewrite Hrequires. cbn [cpath].
  rewrite Hhydrated. cbn [bind].
  destruct (Z.ltb_spec (Z.of_nat i) 0) as [Hneg|_]; [lia|].
  now rewrite Nat2Z.id, list_lookup_fmap, Hi.
Qed.

Lemma entity_errors_point_at_entities_witness :
  let t := VObj [("users", VArr [typedUser "1"; VNull; typedUser "2"])] in
  let cursor := mkCursor usersPath
                  (Many [[SKey "users"; SIdx 0]; [SKey "users"; SIdx 1]; [SKey "users"; SIdx 2]]) in
  conforms usersPath t = true
  /\ moveIntoCursor t rootCursor usersPath = Ok (Some cursor)
  /\ collectEntities t cursor !! 1 = Some [SKey "users"; SIdx 2]
  /\ makeLazyErrorPathGenerator emailFetch cursor t
       (Some [PStr "_entities"; PNum 1; PStr "email"])
     = Ok (Some [PStr "users"; PNum 2; PStr "email"]).
Proof.
  intros t cursor.
  assert (Hconforms : conforms usersPath t = true) by reflexivity.
  assert (Hmove : moveIntoCursor t rootCursor usersPath = Ok (Some cursor)) by reflexivity.
  split; [exact Hconforms|]. split; [exact Hmove|]. split; [reflexivity|].
  exact (proj2 (entity_errors_point_at_entities t usersPath cursor Hconforms Hmove)
           emailFetch userKey (PStr "_entities") 1 [SKey "users"; SIdx 2] [PStr "email"]
           eq_refl eq_refl).
Defined.

(** *** The errors of the envelope *)

(** X22: an envelope never carries an empty list of errors.  When it
    carries none, nothing went wrong: the interpretation of the plan
    recorded no error, and the post-processing step returned the data of
    the envelope without an error of its own. *)
Theorem envelope_without_errors queryPlan context computeResponse envelope :
  executeQueryPlan queryPlan context computeResponse = Ok envelope ->
  resultErrors envelope <> Some []
  /\ (resultErrors envelope = None ->
      exists st,
        runPlan queryPlan context = (st, Ok tt)
        /\ errors st = []
        /\ computeResponse (fullResult st) = Shaped (resultData envelope) []).
Proof.
  unfold executeQueryPlan.
  destruct (runPlan queryPlan context) as [st [[]|e]] eqn:Hrun; [|discriminate].
  intros H. injection H as <-. unfold postProcess.
  destruct (computeResponse (fullResult st)) as [data postProcessingErrors|[g|msg|msg|v]]
    eqn:Hshaped.
  - destruct (errors st) as [|e es] eqn:Herrors; destruct postProcessingErrors as [|p ps];
      simpl; split; try discriminate.
    intros _. now exists st.
  - split; discriminate.
  - split; discriminate.
  - split; discriminate.
  - split; discriminate.
Qed.

Lemma envelope_without_errors_witness :
  let envelope := mkResult (VObj [("users", VArr [typedUser "1"; keylessUser])]) None in
  executeQueryPlan (mkQueryPlan (Some (Fetch usersFetch))) contextS4 identityResponse
  = Ok envelope
  /\ exists st,
       runPlan (mkQueryPlan (Some (Fetch usersFetch))) contextS4 = (st, Ok tt)
       /\ errors st = []
       /\ identityResponse (fullResult st) = Shaped (resultData envelope) [].
Proof.
  intros envelope.
  assert (Hrun : executeQueryPlan (mkQueryPlan (Some (Fetch usersFetch))) contextS4
                   identityResponse = Ok envelope) by (vm_compute; reflexivity).
  split; [exact Hrun|].
  exact (proj2 (envelope_without_errors _ contextS4 identityResponse envelope Hrun) eq_refl).
Defined.

(** *** Representations, as extracted *)

(** X24: the representations of an entity fetch are the extractions of
    the [requires] selection from the entities, in the order of the
    entities, without those that are not an object with a truthy
    [__typename]; the index recorded with each is the index of its
    entity. *)
Theorem representations_are_the_viable_extractions schema fetch sels entities index
    representations representationToEntity :
  buildRepresentations schema fetch sels entities index
  = Ok (representations, representationToEntity) ->
  exists extracted,
    mapM (fun entity => executeSelectionSet schema entity sels (inputRewrites fetch)) entities
    = Ok extracted
    /\ zip representationToEntity representations
       = List.filter (fun p => viableRepresentation p.2)
           (zip (seq index (length entities)) extracted)
    /\ length representationToEntity = length representations.
Proof.
  revert index representations representationToEntity.
  induction entities as [|entity rest IH]; intros index representations rte.
  - intros H. injection H as <- <-. exists []. repeat split.
  - cbn [buildRepresentations mapM length seq]. unfold bind at 1 4.
    destruct (executeSelectionSet schema entity sels (inputRewrites fetch)) as [rep|];
      [|discriminate].
    assert (Hkeep : (if truthy rep
                     then let* tn := getProp rep typenameField in Ok (truthy tn)
                     else Ok false) = Ok (viableRepresentation rep)).
    { destruct rep; try reflexivity; simpl; now destruct (_ : bool). }
    rewrite Hkeep. cbn [bind]. unfold bind at 1.
    destruct (buildRepresentations schema fetch sels rest (S index)) as [[reps' rte']|] eqn:E;
      [|discriminate].
    destruct (IH _ _ _ E) as (extracted & -> & Hzip & Hlen).
    intros H. exists (rep :: extracted). split; [reflexivity|].
    cbn [zip zip_with List.filter snd].
    destruct (viableRepresentation rep); injection H as <- <-; cbn [zip zip_with length fst snd];
      rewrite ?Hzip, ?Hlen; split; reflexivity.
Qed.

Lemma representations_are_the_viable_extractions_witness :
  exists extracted,
    mapM (fun entity => executeSelectionSet emptySchema entity userKey (inputRewrites emailFetch))
      [typedUser "1"; keylessUser; typedUser "3"]
    = Ok extracted
    /\ zip [0; 2] [typedUser "1"; typedUser "3"]
       = List.filter (fun p => viableRepresentation p.2) (zip (seq 0 3) extracted)
    /\ length [0; 2] = length [typedUser "1"; typedUser "3"].
Proof.
  exact (representations_are_the_viable_extractions emptySchema emailFetch userKey
           [typedUser "1"; keylessUser; typedUser "3"] 0
           [typedUser "1"; typedUser "3"] [0; 2] eq_refl).
Defined.

(** *** A data source that throws *)

Lemma sendOperation_throwing service fetch cursor vars st e :
  (forall n request, service n request = Throw e) ->
  sendOperation service fetch cursor vars st
  = (mkState (fullResult st) (errors st) (S (calls st)), Throw e).
Proof. intros Hthrows. unfold sendOperation. now rewrite Hthrows. Qed.

(** X25: when the data source of a fetch throws on every request and the
    fetch gets to send one, the exception is recorded as it is, after the
    errors recorded before, and the response tree is left as it was. *)
Theorem source_exception_is_recorded_as_is context fetch cursor st service e :
  serviceMap context (fetchServiceName fetch) = Some service ->
  (forall n request, service n request = Throw e) ->
  calls (executeNode context (Fetch fetch) (Some cursor) st).1 = S (calls st) ->
  executeNode context (Fetch fetch) (Some cursor) st
  = (mkState (fullResult st) (errors st ++ [e]) (S (calls st)), Ok tt).
Proof.
  intros Hservice Hthrows. cbn [executeNode]. unfold executeFetch. rewrite Hservice.
  destruct (Nat.ltb _ 1); [simpl; lia|].
  destruct (requires fetch) as [sels|].
  - destruct (buildRepresentations _ _ _ _ _) as [[representations representationToEntity]|e'];
      [|simpl; lia].
    destruct (Nat.ltb _ 1); [simpl; lia|].
    destruct (hasKey _ _); [simpl; lia|].
    now rewrite (sendOperation_throwing service fetch cursor _ st e Hthrows).
  - now rewrite (sendOperation_throwing service fetch cursor _ st e Hthrows).
Qed.

Lemma source_exception_is_recorded_as_is_witness :
  let down : GraphQLDataSource := fun _ _ => Throw (ExOther (VStr "ECONNRESET")) in
  let context := contextOf (twoServices down down) in
  executeNode context (Fetch usersFetch) (Some rootCursor) initialState
  = (mkState (VObj []) [ExOther (VStr "ECONNRESET")] 1, Ok tt).
Proof.
  intros down context.
  exact (source_exception_is_recorded_as_is context usersFetch rootCursor initialState down
           (ExOther (VStr "ECONNRESET")) eq_refl (fun _ _ => eq_refl) eq_refl).
Defined.

(** *** Nested sequences *)

Lemma runSequence_append {N : Type}
    (exec : N -> ExecutionState -> ExecutionState * completion unit) (before rest : list N) st :
  runSequence exec (before ++ rest) st
  = match runSequence exec before st with
    | (st', Ok _) => runSequence exec rest st'
    | (st', Throw e) => (st', Throw e)
    end.
Proof.
  revert st. induction before as [|n before IH]; intros st; simpl; [reflexivity|].
  destruct (exec n st) as [st1 [[]|e]]; [apply IH | reflexivity].
Qed.

(** X26: a [Sequence] nested at the head of a [Sequence] runs as if its
    children stood in the outer one: the same requests, the same errors,
    the same tree, and the same exception when a child throws. *)
Theorem nested_sequence_flattens context nodes rest cursor st :
  executeNode context (Sequence (Sequence nodes :: rest)) cursor st
  = executeNode context (Sequence (nodes ++ rest)) cursor st.
Proof.
  destruct cursor as [cursor|]; [|reflexivity].
  cbn [executeNode]. rewrite runSequence_append. cbn [runSequence executeNode].
  now destruct (runSequence _ nodes st) as [st' [[]|e]].
Qed.

(** *** The merge of a root fetch *)

Lemma mergeIntoAll_rounds data : forall todo merged,
  loopOver (fun (acc : list value * value) (i : nat) =>
              let* data' := withFetchRewrites (snd acc) None in
              Ok (<[i := deepMerge (at_ (fst acc) i) data']> (fst acc), data'))
           (merged ++ todo, data) (seq (length merged) (length todo))
  = ((merged ++ map (fun entity => deepMerge entity data) todo, data), Ok tt).
Proof.
  induction todo as [|entity todo IH]; intros merged; [reflexivity|].
  cbn [length seq loopOver withFetchRewrites bind fst snd map].
  assert (Hat : at_ (merged ++ entity :: todo) (length merged) = entity).
  { unfold at_. now rewrite list_lookup_middle. }
  rewrite Hat.
  replace (<[length merged := deepMerge entity data]> (merged ++ entity :: todo))
    with ((merged ++ [deepMerge entity data]) ++ todo).
  - replace (S (length merged)) with (length (merged ++ [deepMerge entity data]))
      by (rewrite length_app; simpl; lia).
    rewrite IH. now rewrite <- app_assoc.
  - rewrite <- app_assoc. simpl. symmetry.
    now rewrite insert_app_r_alt, Nat.sub_diag by lia.
Qed.

Lemma mergeIntoAll_plain data entities :
  mergeIntoAll None data entities = (map (fun entity => deepMerge entity data) entities, Ok tt).
Proof.
  unfold mergeIntoAll.
  pose proof (mergeIntoAll_rounds data entities []) as Hrounds.
  cbn [app length] in Hrounds. now rewrite Hrounds.
Qed.

Lemma sendOperation_root service fetch cursor vars st response :
  requires fetch = None ->
  service (calls st) (mkRequest (operation fetch) vars (operationName fetch)) = Ok response ->
  exists st1,
    sendOperation service fetch cursor vars st = (st1, Ok (responseData response))
    /\ fullResult st1 = fullResult st.
Proof.
  intros Hrequires Hreply. unfold sendOperation. rewrite Hreply.
  destruct (responseErrors response) as [errs|]; [|now eexists].
  destruct (mapM_ok (fun error => downstreamServiceError error (fetchServiceName fetch)
                                    (makeLazyErrorPathGenerator fetch cursor (fullResult st)))
              errs) as [es Hes].
  { apply Forall_forall. intros error _.
    unfold downstreamServiceError, makeLazyErrorPathGenerator. rewrite Hrequires.
    destruct (formattedPath error); now eexists. }
  rewrite Hes. now eexists.
Qed.

(** X27: a fetch without [requires] and without output rewrites, to a
    service that replies, merges the data of the reply into every entity
    of its cursor: each entity holds afterwards the [deepMerge] of what it
    held and of the data. *)
Theorem root_fetch_merges_into_every_entity context fetch cursor st service response :
  serviceMap context (fetchServiceName fetch) = Some service ->
  requires fetch = None ->
  outputRewrites fetch = None ->
  service (calls st)
    (mkRequest (operation fetch) (collectVariables fetch (requestVariables context))
       (operationName fetch))
  = Ok response ->
  viewIndependent (cdata cursor) ->
  viewTruthy (fullResult st) (cdata cursor) = true ->
  forall l,
    l ∈ collectEntities (fullResult st) cursor ->
    deref (fullResult (executeFetch context fetch cursor st).1) l
    = deepMerge (deref (fullResult st) l) (responseData response).
Proof.
  intros Hservice Hrequires Hrewrites Hreply Hind Hlive l Hl.
  unfold executeFetch. rewrite Hservice, Hrequires, Hrewrites.
  destruct (Nat.ltb _ 1) eqn:Hnone.
  { destruct (collectEntities (fullResult st) cursor); [inversion Hl | discriminate]. }
  destruct (sendOperation_root service fetch cursor
              (collectVariables fetch (requestVariables context)) st response Hrequires Hreply)
    as (st1 & -> & Htree).
  rewrite mergeIntoAll_plain. cbn [fst withTree fullResult]. rewrite Htree.
  apply list_elem_of_lookup in Hl as [i Hi].
  apply (proj1 (storeEntities_deref (collectEntities (fullResult st) cursor)
                  (fullResult st) _
                  (collectEntities_independent _ _ Hind)
                  (fun l0 => collectEntities_defined _ _ l0 Hlive)) i l _ Hi).
  now rewrite !list_lookup_fmap, Hi.
Qed.

Lemma root_fetch_merges_into_every_entity_witness :
  let data := VObj [("users", VArr [typedUser "1"; keylessUser])] in
  fullResult (executeFetch contextS4 usersFetch rootCursor initialState).1
  = deepMerge (VObj []) data
  /\ deepMerge (VObj []) data = data.
Proof.
  intros data. split; [|reflexivity].
  apply (root_fetch_merges_into_every_entity contextS4 usersFetch rootCursor initialState
           (replying data None) (mkResponse data None) eq_refl eq_refl eq_refl eq_refl I eq_refl
           []).
  left.
Defined.

(** *** An output rewrite applied again *)

Lemma withFetchRewrites_single_key o removedKey renameTo :
  withFetchRewrites (VObj o) (Some [mkOutputRewrite [removedKey] renameTo])
  = Ok (VObj (moveKey o removedKey renameTo)).
Proof. reflexivity. Qed.

(** X28: an output rewrite is not idempotent.  Applied to the same reply
    object a second time, as the fetch without [requires] does for the
    second entity of its cursor, it moves the key it has already removed:
    the new key, which held the value after the first application, is
    undefined after the second, and the old key stays undefined. *)
Theorem output_rewrite_applied_twice o removedKey renameTo :
  renameTo <> removedKey ->
  exists once twice,
    withFetchRewrites (VObj o) (Some [mkOutputRewrite [removedKey] renameTo])
    = Ok (VObj once)
    /\ getKey once renameTo = getKey o removedKey
    /\ withFetchRewrites (VObj once) (Some [mkOutputRewrite [removedKey] renameTo])
       = Ok (VObj twice)
    /\ getKey twice renameTo = VUndefined
    /\ getKey twice removedKey = VUndefined.
Proof.
  intros Hne.
  exists (moveKey o removedKey renameTo),
         (moveKey (moveKey o removedKey renameTo) removedKey renameTo).
  rewrite !withFetchRewrites_single_key.
  split; [reflexivity|]. split; [now apply moveKey_renamed|]. split; [reflexivity|].
  split; [|apply moveKey_removed].
  rewrite moveKey_renamed by exact Hne. apply moveKey_removed.
Qed.

Lemma output_rewrite_applied_twice_witness :
  "login" <> "username"
  /\ exists once twice,
       withFetchRewrites (VObj [("username", VStr "ada")])
         (Some [mkOutputRewrite ["username"] "login"])
       = Ok (VObj once)
       /\ getKey once "login" = getKey [("username", VStr "ada")] "username"
       /\ withFetchRewrites (VObj once) (Some [mkOutputRewrite ["username"] "login"])
          = Ok (VObj twice)
       /\ getKey twice "login" = VUndefined
       /\ getKey twice "username" = VUndefined.
Proof.
  assert (Hne : "login" <> "username") by discriminate.
  split; [exact Hne|].
  exact (output_rewrite_applied_twice [("username", VStr "ada")] "username" "login" Hne).
Defined.

(** *** Hydrated paths are distinct *)

Lemma entries_NoDup parent (f : nat -> value -> completion (list ResponsePath)) es :
  forall i ps,
    (fix entries (es : list value) (i : nat) : completion (list ResponsePath) :=
       match es with
       | [] => Ok []
       | value :: es' =>
           let* here := f i value in
           let* others := entries es' (S i) in
           Ok (here ++ others)
       end) es i = Ok ps ->
    (forall j v here,
       es !! j = Some v -> f (i + j) v = Ok here ->
       NoDup here
       /\ forall p, p ∈ here -> exists s, p = parent ++ PNum (Z.of_nat (i + j)) :: s) ->
    NoDup ps.
Proof.
  induction es as [|v es IH]; intros i ps.
  - intros H _. injection H as <-. constructor.
  - unfold bind at 1. destruct (f i v) as [here|] eqn:Hhere; [|discriminate].
    match goal with |- context [bind ?c _] => destruct c as [others|] eqn:Hothers end;
      [|discriminate].
    cbn [bind]. intros H Hall. injection H as <-.
    destruct (Hall 0 v here eq_refl) as [Hnodup Hprefix]; [now rewrite Nat.add_0_r|].
    apply NoDup_app. split; [exact Hnodup|]. split.
    + intros p Hp Hp'.
      destruct (Hprefix p Hp) as (s & Hs).
      destruct (entries_elem _ _ _ _ _ Hothers Hp') as (j & v' & here' & Hj & Hf & Hin).
      destruct (Hall (S j) v' here' Hj) as [_ Hprefix'];
        [now rewrite Nat.add_succ_r|].
      destruct (Hprefix' p Hin) as (s' & Hs'). rewrite Hs in Hs'.
      apply app_inv_head in Hs'. injection Hs' as Hindex _. lia.
    + apply (IH (S i) others Hothers). intros j v' here' Hj Hf.
      rewrite Nat.add_succ_l, <- Nat.add_succ_r in Hf.
      rewrite Nat.add_succ_l, <- Nat.add_succ_r. exact (Hall (S j) v' here' Hj Hf).
Qed.

Lemma generateHydratedPaths_NoDup path : forall parent data ps,
  generateHydratedPaths parent path data = Ok ps -> NoDup ps.
Proof.
  induction path as [|[head|n] rest IH]; intros parent data ps.
  - simpl. destruct (negb (isNotNullOrUndefined data)); intros H; injection H as <-.
    + constructor.
    + apply NoDup_singleton.
  - destruct (String.eqb head atSign) eqn:Hhead.
    + cbn [generateHydratedPaths]. rewrite Hhead.
      destruct (negb (isNotNullOrUndefined data));
        [intros H; injection H as <-; constructor|].
      destruct data as [ | | | | |es| ]; try discriminate.
      intros Hes. apply (entries_NoDup parent _ es 0 ps Hes).
      intros j v here _ Hhere. split; [exact (IH _ _ _ Hhere)|].
      intros p Hp.
      destruct (generateHydratedPaths_suffix rest _ _ _ p Hhere Hp) as (s & -> & _).
      exists s. now rewrite <- app_assoc.
    + revert parent ps.
      induction data as [ | |b|n|s|es IHes|fields _] using value_induction;
        intros parent ps; cbn [generateHydratedPaths isNotNullOrUndefined negb];
        rewrite ?Hhead; try discriminate;
        try (intros H; injection H as <-; constructor).
      * intros Hes. apply (entries_NoDup parent _ es 0 ps Hes).
        intros j v here Hj Hhere. rewrite Forall_lookup in IHes.
        assert (Hsame : generateHydratedPaths (parent ++ [PNum (Z.of_nat (0 + j))])
                          (PStr head :: rest) v = Ok here).
        { rewrite <- Hhere. cbn [generateHydratedPaths]. rewrite Hhead.
          now destruct v. }
        split; [exact (IHes _ _ Hj _ _ Hsame)|].
        intros p Hp.
        destruct (generateHydratedPaths_suffix _ _ _ _ p Hsame Hp) as (s & -> & _).
        exists s. now rewrite <- app_assoc.
      * destruct (hasKey fields head); [apply IH | intros H; injection H as <-; constructor].
  - simpl. destruct (negb (isNotNullOrUndefined data)); [|discriminate].
    intros H; injection H as <-. constructor.
Qed.

(** X29: the hydrated paths of a plan path are pairwise distinct: two
    different entries of the list never hold the same path, so that the
    index of an entity in an error path selects one position of the
    response. *)
Theorem hydrated_paths_are_distinct path data ps i j p q :
  generateHydratedPaths [] path data = Ok ps ->
  i <> j ->
  ps !! i = Some p ->
  ps !! j = Some q ->
  p <> q.
Proof.
  intros Hps Hne Hi Hj Heq. subst q. apply Hne.
  exact (NoDup_lookup ps i j p (generateHydratedPaths_NoDup path [] data ps Hps) Hi Hj).
Qed.

Lemma hydrated_paths_are_distinct_witness :
  generateHydratedPaths [] [PStr "foo"; PStr "@"; PStr "bar"; PStr "@"] fooBars
  = Ok [[PStr "foo"; PNum 0; PStr "bar"; PNum 0]; [PStr "foo"; PNum 0; PStr "bar"; PNum 1];
        [PStr "foo"; PNum 1; PStr "bar"; PNum 0]; [PStr "foo"; PNum 1; PStr "bar"; PNum 1]]
  /\ 1 <> 2
  /\ [PStr "foo"; PNum 0; PStr "bar"; PNum 1] <> [PStr "foo"; PNum 1; PStr "bar"; PNum 0].
Proof.
  assert (Hne : 1 <> 2) by discriminate.
  split; [reflexivity|]. split; [exact Hne|].
  exact (hydrated_paths_are_distinct [PStr "foo"; PStr "@"; PStr "bar"; PStr "@"] fooBars
           _ 1 2 _ _ eq_refl Hne eq_refl eq_refl).
Defined.
